(** * PINN-LBM2 (lettuce): moment transforms, reference boundaries and the
      streaming component of the native code generator.

    The development embeds, as executable Rocq definitions,

    - [lettuce/moments.py]: the stored matrix / inverse pairs of
      [D1Q3Transform], [D2Q9Dellar], [D2Q9Lallemand] and [Transform.__getitem__];
    - [lettuce/ext/_collision/bgk_initialization.py]: [BGKInitialization];
    - [lettuce/boundary.py]: [BounceBackBoundary], [EquilibriumBoundaryPU] and the
      constructor of [AntiBounceBackOutlet];
    - [lettuce/native_generator/_streaming.py]: [NativeNoStreaming] and
      [NativeStandardStreaming], together with the kernel fragment they emit.

    Floating-point scalars are modelled by exact rationals ([Q], compared with
    [Qeq]); integers of the kernels by [Z]. *)

From Stdlib Require Import QArith Qabs ZArith Lia.
From stdpp Require Import base list strings gmap pretty.

(* ===================================================================== *)
(** * Part I: the embedding *)
(* ===================================================================== *)

(** ** Python exceptions raised by the modelled constructors *)

Inductive exn : Type :=
  | AssertionError (msg : string)
  | ValueError (msg : string)
  | IndexError
  | GenerationError (msg : string)
  | ZeroDivisionError.

Inductive result (A : Type) : Type :=
  | Ok (a : A)
  | Raise (e : exn).
Arguments Ok {A} a.
Arguments Raise {A} e.

(** ** Stencils *)

Module Stencils.

(** Modelled from the spec: the [lettuce.stencils] module is not part of the
    sources at hand.  A stencil descriptor is "pure data: velocity set,
    weights, opposite-direction mapping, ... dimensionality".  The velocity
    tables below are the ones [tests/test_moments.py]
    ([test_conserved_moments_d2q9]) pins down: rows 1 and 2 of the D2Q9
    moment matrices are the x and y components of [D2Q9.e]. *)
Record Stencil : Type := {
  e : list (list Z);
  w : list Q;
  opposite : list nat
}.

(** Modelled from the spec: [Stencil.Q] (the stencils module is not part of
    the sources at hand), the number of velocities. *)
Definition Q_ (s : Stencil) : nat := length (e s).

(** Modelled from the spec: [Stencil.D] (the stencils module is not part of
    the sources at hand), the "dimensionality". *)
Definition D (s : Stencil) : nat := from_option length 0%nat (head (e s)).

(** Modelled from the spec: the D1Q3 stencil (the stencils module is not
    part of the sources at hand), with the velocities 0, 1, -1 that row 1 of
    [D1Q3Transform.matrix] lists. *)
Definition D1Q3 : Stencil := {|
  e := [[0]; [1]; [-1]]%Z;
  w := [2 # 3; 1 # 6; 1 # 6]%Q;
  opposite := [0; 2; 1]
|}.

(** Modelled from the spec: the D2Q9 stencil (the stencils module is not
    part of the sources at hand), with the velocities that rows 1 and 2 of
    the D2Q9 moment matrices list. *)
Definition D2Q9 : Stencil := {|
  e := [[0; 0]; [1; 0]; [0; 1]; [-1; 0]; [0; -1];
        [1; 1]; [-1; 1]; [-1; -1]; [1; -1]]%Z;
  w := [4 # 9; 1 # 9; 1 # 9; 1 # 9; 1 # 9;
        1 # 36; 1 # 36; 1 # 36; 1 # 36]%Q;
  opposite := [0; 3; 4; 1; 2; 7; 8; 5; 6]
|}.

End Stencils.

(** ** [lettuce/moments.py] *)

Module Moments.
Import Stencils.
Local Open Scope Q_scope.

Abbreviation matrix := (list (list Q)) (only parsing).

Definition dot (a b : list Q) : Q := foldr Qplus 0 (zip_with Qmult a b).

(** Modelled from the spec: [lattice.mv] belongs to the [Lattice] class, which
    is not part of the sources at hand.  A moment transform is "a linear
    change of basis from directional populations to ... aggregate
    quantities": the matrix is applied to the vector of the Q populations of
    a lattice cell, independently at every cell.  The model is written for
    one cell. *)
Definition mv (M : matrix) (f : list Q) : list Q := (λ row, dot row f) <$> M.

(** [names.index(name)]: position of the first occurrence, [ValueError]
    when the name is absent. *)
Fixpoint index (names : list string) (name : string) : result nat :=
  match names with
  | [] => Raise (ValueError ("'" +:+ name +:+ "' is not in list"))
  | n :: names' =>
      if String.eqb n name then Ok 0%nat
      else match index names' name with
           | Ok i => Ok (S i)
           | Raise x => Raise x
           end
  end.

Record Transform : Type := {
  names : list string;
  supported_stencils : list Stencil;
  transform : list Q → list Q;
  inverse_transform : list Q → list Q
}.

(** [Transform.__getitem__] for a tuple of moment names:
    [[self.names.index(name) for name in moment_names]]. *)
Fixpoint getitem_names (names : list string) (moment_names : list string)
  : result (list nat) :=
  match moment_names with
  | [] => Ok []
  | n :: rest =>
      match index names n with
      | Raise x => Raise x
      | Ok i =>
          match getitem_names names rest with
          | Raise x => Raise x
          | Ok idxs => Ok (i :: idxs)
          end
      end
  end.

Definition getitem (T : Transform) (moment_names : list string)
  : result (list nat) :=
  getitem_names (names T) moment_names.

(** *** [D1Q3Transform] *)

Definition D1Q3Transform_matrix : matrix :=
  [[1; 1; 1];
   [0; 1; -1];
   [0; 1; 1]].

Definition D1Q3Transform_inverse : matrix :=
  [[1; 0; -1];
   [0; 1/2; 1/2];
   [0; -1/2; 1/2]].

Definition D1Q3Transform : Transform := {|
  names := ["rho"; "j"; "e"]%string;
  supported_stencils := [D1Q3];
  transform f := mv D1Q3Transform_matrix f;
  inverse_transform m := mv D1Q3Transform_inverse m
|}.

(** *** [D2Q9Dellar] *)

Definition D2Q9Dellar_matrix : matrix :=
  [[1; 1; 1; 1; 1; 1; 1; 1; 1];
   [0; 1; 0; -1; 0; 1; -1; -1; 1];
   [0; 0; 1; 0; -1; 1; 1; -1; -1];
   [-3 / 2; 3; -3 / 2; 3; -3 / 2; 3; 3; 3; 3];
   [0; 0; 0; 0; 0; 9; -9; 9; -9];
   [-3 / 2; -3 / 2; 3; -3 / 2; 3; 3; 3; 3; 3];
   [1; -2; -2; -2; -2; 4; 4; 4; 4];
   [0; -2; 0; 2; 0; 4; -4; -4; 4];
   [0; 0; -2; 0; 2; 4; 4; -4; -4]].

Definition D2Q9Dellar_inverse : matrix :=
  [[4 / 9; 0; 0; -4 / 27; 0; -4 / 27; 1 / 9; 0; 0];
   [1 / 9; 1 / 3; 0; 2 / 27; 0; -1 / 27; -1 / 18; -1 / 12; 0];
   [1 / 9; 0; 1 / 3; -1 / 27; 0; 2 / 27; -1 / 18; 0; -1 / 12];
   [1 / 9; -1 / 3; 0; 2 / 27; 0; -1 / 27; -1 / 18; 1 / 12; 0];
   [1 / 9; 0; -1 / 3; -1 / 27; 0; 2 / 27; -1 / 18; 0; 1 / 12];
   [1 / 36; 1 / 12; 1 / 12; 1 / 54; 1 / 36; 1 / 54; 1 / 36; 1 / 24; 1 / 24];
   [1 / 36; -1 / 12; 1 / 12; 1 / 54; -1 / 36; 1 / 54; 1 / 36; -1 / 24; 1 / 24];
   [1 / 36; -1 / 12; -1 / 12; 1 / 54; 1 / 36; 1 / 54; 1 / 36; -1 / 24; -1 / 24];
   [1 / 36; 1 / 12; -1 / 12; 1 / 54; -1 / 36; 1 / 54; 1 / 36; 1 / 24; -1 / 24]].

Definition D2Q9Dellar : Transform := {|
  names := ["rho"; "jx"; "jy"; "Pi_xx"; "Pi_xy"; "PI_yy"; "N"; "Jx"; "Jy"]%string;
  supported_stencils := [D2Q9];
  transform f := mv D2Q9Dellar_matrix f;
  inverse_transform m := mv D2Q9Dellar_inverse m
|}.

(** *** [D2Q9Lallemand] *)

Definition D2Q9Lallemand_matrix : matrix :=
  [[1; 1; 1; 1; 1; 1; 1; 1; 1];
   [0; 1; 0; -1; 0; 1; -1; -1; 1];
   [0; 0; 1; 0; -1; 1; 1; -1; -1];
   [0; 1; -1; 1; -1; 0; 0; 0; 0];
   [0; 0; 0; 0; 0; 1; -1; 1; -1];
   [-4; -1; -1; -1; -1; 2; 2; 2; 2];
   [0; -2; 0; 2; 0; 1; -1; -1; 1];
   [0; 0; -2; 0; 2; 1; 1; -1; -1];
   [4; -2; -2; -2; -2; 1; 1; 1; 1]].

Definition D2Q9Lallemand_inverse : matrix :=
  [[1 / 9; 0; 0; 0; 0; -1 / 9; 0; 0; 1 / 9];
   [1 / 9; 1 / 6; 0; 1 / 4; 0; -1 / 36; -1 / 6; 0; -1 / 18];
   [1 / 9; 0; 1 / 6; -1 / 4; 0; -1 / 36; 0; -1 / 6; -1 / 18];
   [1 / 9; -1 / 6; 0; 1 / 4; 0; -1 / 36; 1 / 6; 0; -1 / 18];
   [1 / 9; 0; -1 / 6; -1 / 4; 0; -1 / 36; 0; 1 / 6; -1 / 18];
   [1 / 9; 1 / 6; 1 / 6; 0; 1 / 4; 1 / 18; 1 / 12; 1 / 12; 1 / 36];
   [1 / 9; -1 / 6; 1 / 6; 0; -1 / 4; 1 / 18; -1 / 12; 1 / 12; 1 / 36];
   [1 / 9; -1 / 6; -1 / 6; 0; 1 / 4; 1 / 18; -1 / 12; -1 / 12; 1 / 36];
   [1 / 9; 1 / 6; -1 / 6; 0; -1 / 4; 1 / 18; 1 / 12; -1 / 12; 1 / 36]].

Definition D2Q9Lallemand : Transform := {|
  names := ["rho"; "jx"; "jy"; "pxx"; "pxy"; "e"; "qx"; "qy"; "eps"]%string;
  supported_stencils := [D2Q9];
  transform f := mv D2Q9Lallemand_matrix f;
  inverse_transform m := mv D2Q9Lallemand_inverse m
|}.

(** The stencil / basis pairs the test suite runs the round trip on:
    every transform with each of its [supported_stencils]. *)
Definition supported_pairs : list (Stencil * Transform) :=
  [(D1Q3, D1Q3Transform); (D2Q9, D2Q9Dellar); (D2Q9, D2Q9Lallemand)].

(** Entrywise comparison used by [test_inverse_transform]:
    [pytest.approx(original, abs=1e-6)]. *)
Definition approx (tol : Q) (a b : list Q) : Prop :=
  Forall2 (λ x y, Qabs (x - y) <= tol) a b.

End Moments.


(** ** [lettuce/ext/_collision/bgk_initialization.py] *)

Module BGKInit.
Import Stencils Moments.
Local Open Scope Q_scope.

(** Every operation of [BGKInitialization.__call__] is local to a lattice
    cell (a sum over the Q populations, matrix-vector products, elementwise
    arithmetic), so the collision is modelled at one cell: [f] is the vector
    of the Q populations there and [u] the D components of the velocity
    captured at construction. *)
Record BGKInitialization : Type := {
  tau : Q;
  moment_transformation : Transform;
  u : list Q;
  rho0 : Q;
  momentum_indices : list nat
}.

(** [tuple([f"j{x}" for x in "xyz"[:flow.stencil.d]])] *)
Definition momentum_names (d : nat) : list string :=
  take d ["jx"; "jy"; "jz"]%string.

(** [BGKInitialization.__init__].  The arguments are what the constructor
    reads from the flow: [flow.units.relaxation_parameter_lu], the initial
    velocity converted to lattice units, [characteristic_density_lu] and
    [flow.stencil.d]. *)
Definition init (relaxation_parameter_lu : Q) (u_lu : list Q)
    (characteristic_density_lu : Q) (d : nat)
    (moment_transformation : Transform) : result BGKInitialization :=
  match getitem moment_transformation (momentum_names d) with
  | Raise x => Raise x
  | Ok idx =>
      Ok {| tau := relaxation_parameter_lu;
            moment_transformation := moment_transformation;
            u := u_lu;
            rho0 := characteristic_density_lu;
            momentum_indices := idx |}
  end.

(** [mnew[indices] = values]: an index assignment with a list of indices,
    performed left to right; the shapes must agree and every index must be
    in range. *)
Fixpoint assign_indices (indices : list nat) (values : list Q)
    (m : list Q) : result (list Q) :=
  match indices, values with
  | [], [] => Ok m
  | i :: indices', v :: values' =>
      if decide (i < length m)%nat
      then assign_indices indices' values' (<[i := v]> m)
      else Raise IndexError
  | _, _ => Raise (ValueError "shape mismatch")
  end.

Section Flow.

(** The flow object's density and equilibrium ([flow.rho()],
    [flow.equilibrium(flow, rho, u)]) live outside the sources at hand; the
    collision is parametric in them. *)
Variable flow_rho : list Q → Q.
Variable flow_equilibrium : Q → list Q → list Q.

(** [BGKInitialization.__call__].  A scalar division by zero raises. *)
Definition call (self : BGKInitialization) (f : list Q) : result (list Q) :=
  let rho := flow_rho f in
  let feq := flow_equilibrium rho (u self) in
  let m := transform (moment_transformation self) f in
  let meq := transform (moment_transformation self) feq in
  if Qeq_bool (tau self) 0 then Raise ZeroDivisionError else
  let mnew := zip_with (λ mi meqi, mi - 1 / tau self * (mi - meqi)) m meq in
  if Qeq_bool (tau self + 1) 0 then Raise ZeroDivisionError else
  match m, meq, mnew with
  | m0 :: _, meq0 :: _, _ :: _ =>
      let mnew := <[0%nat := m0 - 1 / (tau self + 1) * (m0 - meq0)]> mnew in
      match assign_indices (momentum_indices self)
                           ((λ ui, rho * ui) <$> u self) mnew with
      | Raise x => Raise x
      | Ok mnew => Ok (inverse_transform (moment_transformation self) mnew)
      end
  | _, _, _ => Raise IndexError
  end.

End Flow.

End BGKInit.

(** ** [lettuce/boundary.py] *)

Module Boundary.
Import Stencils.
Local Open Scope Q_scope.

(** A distribution tensor of shape [Q, ...grid]: one row per direction, each
    row listing the populations of all lattice cells (the grid axes
    flattened).  A boundary mask has the grid's shape, flattened alike. *)
Abbreviation tensor := (list (list Q)) (only parsing).

(** [torch.where(mask, a, b)], the mask broadcast along the leading axis.
    (Torch raises on shapes that do not broadcast; the zips stop at the
    shorter operand.) *)
Definition where_ (mask : list bool) (a b : tensor) : tensor :=
  zip_with (λ ra rb,
    zip_with (λ (c : bool) ab, if c then ab.1 else ab.2) mask (zip ra rb)) a b.

(** [f[q, x]]: one entry; [None] outside the tensor. *)
Definition entry (f : tensor) (q x : nat) : option Q := f !! q ≫= (.!! x).

(** The tensor has [Qn] rows over [n] cells. *)
Definition shape (f : tensor) (Qn n : nat) : Prop :=
  length f = Qn ∧ Forall (λ row, length row = n) f.

(** [f[idx]]: row selection by an index list along the leading axis. *)
Definition take_rows (f : tensor) (idx : list nat) : tensor :=
  (λ i, f !!! i) <$> idx.

(** *** [BounceBackBoundary] *)

Record BounceBackBoundary : Type := {
  bb_mask : list bool;
  bb_lattice : Stencil
}.

Definition BounceBackBoundary_call (self : BounceBackBoundary) (f : tensor)
  : tensor :=
  where_ (bb_mask self) (take_rows f (opposite (bb_lattice self))) f.

(** *** [EquilibriumBoundaryPU] *)

Record EquilibriumBoundaryPU : Type := {
  eq_mask : list bool;
  velocity : list Q;
  pressure : Q
}.

Definition ones_like (f : tensor) : tensor :=
  (λ row : list Q, (λ _ : Q, 1) <$> row) <$> f.

(** [lattice.einsum("q,q->q", [feq, ones])]: the Q equilibrium values are
    multiplied, direction by direction, into a tensor of the shape of [f]. *)
Definition einsum_q (feq : list Q) (ones : tensor) : tensor :=
  zip_with (λ (fq : Q) (row : list Q), (λ o, fq * o) <$> row) feq ones.

Section Equilibrium.

(** Unit conversion and the lattice's equilibrium are collaborators outside
    the sources at hand. *)
Variable convert_pressure_pu_to_density_lu : Q → Q.
Variable convert_velocity_to_lu : list Q → list Q.
Variable equilibrium : Q → list Q → list Q.

Definition precomputed_equilibrium (self : EquilibriumBoundaryPU) : list Q :=
  let rho := convert_pressure_pu_to_density_lu (pressure self) in
  let u := convert_velocity_to_lu (velocity self) in
  equilibrium rho u.

Definition EquilibriumBoundaryPU_call (self : EquilibriumBoundaryPU)
    (f : tensor) : tensor :=
  let feq := precomputed_equilibrium self in
  let feq := einsum_q feq (ones_like f) in
  where_ (eq_mask self) feq f.

End Equilibrium.

(** *** [AntiBounceBackOutlet.__init__] *)

Inductive py_index : Type :=
  | slice_None
  | int_index (i : Z).

Record AntiBounceBackOutlet : Type := {
  lattice : Stencil;
  velocities : list nat;
  index : list py_index;
  neighbour : list py_index;
  dims : string;
  abb_w : list Q
}.

(** [repr] of a Python list of ints, as the f-string prints it. *)
Definition repr_list (l : list Z) : string :=
  "[" +:+ String.concat ", " (pretty <$> l) +:+ "]".

Definition sum_list (l : list Z) : Z := foldr Z.add 0%Z l.

(** [np.max(np.abs(direction))]; evaluated on non-empty lists only. *)
Definition max_abs (l : list Z) : Z := foldr Z.max 0%Z (Z.abs <$> l).

Definition elem (x : Z) (l : list Z) : bool := bool_decide (x ∈ l).

(** "all entrys 0 except one 1 or -1": exactly one entry is not zero, and
    that entry is 1 or -1. *)
Definition one_nonzero_entry (direction : list Z) : Prop :=
  ∃ s, filter (λ z, z ≠ 0%Z) direction = [s] ∧ (s = 1 ∨ s = -1)%Z.

(** The text [needle] occurs in [text]. *)
Definition occurs_in (needle text : string) : Prop :=
  ∃ before after, text = before +:+ needle +:+ after.

(** The asserted condition (the argument is a list by its type). *)
Definition direction_ok (direction : list Z) : bool :=
  bool_decide (length direction ∈ [1; 2; 3]%nat)
  && ((Z.abs (sum_list direction) =? 1)%Z
      && (max_abs direction =? 1)%Z
      && xorb (elem 1 direction) (elem (-1) direction)).

Definition wrong_direction (direction : list Z) : string :=
  "Wrong direction. Expected list of length 1, 2 or 3 with all entrys 0 except one 1 or -1, "
  +:+ "but got " +:+ "<class 'list'>" +:+ " of size " +:+ pretty (length direction)
  +:+ " and entrys " +:+ repr_list direction +:+ ".".

Definition dotZ (a b : list Z) : Z := foldr Z.add 0%Z (zip_with Z.mul a b).

(** [np.argwhere(v == 1)], flattened by [np.concatenate(..., axis=0)]. *)
Definition argwhere_eq1 (v : list Z) : list nat :=
  (λ p, p.1) <$> filter (λ p, p.2 = 1%Z) (imap (λ i x, (i, x)) v).

Definition index_of_side (i : Z) : list py_index :=
  (if decide (i = 0)%Z then [slice_None] else [])
  ++ (if decide (i = 1)%Z then [int_index (-1)] else [])
  ++ (if decide (i = -1)%Z then [int_index 0] else []).

Definition neighbour_of_side (i : Z) : list py_index :=
  (if decide (i = 0)%Z then [slice_None] else [])
  ++ (if decide (i = 1)%Z then [int_index (-2)] else [])
  ++ (if decide (i = -1)%Z then [int_index 1] else []).

Definition AntiBounceBackOutlet_init (lattice : Stencil) (direction : list Z)
  : result AntiBounceBackOutlet :=
  if negb (direction_ok direction)
  then Raise (AssertionError (wrong_direction direction))
  else
    (* np.matmul(self.lattice.stencil.e, direction) *)
    if negb (bool_decide (Forall (λ row, length row = length direction) (e lattice)))
    then Raise (ValueError "matmul: mismatch in its core dimension")
    else
      let proj := (λ row, dotZ row direction) <$> e lattice in
      match argwhere_eq1 proj with
      | [] => Raise (ValueError "need at least one array to concatenate")
      | vs =>
          Ok {| lattice := lattice;
                velocities := vs;
                index := direction ≫= index_of_side;
                neighbour := direction ≫= neighbour_of_side;
                dims := (if decide (length direction = 3%nat) then "dc, cxy -> dxy"
                         else if decide (length direction = 2%nat) then "dc, cx -> dx"
                         else "dc, c -> dc")%string;
                abb_w := (λ i, default 0 (w lattice !! i)) <$> vs |}
      end.

End Boundary.


(** ** The generator's contribution interface *)

Module Generator.

(** Modelled from the spec: the [Generator] class (the orchestrator) is not
    part of the sources at hand; only the streaming component that drives it
    is.  Its state is what section 3 of the specification lists: the registry
    of already-emitted fragment keys, the slot table ("two parallel
    mappings, one for kernel-function parameters and one for host-side
    launcher parameters, each from parameter name to (declared type, source
    expression ...)") and the named code buffers ("kernel preamble/hooks,
    per-cell index-computation block, per-cell write-back block,
    host-wrapper pre-launch block, host-wrapper post-launch block"), each a
    sequence of appended lines. *)
Record launcher_slot : Type := {
  l_parameter : string;
  l_value : string;
  l_py_value : string
}.

(** Modelled from the spec: a kernel-function parameter of the slot table
    (the class that holds it is not part of the sources at hand). *)
Record kernel_slot : Type := {
  k_parameter : string;
  k_value : string
}.

(** Modelled from the spec: the state of the [Generator] object (not part
    of the sources at hand): registry, slot table and the five buffers. *)
Record Generator : Type := {
  registry : gset string;
  launcher_slots : gmap string launcher_slot;
  kernel_slots : gmap string kernel_slot;
  hook_buffer : list string;
  index_buffer : list string;
  write_buffer : list string;
  python_wrapper_before_buffer : list string;
  python_wrapper_after_buffer : list string
}.

(** Modelled from the spec: the state [Generator.generate] (not part of the
    sources at hand) starts from: "resets all buffers and the FragmentKey
    registry". *)
Definition reset : Generator := {|
  registry := ∅;
  launcher_slots := ∅;
  kernel_slots := ∅;
  hook_buffer := [];
  index_buffer := [];
  write_buffer := [];
  python_wrapper_before_buffer := [];
  python_wrapper_after_buffer := []
|}.

(** A contribution runs against the one generator object that is passed to
    every [generate_*] method and mutated in place; it may abort the whole
    generation with an exception. *)
Definition Gen (A : Type) : Type := Generator → result (A * Generator).

Definition ret {A} (a : A) : Gen A := λ g, Ok (a, g).

Definition bind {A B} (m : Gen A) (k : A → Gen B) : Gen B :=
  λ g, match m g with
       | Ok (a, g') => k a g'
       | Raise x => Raise x
       end.

Declare Scope gen_scope.
Delimit Scope gen_scope with gen.
Notation "x <- m ;; k" := (bind m (λ x, k))
  (at level 100, m at next level, k at level 200, right associativity) : gen_scope.
Notation "m ;; k" := (bind m (λ _, k))
  (at level 100, k at level 200, right associativity) : gen_scope.
Local Open Scope gen_scope.

(** [if cond: body] around a block of contributions. *)
Definition when (cond : bool) (body : Gen unit) : Gen unit :=
  if cond then body else ret tt.

(** Modelled from the spec: [Generator.registered] (not part of the sources
    at hand), the membership test on the fragment registry. *)
Definition registered (key : string) : Gen bool :=
  λ g, Ok (bool_decide (key ∈ registry g), g).

(** Modelled from the spec: [Generator.register] (not part of the sources at
    hand) adds the key to the fragment registry. *)
Definition register (key : string) : Gen unit :=
  λ g, Ok (tt, {| registry := {[key]} ∪ registry g;
                  launcher_slots := launcher_slots g;
                  kernel_slots := kernel_slots g;
                  hook_buffer := hook_buffer g;
                  index_buffer := index_buffer g;
                  write_buffer := write_buffer g;
                  python_wrapper_before_buffer := python_wrapper_before_buffer g;
                  python_wrapper_after_buffer := python_wrapper_after_buffer g |}).

(** Modelled from the spec: [Generator.append_hook_buffer] (not part of the
    sources at hand) appends one line to the kernel preamble; the streaming
    component passes [cond=] to make an append conditional. *)
Definition append_hook_buffer (it : string) (cond : bool) : Gen unit :=
  λ g, Ok (tt, if cond then
                {| registry := registry g;
                   launcher_slots := launcher_slots g;
                   kernel_slots := kernel_slots g;
                   hook_buffer := hook_buffer g ++ [it];
                   index_buffer := index_buffer g;
                   write_buffer := write_buffer g;
                   python_wrapper_before_buffer := python_wrapper_before_buffer g;
                   python_wrapper_after_buffer := python_wrapper_after_buffer g |}
              else g).

(** Modelled from the spec: [Generator.append_index_buffer] (not part of the
    sources at hand) appends one line to the per-cell index block. *)
Definition append_index_buffer (it : string) (cond : bool) : Gen unit :=
  λ g, Ok (tt, if cond then
                {| registry := registry g;
                   launcher_slots := launcher_slots g;
                   kernel_slots := kernel_slots g;
                   hook_buffer := hook_buffer g;
                   index_buffer := index_buffer g ++ [it];
                   write_buffer := write_buffer g;
                   python_wrapper_before_buffer := python_wrapper_before_buffer g;
                   python_wrapper_after_buffer := python_wrapper_after_buffer g |}
              else g).

(** Modelled from the spec: [Generator.append_write_buffer] (not part of the
    sources at hand) appends one line to the per-cell write-back block. *)
Definition append_write_buffer (it : string) (cond : bool) : Gen unit :=
  λ g, Ok (tt, if cond then
                {| registry := registry g;
                   launcher_slots := launcher_slots g;
                   kernel_slots := kernel_slots g;
                   hook_buffer := hook_buffer g;
                   index_buffer := index_buffer g;
                   write_buffer := write_buffer g ++ [it];
                   python_wrapper_before_buffer := python_wrapper_before_buffer g;
                   python_wrapper_after_buffer := python_wrapper_after_buffer g |}
              else g).

(** Modelled from the spec: [Generator.append_python_wrapper_before_buffer]
    (not part of the sources at hand) appends one line to the pre-launch
    block of the host wrapper. *)
Definition append_python_wrapper_before_buffer (it : string) : Gen unit :=
  λ g, Ok (tt, {| registry := registry g;
                  launcher_slots := launcher_slots g;
                  kernel_slots := kernel_slots g;
                  hook_buffer := hook_buffer g;
                  index_buffer := index_buffer g;
                  write_buffer := write_buffer g;
                  python_wrapper_before_buffer := python_wrapper_before_buffer g ++ [it];
                  python_wrapper_after_buffer := python_wrapper_after_buffer g |}).

(** Modelled from the spec: [Generator.append_python_wrapper_after_buffer]
    (not part of the sources at hand) appends one line to the post-launch
    block of the host wrapper. *)
Definition append_python_wrapper_after_buffer (it : string) : Gen unit :=
  λ g, Ok (tt, {| registry := registry g;
                  launcher_slots := launcher_slots g;
                  kernel_slots := kernel_slots g;
                  hook_buffer := hook_buffer g;
                  index_buffer := index_buffer g;
                  write_buffer := write_buffer g;
                  python_wrapper_before_buffer := python_wrapper_before_buffer g;
                  python_wrapper_after_buffer := python_wrapper_after_buffer g ++ [it] |}).

(** Modelled from the spec: [Generator.launcher_hooked] (not part of the
    sources at hand), one of the "idempotent membership checks against the
    SlotTable". *)
Definition launcher_hooked (name : string) : Gen bool :=
  λ g, Ok (bool_decide (is_Some (launcher_slots g !! name)), g).

(** Modelled from the spec: [Generator.kernel_hooked] (not part of the
    sources at hand), the membership check on the kernel parameters. *)
Definition kernel_hooked (name : string) : Gen bool :=
  λ g, Ok (bool_decide (is_Some (kernel_slots g !! name)), g).

(** Modelled from the spec: [Generator.launcher_hook] (not part of the
    sources at hand).  "a parameter name must resolve to the same declared
    type everywhere it is used; registering the same name twice with a
    different type is an error". *)
Definition launcher_hook (name parameter value py_value : string) : Gen unit :=
  λ g, match launcher_slots g !! name with
       | Some s =>
           if String.eqb (l_parameter s) parameter then Ok (tt, g)
           else Raise (GenerationError name)
       | None =>
           Ok (tt, {| registry := registry g;
                      launcher_slots :=
                        <[name := {| l_parameter := parameter;
                                     l_value := value;
                                     l_py_value := py_value |}]> (launcher_slots g);
                      kernel_slots := kernel_slots g;
                      hook_buffer := hook_buffer g;
                      index_buffer := index_buffer g;
                      write_buffer := write_buffer g;
                      python_wrapper_before_buffer := python_wrapper_before_buffer g;
                      python_wrapper_after_buffer := python_wrapper_after_buffer g |})
       end.

(** Modelled from the spec: [Generator.kernel_hook] (not part of the sources
    at hand), under the same rule as [launcher_hook]. *)
Definition kernel_hook (name parameter value : string) : Gen unit :=
  λ g, match kernel_slots g !! name with
       | Some s =>
           if String.eqb (k_parameter s) parameter then Ok (tt, g)
           else Raise (GenerationError name)
       | None =>
           Ok (tt, {| registry := registry g;
                      launcher_slots := launcher_slots g;
                      kernel_slots :=
                        <[name := {| k_parameter := parameter;
                                     k_value := value |}]> (kernel_slots g);
                      hook_buffer := hook_buffer g;
                      index_buffer := index_buffer g;
                      write_buffer := write_buffer g;
                      python_wrapper_before_buffer := python_wrapper_before_buffer g;
                      python_wrapper_after_buffer := python_wrapper_after_buffer g |})
       end.

(** Modelled from the spec: the primitive generators ([generate_q],
    [generate_d], [generate_e] of the stencil, [generate_offset],
    [generate_index], [generate_dimension] of the kernel side) are not part
    of the sources at hand.  They "are requested by name ... and are
    idempotent: calling twice is a no-op after the first call registers the
    corresponding FragmentKey.  Output: inserted constant/expression
    definitions into the kernel preamble buffer.  No side effects beyond
    buffer append and registry update." *)
Definition primitive (key : string) (definition : string) : Gen unit :=
  r <- registered key ;;
  when (negb r) (
    register key ;;
    append_hook_buffer definition true).

(** Modelled from the spec: what the specification grants about a
    contribution of a collaborator that is not part of the sources at hand
    ("No side effects beyond buffer append and registry update", the append
    going to the kernel preamble): the registry only grows, and the index,
    write-back and wrapper buffers are left as they are. *)
Definition extends (g g' : Generator) : Prop :=
  registry g ⊆ registry g'
  ∧ index_buffer g' = index_buffer g
  ∧ write_buffer g' = write_buffer g
  ∧ python_wrapper_before_buffer g' = python_wrapper_before_buffer g
  ∧ python_wrapper_after_buffer g' = python_wrapper_after_buffer g.

(** The net effect of a contribution on the buffers the streaming
    component writes, read off the generator's state: the lines it adds to the index, write-back and
    post-launch blocks. *)
Definition effect (index_lines write_lines after_lines : list string)
    (g g' : Generator) : Prop :=
  registry g ⊆ registry g'
  ∧ index_buffer g' = index_buffer g ++ index_lines
  ∧ write_buffer g' = write_buffer g ++ write_lines
  ∧ python_wrapper_after_buffer g' = python_wrapper_after_buffer g ++ after_lines.

(** Modelled from the spec: the collaborators' contributions (not part of
    the sources at hand) only extend the state in the sense of [extends]. *)
Definition contract {A} (p : Gen A) : Prop :=
  ∀ g a g', p g = Ok (a, g') → extends g g'.

(** Modelled from the spec: [Lattice.get_lattice_coordinate] (not part of
    the sources at hand) moreover returns a text that depends on the
    coordinate names only. *)
Definition coordinate_contract (p : list string → Gen string)
    (text : list string → string) : Prop :=
  ∀ names g a g', p names g = Ok (a, g') → a = text names ∧ extends g g'.

(** Modelled from the spec: what [Generator.generate] (not part of the
    sources at hand) returns, "a mapping from buffer name to accumulated
    source text". *)
Definition buffers (g : Generator) : list (string * list string) :=
  [("hook_buffer", hook_buffer g);
   ("index_buffer", index_buffer g);
   ("write_buffer", write_buffer g);
   ("python_wrapper_before_buffer", python_wrapper_before_buffer g);
   ("python_wrapper_after_buffer", python_wrapper_after_buffer g)]%string.

End Generator.


(** ** [lettuce/native_generator/_streaming.py] *)

Module Streaming.
Import Generator.
Local Open Scope gen_scope.

(** The two members of the [NativeStreaming] family. *)
Inductive NativeStreaming : Type :=
  | NativeNoStreaming
  | NativeStandardStreaming (support_no_streaming_mask : bool).

Definition support_no_streaming_mask (self : NativeStreaming) : bool :=
  match self with
  | NativeNoStreaming => false
  | NativeStandardStreaming m => m
  end.

Definition _name (self : NativeStreaming) : string :=
  match self with
  | NativeNoStreaming => "no"
  | NativeStandardStreaming _ => "standard"
  end.

Definition name (self : NativeStreaming) : string :=
  let mask_name := if support_no_streaming_mask self then "M" else "" in
  _name self +:+ mask_name.

Definition NativeNoStreaming_create (support_no_streaming_mask : bool)
  : NativeStreaming := NativeNoStreaming.

Definition NativeStandardStreaming_create (support_no_streaming_mask : bool)
  : NativeStreaming := NativeStandardStreaming support_no_streaming_mask.

(** [NativeStreaming.generate_no_stream_mask] *)
Definition generate_no_stream_mask : Gen unit :=
  h <- launcher_hooked "no_stream_mask" ;;
  when (negb h) (
    append_python_wrapper_before_buffer
      "assert hasattr(simulation.streaming, 'no_stream_mask')" ;;
    launcher_hook "no_stream_mask" "const at::Tensor no_stream_mask"
                  "no_stream_mask" "simulation.streaming.no_stream_mask") ;;
  h <- kernel_hooked "no_stream_mask" ;;
  when (negb h) (
    kernel_hook "no_stream_mask" "const byte_t* no_stream_mask"
                "no_stream_mask.data<byte_t>()").

(** [NativeStandardStreaming.generate_f_next] *)
Definition generate_f_next : Gen unit :=
  r <- registered "f_next" ;;
  when (negb r) (
    register "f_next" ;;

    append_python_wrapper_after_buffer
      "simulation.f, simulation.f_next = simulation.f_next, simulation.f" ;;

    (* generate code *)
    h <- launcher_hooked "f_next" ;;
    when (negb h) (
      append_python_wrapper_before_buffer "assert hasattr(simulation, 'f_next')" ;;
      launcher_hook "f_next" "at::Tensor f_next" "f_next" "simulation.f_next") ;;
    h <- kernel_hooked "f_next" ;;
    when (negb h) (
      kernel_hook "f_next" "scalar_t *f_next" "f_next.data<scalar_t>()")).

Section Collaborators.

(** What the streaming component reaches through the generator:
    [generator.stencil.stencil.D()], the primitive generators of
    [generator.stencil] and [generator.cuda], and
    [generator.lattice.get_lattice_coordinate], which is handed the
    generator and the names of the coordinate expressions and returns the
    text of the flattened offset.  None of them is part of the sources at
    hand; the component is parametric in them. *)
Variable d : nat.
Variable stencil_generate_q : Gen unit.
Variable stencil_generate_d : Gen unit.
Variable stencil_generate_e : Gen unit.
Variable cuda_generate_offset : Gen unit.
Variable cuda_generate_index : Gen unit.
Variable cuda_generate_dimension : Gen unit.
Variable lattice_get_lattice_coordinate : list string → Gen string.

(** [NativeNoStreaming.generate_read_write] *)
Definition NativeNoStreaming_generate_read_write : Gen unit :=
  r <- registered "read_write()" ;;
  when (negb r) (
    register "read_write()" ;;

    (* dependencies: *)
    stencil_generate_q ;;
    stencil_generate_d ;;
    cuda_generate_offset ;;

    coord <- lattice_get_lattice_coordinate (take (S d) ["q_"; "x_"; "y_"; "z_"]) ;;

    (* read *)
    append_index_buffer "                                          " true ;;
    append_index_buffer "    scalar_t f_reg[q];                    " true ;;
    append_index_buffer "                                          " true ;;
    append_index_buffer "#pragma unroll                            " true ;;
    append_index_buffer "    for (index_t i = 0; i < q; ++i) {    " true ;;
    append_index_buffer "                                          " true ;;
    append_index_buffer "      const index_t q_ = i;               " true ;;
    append_index_buffer "      const index_t x_ = index[0];        " (0 <? d) ;;
    append_index_buffer "      const index_t y_ = index[1];        " (1 <? d) ;;
    append_index_buffer "      const index_t z_ = index[2];        " (2 <? d) ;;
    append_index_buffer "                                          " true ;;
    append_index_buffer ("      f_reg[i] = f[" +:+ coord +:+ "];              ") true ;;
    append_index_buffer "    }                                    " true ;;
    append_index_buffer "                                          " true ;;

    (* write *)
    append_write_buffer "                                          " true ;;
    append_write_buffer "#pragma unroll                            " true ;;
    append_write_buffer "    for (index_t i = 0; i < q; ++i) {    " true ;;
    append_write_buffer "                                          " true ;;
    append_write_buffer "      const index_t q_ = i;               " true ;;
    append_write_buffer "      const index_t x_ = index[0];        " (0 <? d) ;;
    append_write_buffer "      const index_t y_ = index[1];        " (1 <? d) ;;
    append_write_buffer "      const index_t z_ = index[2];        " (2 <? d) ;;
    append_write_buffer "                                          " true ;;
    append_write_buffer ("      f[" +:+ coord +:+ "] = f_reg[i];              ") true ;;
    append_write_buffer "    }                                    " true ;;
    append_write_buffer "                                          " true).

(** [NativeStandardStreaming.generate_read_write] *)
Definition NativeStandardStreaming_generate_read_write
    (support_no_streaming_mask : bool) : Gen unit :=
  r <- registered "read_write()" ;;
  when (negb r) (
    register "read_write()" ;;

    (* dependencies: *)

    when support_no_streaming_mask generate_no_stream_mask ;;

    generate_f_next ;;
    cuda_generate_offset ;;
    cuda_generate_index ;;
    cuda_generate_dimension ;;
    stencil_generate_q ;;
    stencil_generate_e ;;

    coord <- lattice_get_lattice_coordinate (take (S d) ["q_"; "x_"; "y_"; "z_"]) ;;
    mask_coord <- lattice_get_lattice_coordinate
                    (take d ["index[0]"; "index[1]"; "index[2]"]) ;;

    (* read *)
    append_index_buffer "                                      " true ;;
    append_index_buffer "  scalar_t f_reg[q];                  " true ;;
    append_index_buffer "                                      " true ;;
    append_index_buffer "#pragma unroll                        " true ;;
    append_index_buffer "  for (index_t i = 0; i < q; ++i) {  " true ;;
    append_index_buffer "                                      " true ;;
    append_index_buffer "    const index_t q_ = i;             " true ;;
    append_index_buffer "    const index_t x_ = index[0];      " (0 <? d) ;;
    append_index_buffer "    const index_t y_ = index[1];      " (1 <? d) ;;
    append_index_buffer "    const index_t z_ = index[2];      " (2 <? d) ;;
    append_index_buffer "                                      " true ;;
    append_index_buffer ("    f_reg[i] = f[" +:+ coord +:+ "];            ") true ;;
    append_index_buffer "  }                                  " true ;;
    append_index_buffer "                                      " true ;;

    (* write *)
    append_write_buffer "                                                         " true ;;
    append_write_buffer "#pragma unroll                                           " true ;;
    append_write_buffer "  for (index_t i = 0; i < q; ++i) {                     " true ;;
    append_write_buffer "                                                         " true ;;
    append_write_buffer "    const index_t q_ = i;                                " true ;;
    append_write_buffer "                                                         " support_no_streaming_mask ;;
    append_write_buffer ("    if (no_stream_mask[" +:+ mask_coord +:+ "]) {                 ") support_no_streaming_mask ;;
    append_write_buffer "                                                         " support_no_streaming_mask ;;
    append_write_buffer "      const index_t x_ = index[0];                       " (support_no_streaming_mask && (0 <? d)) ;;
    append_write_buffer "      const index_t y_ = index[1];                       " (support_no_streaming_mask && (1 <? d)) ;;
    append_write_buffer "      const index_t z_ = index[2];                       " (support_no_streaming_mask && (2 <? d)) ;;
    append_write_buffer "                                                         " support_no_streaming_mask ;;
    append_write_buffer ("      f_next[" +:+ coord +:+ "] = f_reg[i];                        ") support_no_streaming_mask ;;
    append_write_buffer "                                                         " support_no_streaming_mask ;;
    append_write_buffer "    } else {                                           " support_no_streaming_mask ;;
    append_write_buffer "                                                         " true ;;
    append_write_buffer "      index_t x_ = index[0] + e[i][0];                   " (0 <? d) ;;
    append_write_buffer "            if (x_ <  0)            x_ += dimension[0];  " (0 <? d) ;;
    append_write_buffer "       else if (x_ >= dimension[0]) x_ -= dimension[0];  " (0 <? d) ;;
    append_write_buffer "                                                         " (0 <? d) ;;
    append_write_buffer "      index_t y_ = index[1] + e[i][1];                   " (1 <? d) ;;
    append_write_buffer "            if (y_ <  0)            y_ += dimension[1];  " (1 <? d) ;;
    append_write_buffer "       else if (y_ >= dimension[1]) y_ -= dimension[1];  " (1 <? d) ;;
    append_write_buffer "                                                         " (1 <? d) ;;
    append_write_buffer "      index_t z_ = index[2] + e[i][2];                   " (2 <? d) ;;
    append_write_buffer "            if (z_ <  0)            z_ += dimension[2];  " (2 <? d) ;;
    append_write_buffer "       else if (z_ >= dimension[2]) z_ -= dimension[2];  " (2 <? d) ;;
    append_write_buffer "                                                         " (2 <? d) ;;
    append_write_buffer ("      f_next[" +:+ coord +:+ "] = f_reg[i];                        ") true ;;
    append_write_buffer "                                                         " true ;;
    append_write_buffer "    }                                                   " support_no_streaming_mask ;;
    append_write_buffer "  }                                                     " true ;;
    append_write_buffer "                                                         " true).

Definition generate_read_write (self : NativeStreaming) : Gen unit :=
  match self with
  | NativeNoStreaming => NativeNoStreaming_generate_read_write
  | NativeStandardStreaming m => NativeStandardStreaming_generate_read_write m
  end.

End Collaborators.

End Streaming.

(** ** The kernel fragment emitted by the streaming component *)

Module Kernel.

(** The lines appended to the index and write-back buffers are statements
    of the generated per-cell kernel.  They are given a syntax tree here, a
    printer back to text (which ties the tree to the emitted lines) and an
    executable semantics.

    [index_t] values are modelled by [Z] (the type's declaration sits in a
    template that is not part of the sources at hand; the comparison
    [x_ < 0] presupposes a signed type, and no overflow is modelled).  The
    distribution buffers are indexed by the coordinate tuple that
    [get_lattice_coordinate] flattens: the direction first, then one entry
    per spatial axis. *)

Inductive expr : Type :=
  | EVar (x : string)                 (* a local, e.g. [x_], [q_], [i] *)
  | EConst (z : Z)
  | EIndex (k : nat)                  (* [index[k]] *)
  | EDimension (k : nat)              (* [dimension[k]] *)
  | EE (i : string) (k : nat)         (* [e[i][k]] *)
  | EAdd (a b : expr).

Inductive cond : Type :=
  | CLt (a b : expr)
  | CGe (a b : expr)
  | CMask (coord : list expr).        (* [no_stream_mask[coord]] *)

Inductive assign_op : Type := OpAdd | OpSub.

Inductive stmt : Type :=
  | SSkip
  | SSeq (s1 s2 : stmt)
  | SPragma (p : string)                              (* [#pragma p] *)
  | SDeclRegs                                         (* [scalar_t f_reg[q];] *)
  | SDecl (const : bool) (x : string) (a : expr)      (* [[const] index_t x = a;] *)
  | SAssign (op : assign_op) (x : string) (a : expr)  (* [x += a;], [x -= a;] *)
  | SIf (c : cond) (s1 s2 : stmt)                     (* [if (c) s1 else s2], no braces *)
  | SIfBlock (c : cond) (s1 s2 : stmt)                (* [if (c) { s1 } else { s2 }] *)
  | SFor (i : string) (body : stmt)                   (* [for (index_t i = 0; i < q; ++i) { body }] *)
  | SLoad (r : string) (arr : string) (coord : list expr)   (* [f_reg[r] = arr[coord];] *)
  | SStore (arr : string) (coord : list expr) (r : string). (* [arr[coord] = f_reg[r];] *)

Definition seq_stmts (l : list stmt) : stmt := foldr SSeq SSkip l.

(** *** Printer *)

Fixpoint print_expr (a : expr) : string :=
  match a with
  | EVar x => x
  | EConst z => pretty z
  | EIndex k => "index[" +:+ pretty k +:+ "]"
  | EDimension k => "dimension[" +:+ pretty k +:+ "]"
  | EE i k => "e[" +:+ i +:+ "][" +:+ pretty k +:+ "]"
  | EAdd a b => print_expr a +:+ " + " +:+ print_expr b
  end.

Section Printer.

(** The text [get_lattice_coordinate] returns for a list of coordinate
    expressions. *)
Variable coordinate_text : list string → string.

Definition print_cond (c : cond) : string :=
  match c with
  | CLt a b => print_expr a +:+ " < " +:+ print_expr b
  | CGe a b => print_expr a +:+ " >= " +:+ print_expr b
  | CMask coord => "no_stream_mask[" +:+ coordinate_text (print_expr <$> coord) +:+ "]"
  end.

Fixpoint print_stmt (s : stmt) : list string :=
  match s with
  | SSkip => []
  | SSeq s1 s2 => print_stmt s1 ++ print_stmt s2
  | SPragma p => ["#pragma " +:+ p]
  | SDeclRegs => ["scalar_t f_reg[q];"]
  | SDecl const x a =>
      [(if const then "const " else "") +:+ "index_t " +:+ x +:+ " = "
       +:+ print_expr a +:+ ";"]
  | SAssign op x a =>
      [x +:+ (match op with OpAdd => " += " | OpSub => " -= " end)
       +:+ print_expr a +:+ ";"]
  | SIf c s1 s2 =>
      ("if (" +:+ print_cond c +:+ ") " +:+ String.concat " " (print_stmt s1))
      :: match print_stmt s2 with
         | [] => []
         | l :: ls => ("else " +:+ l) :: ls
         end
  | SIfBlock c s1 s2 =>
      ["if (" +:+ print_cond c +:+ ") {"] ++ print_stmt s1
      ++ ["} else {"] ++ print_stmt s2 ++ ["}"]
  | SFor i body =>
      ["for (index_t " +:+ i +:+ " = 0; " +:+ i +:+ " < q; ++" +:+ i +:+ ") {"]
      ++ print_stmt body ++ ["}"]
  | SLoad r arr coord =>
      ["f_reg[" +:+ r +:+ "] = " +:+ arr +:+ "["
       +:+ coordinate_text (print_expr <$> coord) +:+ "];"]
  | SStore arr coord r =>
      [arr +:+ "[" +:+ coordinate_text (print_expr <$> coord) +:+ "] = f_reg["
       +:+ r +:+ "];"]
  end.

End Printer.

(** Text is compared up to blanks: a line with its spaces removed, and a
    buffer with its blank lines dropped. *)
Fixpoint strip_spaces (s : string) : string :=
  match s with
  | EmptyString => EmptyString
  | String c s' =>
      if Ascii.eqb c (Ascii.ascii_of_nat 32) then strip_spaces s' else String c (strip_spaces s')
  end.

Definition squeeze (buffer : list string) : list string :=
  filter (λ l, l ≠ EmptyString) (strip_spaces <$> buffer).

(** *** The emitted fragments as syntax trees *)

Definition axis_var (k : nat) : string :=
  match k with
  | 0 => "x_"
  | 1 => "y_"
  | _ => "z_"
  end%nat.

(** The spatial axes the generator emits code for ([d > 0], [d > 1],
    [d > 2]). *)
Definition axes (d : nat) : list nat := seq 0 (d `min` 3).

(** [coord]: the names [['q_', 'x_', 'y_', 'z_'][:d + 1]]. *)
Definition coord_exprs (d : nat) : list expr :=
  EVar "q_" :: (EVar ∘ axis_var <$> axes d).

(** [mask_coord]: the names [['index[0]', 'index[1]', 'index[2]'][:d]]. *)
Definition mask_coord_exprs (d : nat) : list expr := EIndex <$> axes d.

(** [const index_t x_ = index[0];] and so on: the cell's own coordinate. *)
Definition own_cell (d : nat) : stmt :=
  seq_stmts ((λ k, SDecl true (axis_var k) (EIndex k)) <$> axes d).

(** The neighbour along one axis, with periodic wraparound. *)
Definition neighbour_axis (k : nat) : stmt :=
  let x := axis_var k in
  SSeq (SDecl false x (EAdd (EIndex k) (EE "i" k)))
       (SIf (CLt (EVar x) (EConst 0))
            (SAssign OpAdd x (EDimension k))
            (SIf (CGe (EVar x) (EDimension k))
                 (SAssign OpSub x (EDimension k))
                 SSkip)).

Definition neighbour_cell (d : nat) : stmt :=
  seq_stmts (neighbour_axis <$> axes d).

(** The read block (index buffer) of both streaming variants. *)
Definition read_block (d : nat) : stmt :=
  seq_stmts
    [SDeclRegs;
     SPragma "unroll";
     SFor "i" (seq_stmts
       [SDecl true "q_" (EVar "i");
        own_cell d;
        SLoad "i" "f" (coord_exprs d)])].

(** The write-back block of [NativeNoStreaming]. *)
Definition no_streaming_write_block (d : nat) : stmt :=
  seq_stmts
    [SPragma "unroll";
     SFor "i" (seq_stmts
       [SDecl true "q_" (EVar "i");
        own_cell d;
        SStore "f" (coord_exprs d) "i"])].

(** The write-back block of [NativeStandardStreaming]. *)
Definition stream_to_neighbour (d : nat) : stmt :=
  SSeq (neighbour_cell d) (SStore "f_next" (coord_exprs d) "i").

Definition standard_write_block (support_no_streaming_mask : bool) (d : nat)
  : stmt :=
  seq_stmts
    [SPragma "unroll";
     SFor "i" (seq_stmts
       [SDecl true "q_" (EVar "i");
        if support_no_streaming_mask
        then SIfBlock (CMask (mask_coord_exprs d))
               (SSeq (own_cell d) (SStore "f_next" (coord_exprs d) "i"))
               (stream_to_neighbour d)
        else stream_to_neighbour d])].

(** *** Semantics *)

Section Semantics.

(** The scalar type of the populations. *)
Variable V : Type.

(** What a kernel thread is launched with: the stencil constants [q] and
    [e], the grid extents [dimension], the coordinate [index] of its cell
    and the optional mask. *)
Record launch : Type := {
  q : nat;
  e : list (list Z);
  dimension : list Z;
  index : list Z;
  no_stream_mask : gmap (list Z) bool
}.

(** The thread's state: its locals in scope, the register array once it is
    declared, and the global buffers (an absent key is out of bounds). *)
Record state : Type := {
  vars : gmap string Z;
  f_reg : option (list (option V));
  mem : gmap (string * list Z) V
}.

Variable K : launch.

Fixpoint eval (vs : gmap string Z) (a : expr) : option Z :=
  match a with
  | EVar x => vs !! x
  | EConst z => Some z
  | EIndex k => index K !! k
  | EDimension k => dimension K !! k
  | EE i k =>
      iv ← vs !! i;
      if decide (0 ≤ iv)%Z then row ← e K !! Z.to_nat iv; row !! k else None
  | EAdd a b => x ← eval vs a; y ← eval vs b; Some (x + y)%Z
  end.

Definition eval_cond (vs : gmap string Z) (c : cond) : option bool :=
  match c with
  | CLt a b => x ← eval vs a; y ← eval vs b; Some (bool_decide (x < y)%Z)
  | CGe a b => x ← eval vs a; y ← eval vs b; Some (bool_decide (x >= y)%Z)
  | CMask coord => cv ← mapM (eval vs) coord; no_stream_mask K !! cv
  end.

(** Leaving a block drops the locals it declared and keeps the updates
    to those of the enclosing scope (declarations never shadow: see
    [SDecl] below). *)
Definition leave_scope (outer : gmap string Z) (st : state) : state :=
  {| vars := filter (λ kv, kv.1 ∈ dom outer) (vars st);
     f_reg := f_reg st;
     mem := mem st |}.

Definition reg_index (vs : gmap string Z) (r : string) : option nat :=
  iv ← vs !! r; if decide (0 ≤ iv)%Z then Some (Z.to_nat iv) else None.

Fixpoint exec (s : stmt) (st : state) : option state :=
  match s with
  | SSkip => Some st
  | SSeq s1 s2 => st' ← exec s1 st; exec s2 st'
  | SPragma _ => Some st
  | SDeclRegs =>
      match f_reg st with
      | Some _ => None
      | None => Some {| vars := vars st;
                        f_reg := Some (replicate (q K) None);
                        mem := mem st |}
      end
  | SDecl _ x a =>
      v ← eval (vars st) a;
      match vars st !! x with
      | Some _ => None            (* redeclaration or shadowing: not modelled *)
      | None => Some {| vars := <[x := v]> (vars st);
                        f_reg := f_reg st;
                        mem := mem st |}
      end
  | SAssign op x a =>
      old ← vars st !! x;
      v ← eval (vars st) a;
      Some {| vars := <[x := match op with
                             | OpAdd => (old + v)%Z
                             | OpSub => (old - v)%Z
                             end]> (vars st);
              f_reg := f_reg st;
              mem := mem st |}
  | SIf c s1 s2 | SIfBlock c s1 s2 =>
      b ← eval_cond (vars st) c;
      st' ← (if b : bool then exec s1 st else exec s2 st);
      Some (leave_scope (vars st) st')
  | SFor i body =>
      foldl (λ acc k,
               st ← acc;
               match vars st !! i with
               | Some _ => None
               | None =>
                   st' ← exec body {| vars := <[i := Z.of_nat k]> (vars st);
                                      f_reg := f_reg st;
                                      mem := mem st |};
                   (* the body leaves the loop variable alone *)
                   if decide (vars st' !! i = Some (Z.of_nat k))
                   then Some (leave_scope (vars st) st')
                   else None
               end)
            (Some st) (seq 0 (q K))
  | SLoad r arr coord =>
      regs ← f_reg st;
      ri ← reg_index (vars st) r;
      cv ← mapM (eval (vars st)) coord;
      v ← mem st !! (arr, cv);
      if decide (ri < length regs)%nat
      then Some {| vars := vars st;
                   f_reg := Some (<[ri := Some v]> regs);
                   mem := mem st |}
      else None
  | SStore arr coord r =>
      regs ← f_reg st;
      ri ← reg_index (vars st) r;
      cv ← mapM (eval (vars st)) coord;
      v ← mjoin (regs !! ri);
      if decide (is_Some (mem st !! (arr, cv)))
      then Some {| vars := vars st;
                   f_reg := f_reg st;
                   mem := <[(arr, cv) := v]> (mem st) |}
      else None
  end.

End Semantics.

Arguments vars {V} _.
Arguments f_reg {V} _.
Arguments mem {V} _.
Arguments leave_scope {V} _ _.
Arguments exec {V} _ _ _.

(** A launch for a stencil of dimension [d] (1 to 3, the dimensions the
    generator emits code for): the cell coordinate, the extents and every
    stencil velocity have [d] components, and [e] has [q] rows. *)
Definition well_formed (d : nat) (K : launch) : Prop :=
  d ≤ 3
  ∧ length (index K) = d
  ∧ length (dimension K) = d
  ∧ length (e K) = q K
  ∧ Forall (λ row, length row = d) (e K).

(** The names the emitted blocks declare are not in scope where the blocks
    start. *)
Definition fresh_locals (vs : gmap string Z) : Prop :=
  Forall (λ x, vs !! x = None) ["i"; "q_"; "x_"; "y_"; "z_"]%string.

(** *** The streaming rule in the words of the specification *)

(** "if coordinate < 0: += extent; elif coordinate >= extent: -= extent". *)
Definition wraparound (coordinate extent : Z) : Z :=
  if decide (coordinate < 0)%Z then (coordinate + extent)%Z
  else if decide (coordinate >= extent)%Z then (coordinate - extent)%Z
  else coordinate.

(** "computes each neighbor coordinate by adding the direction vector and
    applying periodic wraparound ... per spatial axis independently". *)
Definition neighbour_spec (cell direction extent : list Z) : list Z :=
  zip_with (λ c_e n, wraparound (c_e.1 + c_e.2) n) (zip cell direction) extent.

(** Where the write-back of standard streaming stores direction [i]: the
    thread's own cell when the mask is supported and set there, the
    neighbour along the stencil velocity [e[i]] otherwise. *)
Definition target (K : launch) (support_no_streaming_mask : bool) (i : nat)
  : list Z :=
  if support_no_streaming_mask && default false (no_stream_mask K !! index K)
  then index K
  else neighbour_spec (index K) (default [] (e K !! i)) (dimension K).

End Kernel.

(** ** The orchestrator's [generate()] *)

Module Orchestrator.
Import Generator Streaming.
Local Open Scope gen_scope.

Section Configuration.

(** The contributions of the configured components, streaming among
    them, are parameters of the orchestrator. *)
Variable stencil_primitives : Gen unit.
Variable equilibrium : Gen unit.
Variable collision : Gen unit.
Variable boundaries : list (Gen unit).
Variable streaming : Gen unit.

(** Modelled from the spec: the body of [Generator.generate], which is not
    part of the sources at hand, "invokes, in fixed dependency order (stencil
    primitives, equilibrium, collision, boundaries, streaming), each
    configured component's top-level contribution entry point". *)
Definition contributions : Gen unit :=
  stencil_primitives ;;
  equilibrium ;;
  collision ;;
  foldr (λ b k, b ;; k) (ret tt) boundaries ;;
  streaming.

(** Modelled from the spec: [Generator.generate] is not part of the sources
    at hand.  It "resets all buffers and the FragmentKey registry", runs the
    contributions and returns the buffers; the state it is called in plays
    no part. *)
Definition generate : Gen (list (string * list string)) :=
  λ _, match contributions reset with
       | Ok (_, g) => Ok (buffers g, g)
       | Raise x => Raise x
       end.

End Configuration.

End Orchestrator.

(** ** The host-side wrapper statements *)

Module Wrapper.

(** The post-launch block holds Python statements over attributes of the
    [simulation] object.  An attribute holds a reference to a tensor object;
    the tensors themselves live in a heap the statements below never
    touch. *)
Inductive attribute : Type := Attr (object name : string).

Inductive py_stmt : Type :=
  | TupleAssign (targets values : list attribute).   (* [t1, t2 = v1, v2] *)

Definition print_attribute (a : attribute) : string :=
  match a with Attr o n => o +:+ "." +:+ n end.

Definition print_py (s : py_stmt) : string :=
  match s with
  | TupleAssign ts vs =>
      String.concat ", " (print_attribute <$> ts) +:+ " = "
      +:+ String.concat ", " (print_attribute <$> vs)
  end.

(** The attributes of the objects in scope, each holding a reference. *)
Abbreviation attributes ref := (gmap (string * string) ref).

Section Objects.

(** References to tensor objects. *)
Variable ref : Type.

Definition key (a : attribute) : string * string :=
  match a with Attr o n => (o, n) end.

(** A tuple assignment evaluates its whole right-hand side to references
    first and then binds the targets from left to right. *)
Definition exec_py (s : py_stmt) (env : attributes ref)
  : option (attributes ref) :=
  match s with
  | TupleAssign ts vs =>
      rs ← mapM (λ a, env !! key a) vs;
      if decide (length ts = length rs)
      then Some (foldl (λ acc tr, <[key tr.1 := tr.2]> acc) env (zip ts rs))
      else None
  end.

(** Modelled from the spec: the wrapper template is not part of the sources
    at hand.  The post-launch statements are "textual snippets inserted
    verbatim ... after the launcher call": one step of the wrapper launches
    the kernel on the heap and then runs the post-launch block. *)
Definition wrapper_step {heap : Type}
    (launch : attributes ref → heap → heap) (after : list py_stmt)
    (env : attributes ref) (h : heap) : option (attributes ref * heap) :=
  env' ← foldl (λ acc s, a ← acc; exec_py s a) (Some env) after;
  Some (env', launch env h).

End Objects.

(** [simulation.f, simulation.f_next = simulation.f_next, simulation.f] *)
Definition swap : py_stmt :=
  TupleAssign [Attr "simulation" "f"; Attr "simulation" "f_next"]
              [Attr "simulation" "f_next"; Attr "simulation" "f"].

End Wrapper.

(** ** A sample configuration *)

Module Sample.
Import Generator Streaming.
Local Open Scope gen_scope.

(** The definitions of this module are sample data: stand-ins for the
    collaborators that are not part of the sources at hand, used to run the
    generator on the D2Q9 configuration of
    [examples/manually_generate_cuda_native.py], and concrete grids and
    tensors to run the embedded functions on. *)

(** Modelled from the spec: a stand-in for [Stencil.generate_q] (not part of
    the sources at hand); it registers its key and appends one definition to
    the kernel preamble. *)
Definition generate_q : Gen unit := primitive "q" "constexpr index_t q = 9;".

(** Modelled from the spec: a stand-in for [Stencil.generate_d] (not part of
    the sources at hand). *)
Definition generate_d : Gen unit := primitive "d" "constexpr index_t d = 2;".

(** Modelled from the spec: a stand-in for [Stencil.generate_e] (not part of
    the sources at hand). *)
Definition generate_e : Gen unit := primitive "e" "constexpr index_t e[q][d] = {...};".

(** Modelled from the spec: a stand-in for the kernel side's
    [generate_offset] (not part of the sources at hand). *)
Definition generate_offset : Gen unit := primitive "offset" "#define offset(...)".

(** Modelled from the spec: a stand-in for the kernel side's
    [generate_index] (not part of the sources at hand). *)
Definition generate_index : Gen unit := primitive "index" "const index_t index[d] = {...};".

(** Modelled from the spec: a stand-in for the kernel side's
    [generate_dimension] (not part of the sources at hand). *)
Definition generate_dimension : Gen unit :=
  primitive "dimension" "const index_t dimension[d] = {...};".

(** Modelled from the spec: a stand-in for the text
    [Lattice.get_lattice_coordinate] (not part of the sources at hand)
    returns; it names the offset primitive. *)
Definition coordinate_text (names : list string) : string :=
  "offset(" +:+ String.concat ", " names +:+ ")".

(** Modelled from the spec: a stand-in for [Lattice.get_lattice_coordinate]
    (not part of the sources at hand). *)
Definition get_lattice_coordinate (names : list string) : Gen string :=
  ret (coordinate_text names).

(** [NativeStandardStreaming.generate_read_write] on the D2Q9 stand-ins. *)
Definition standard_generate_read_write (support_no_streaming_mask : bool)
  : Gen unit :=
  NativeStandardStreaming_generate_read_write 2
    generate_q generate_e generate_offset generate_index generate_dimension
    get_lattice_coordinate support_no_streaming_mask.

(** [NativeNoStreaming.generate_read_write] on the D2Q9 stand-ins. *)
Definition no_streaming_generate_read_write : Gen unit :=
  NativeNoStreaming_generate_read_write 2
    generate_q generate_d generate_offset get_lattice_coordinate.

(** A 3 x 2 periodic D2Q9 grid: a buffer holding the value [v c] at every
    coordinate [c = [i; x; y]]. *)
Definition grid (arr : string) (v : list Z → Z) : gmap (string * list Z) Z :=
  list_to_map (
    i ← seq 0 9; x ← seq 0 3; y ← seq 0 2;
    let c := [Z.of_nat i; Z.of_nat x; Z.of_nat y] in [((arr, c), v c)]).

Definition population (c : list Z) : Z :=
  match c with
  | [i; x; y] => 100 * i + 10 * x + y
  | _ => 0
  end%Z.

Definition memory : gmap (string * list Z) Z :=
  grid "f" population ∪ grid "f_next" (λ _, (-1)%Z).

Definition thread (cell : list Z) (masked : list (list Z)) : Kernel.launch := {|
  Kernel.q := 9;
  Kernel.e := Stencils.e Stencils.D2Q9;
  Kernel.dimension := [3; 2]%Z;
  Kernel.index := cell;
  Kernel.no_stream_mask :=
    list_to_map (x ← seq 0 3; y ← seq 0 2;
                 let c := [Z.of_nat x; Z.of_nat y] in
                 [(c, bool_decide (c ∈ masked))])
|}.

(** A distribution tensor over two cells, the first of them masked. *)
Definition f_tensor : list (list Q) :=
  (λ i, [inject_Z (Z.of_nat i); inject_Z (Z.of_nat i + 10)]) <$> seq 0 9.

Definition bounce_back : Boundary.BounceBackBoundary :=
  {| Boundary.bb_mask := [true; false]; Boundary.bb_lattice := Stencils.D2Q9 |}.

Definition equilibrium_pu : Boundary.EquilibriumBoundaryPU :=
  {| Boundary.eq_mask := [true; false];
     Boundary.velocity := [1 # 10; 0]%Q;
     Boundary.pressure := 0%Q |}.

(** The populations of the cell (2, 1), as the read block leaves them in
    the registers. *)
Definition registers : list Z :=
  (λ i, population [Z.of_nat i; 2; 1]%Z) <$> seq 0 9.

Definition start : Kernel.state Z :=
  {| Kernel.vars := ∅; Kernel.f_reg := None; Kernel.mem := memory |}.

(** Modelled from the spec: a stand-in for [Flow.rho] on D2Q9 (the flow
    classes are not part of the sources at hand): the density is the sum of
    the populations. *)
Definition flow_rho (f : list Q) : Q := foldr Qplus 0%Q f.

(** Modelled from the spec: a stand-in for [Flow.equilibrium] (not part of
    the sources at hand) that spreads the density by the stencil weights. *)
Definition flow_equilibrium (rho : Q) (u : list Q) : list Q :=
  (λ wi, rho * wi)%Q <$> Stencils.w Stencils.D2Q9.

End Sample.

(** ** Sequencing of computations that may raise *)

Module Raising.

Definition bind {A B} (m : result A) (k : A → result B) : result B :=
  match m with
  | Ok a => k a
  | Raise x => Raise x
  end.

(** Evaluates the computations from left to right; the first exception
    wins. *)
Fixpoint collect {A} (l : list (result A)) : result (list A) :=
  match l with
  | [] => Ok []
  | m :: l' => bind m (λ a, bind (collect l') (λ rest, Ok (a :: rest)))
  end.

Declare Scope raising_scope.
Delimit Scope raising_scope with raising.
Notation "x <- m ;; k" := (bind m (λ x, k))
  (at level 100, m at next level, k at level 200, right associativity) : raising_scope.

End Raising.

(** ** [lettuce/moments.py]: [Transform.__getitem__] on a name or a tuple *)

Module MomentKey.
Import Moments.

(** The subscript of [Transform.__getitem__]: one moment name, as in
    [moments["rho"]], or a tuple of names, as in [moments["jx", "jy"]]. *)
Inductive moment_key : Type :=
  | Name (name : string)
  | Names (moment_names : list string).

(** [if not isinstance(moment_names, tuple): moment_names = [moment_names]] *)
Definition key_names (k : moment_key) : list string :=
  match k with
  | Name n => [n]
  | Names ns => ns
  end.

(** [Transform.__getitem__] *)
Definition getitem_key (T : Transform) (k : moment_key) : result (list nat) :=
  getitem_names (names T) (key_names k).

End MomentKey.

(** ** [lettuce/moments.py]: [moment_tensor] and [Moments] *)

Module MomentTensor.
Import Raising.
Local Open Scope raising_scope.
Local Open Scope Z_scope.

(** The branch of [moment_tensor] for numpy arrays, on integer arrays:
    [np.prod(np.power(e, multiindex[..., None, :]), axis=-1)].  The
    velocity table [e] has shape [Q, D] (a list of Q rows), the multi-index
    shape [D] or [N, D].  On tables and multi-indices with entries that are
    non-negative integers the branch for torch tensors computes the same
    products. *)

(** The multi-index argument, by its rank. *)
Inductive multiindex : Type :=
  | Index1 (mi : list Z)
  | Index2 (mis : list (list Z)).

(** The moment tensor returned: shape [Q] or [N, Q]. *)
Inductive moment : Type :=
  | Moment1 (m : list Z)
  | Moment2 (ms : list (list Z)).

(** numpy's broadcasting along the last axis: equal lengths pair up, an
    axis of length one is stretched, anything else is refused. *)
Definition broadcast_pairs (row mi : list Z) : result (list (Z * Z)) :=
  if decide (length row = length mi) then Ok (zip row mi)
  else match row, mi with
       | _, [n] => Ok ((λ x, (x, n)) <$> row)
       | [x], _ => Ok ((λ n, (x, n)) <$> mi)
       | _, _ => Raise (ValueError "operands could not be broadcast together")
       end.

(** [np.power] on integers: a negative exponent is refused. *)
Definition power (x n : Z) : result Z :=
  if decide (n < 0)
  then Raise (ValueError "Integers to negative integer powers are not allowed.")
  else Ok (x ^ n).

(** [np.prod] along an axis; the empty product is 1. *)
Definition prod (l : list Z) : Z := foldr Z.mul 1 l.

Definition moment_row (mi row : list Z) : result Z :=
  pairs <- broadcast_pairs row mi ;;
  powers <- collect ((λ p, power p.1 p.2) <$> pairs) ;;
  Ok (prod powers).

Definition moment_tensor_1 (e : list (list Z)) (mi : list Z) : result (list Z) :=
  collect (moment_row mi <$> e).

Definition moment_tensor_2 (e : list (list Z)) (mis : list (list Z))
  : result (list (list Z)) :=
  collect (moment_tensor_1 e <$> mis).

(** [moment_tensor(e, multiindex)] *)
Definition moment_tensor (e : list (list Z)) (multiindex : multiindex)
  : result moment :=
  match multiindex with
  | Index1 mi => m <- moment_tensor_1 e mi ;; Ok (Moment1 m)
  | Index2 mis => ms <- moment_tensor_2 e mis ;; Ok (Moment2 ms)
  end.

(** [np.zeros(D)] and [np.eye(D)]; their entries are 0 and 1. *)
Definition zeros (D : nat) : list Z := replicate D 0.

Definition eye (D : nat) : list (list Z) :=
  (λ i, (λ k, if decide (i = k) then 1 else 0) <$> seq 0 D) <$> seq 0 D.

(** The [Moments] object. *)
Record Moments : Type := {
  rho : moment;
  j : moment
}.

(** [Moments.__init__], which reads [lattice.e] and [lattice.D]. *)
Definition Moments_init (lattice_e : list (list Z)) (lattice_D : nat)
  : result Moments :=
  rho <- moment_tensor lattice_e (Index1 (zeros lattice_D)) ;;
  j <- moment_tensor lattice_e (Index2 (eye lattice_D)) ;;
  Ok {| rho := rho; j := j |}.

End MomentTensor.

(** ** [lettuce/moments.py]: the hand-written moment equilibria *)

Module MomentEquilibria.
Import Raising.
Local Open Scope raising_scope.
Local Open Scope Q_scope.

(** The equilibria act on a moment tensor of shape [9, ...grid], cell by
    cell; as for the transforms, the model is written for one cell: [m] is
    the vector of the moments there. *)

(** A division by a zero density does not raise in torch: it leaves
    infinite or undefined entries, which have no rational counterpart. *)
Inductive moments : Type :=
  | Finite (m : list Q)
  | NotFinite.

(** [m[i]] *)
Definition item (m : list Q) (i : nat) : result Q :=
  match m !! i with
  | Some x => Ok x
  | None => Raise IndexError
  end.

(** [meq[i] = v] *)
Definition setitem (i : nat) (v : Q) (meq : list Q) : result (list Q) :=
  if decide (i < length meq)%nat then Ok (<[i := v]> meq) else Raise IndexError.

(** [torch.zeros_like(m)] *)
Definition zeros_like (m : list Q) : list Q := (λ _, 0) <$> m.

(** [D2Q9Dellar.equilibrium] *)
Definition D2Q9Dellar_equilibrium (m : list Q) : result moments :=
  let meq := zeros_like m in
  rho <- item m 0 ;;
  jx <- item m 1 ;;
  jy <- item m 2 ;;
  let Pi_xx := jx * jx / rho * 9 / 2 in
  let Pi_xy := jx * jy / rho * 9 in
  let Pi_yy := jy * jy / rho * 9 / 2 in
  meq <- setitem 0 rho meq ;;
  meq <- setitem 1 jx meq ;;
  meq <- setitem 2 jy meq ;;
  meq <- setitem 3 Pi_xx meq ;;
  meq <- setitem 4 Pi_xy meq ;;
  meq <- setitem 5 Pi_yy meq ;;
  Ok (if Qeq_bool rho 0 then NotFinite else Finite meq).

(** [D2Q9Lallemand.equilibrium] *)
Definition D2Q9Lallemand_equilibrium (m : list Q) : result (list Q) :=
  let meq := zeros_like m in
  rho <- item m 0 ;;
  jx <- item m 1 ;;
  jy <- item m 2 ;;
  let c1 := -2 in
  let alpha2 := -8 in
  let alpha3 := 4 in
  let gamma1 := 2 # 3 in
  let gamma2 := 18 in
  let gamma3 := 2 # 3 in
  let gamma4 := -18 in
  let e := (1 # 4) * alpha2 * rho + (1 # 6) * gamma2 * (jx ^ 2 + jy ^ 2) in
  let eps := (1 # 4) * alpha3 * rho + (1 # 6) * gamma4 * (jx ^ 2 + jy ^ 2) in
  let qx := (1 # 2) * c1 * jx in
  let qy := (1 # 2) * c1 * jy in
  let pxx := (1 # 2) * gamma1 * (jx ^ 2 - jy ^ 2) in
  let pxy := (1 # 2) * gamma3 * (jx * jy) in
  meq <- setitem 0 rho meq ;;
  meq <- setitem 1 jx meq ;;
  meq <- setitem 2 jy meq ;;
  meq <- setitem 3 pxx meq ;;
  meq <- setitem 4 pxy meq ;;
  meq <- setitem 5 e meq ;;
  meq <- setitem 6 qx meq ;;
  meq <- setitem 7 qy meq ;;
  meq <- setitem 8 eps meq ;;
  Ok meq.

(** The moments on which [tests/test_moments.py]
    ([test_moment_equilibrium_lallemand]) compares equilibria. *)
Definition same_moments : list string := ["rho"; "jx"; "jy"; "qx"; "qy"].

End MomentEquilibria.

(** ** [lettuce/moments.py]: [get_default_moment_transform] *)

Module DefaultTransform.
Import Stencils Moments.

(** Stencils are compared by their data. *)
#[export] Instance Q_eq_dec : EqDecision Q := ltac:(solve_decision).

#[export] Instance Stencil_eq_dec : EqDecision Stencil := ltac:(solve_decision).

(** The function returns a transform or raises [LettuceException]. *)
Inductive outcome : Type :=
  | Returns (T : Transform)
  | LettuceException (msg : string).

(** [get_default_moment_transform]; [lattice_repr] is the text the f-string
    prints for the lattice. *)
Definition get_default_moment_transform (lattice_stencil : Stencil)
    (lattice_repr : string) : outcome :=
  if decide (lattice_stencil = D1Q3) then Returns D1Q3Transform
  else if decide (lattice_stencil = D2Q9) then Returns D2Q9Lallemand
  else LettuceException
         ("No default moment transform for lattice " +:+ lattice_repr +:+ ".").

End DefaultTransform.

(** ** A launch of the streaming kernel over a grid *)

Module Launch.
Import Kernel.

(** A cell coordinate lies on a grid of the given extents. *)
Definition on_grid (dimension cell : list Z) : Prop :=
  Forall2 (λ x n, 0 ≤ x < n)%Z cell dimension.

(** A distribution buffer holds one scalar for every direction and every
    cell of the grid. *)
Definition allocated {V} (K : launch) (arr : string)
    (m : gmap (string * list Z) V) : Prop :=
  ∀ i cell, (i < q K)%nat → on_grid (dimension K) cell →
            is_Some (m !! (arr, Z.of_nat i :: cell)).

(** No velocity component is longer than the extent of its axis. *)
Definition short (dimension row : list Z) : Prop :=
  Forall2 (λ ev n, - n ≤ ev ≤ n)%Z row dimension.

(** The launch parameters as the thread of one cell sees them. *)
Definition at_cell (K : launch) (cell : list Z) : launch :=
  {| q := q K; e := e K; dimension := dimension K;
     index := cell; no_stream_mask := no_stream_mask K |}.

(** The per-cell code a streaming component contributes: its read block
    followed by its write-back block, with nothing generated by a collision
    in between. *)
Definition thread_body (self : Streaming.NativeStreaming) (d : nat) : stmt :=
  SSeq (read_block d)
       (match self with
        | Streaming.NativeNoStreaming => no_streaming_write_block d
        | Streaming.NativeStandardStreaming m => standard_write_block m d
        end).

Section Threads.

Variable V : Type.

(** Modelled from the spec: the launcher template is not part of the
    sources at hand.  The generated blocks are "per-cell": a launch runs
    them once for the cell of every thread, each thread starting without
    locals and registers.  The threads are run one after another, in the
    order of the list of their cells. *)
Definition run_thread (K : launch) (body : stmt) (cell : list Z)
    (m : gmap (string * list Z) V) : option (gmap (string * list Z) V) :=
  st ← exec (at_cell K cell) body {| vars := ∅; f_reg := None; mem := m |};
  Some (mem st).

(** Modelled from the spec: see [run_thread]; the launcher template is not
    part of the sources at hand. *)
Definition run_threads (K : launch) (body : stmt) (cells : list (list Z))
    (m : gmap (string * list Z) V) : option (gmap (string * list Z) V) :=
  foldl (λ acc cell, m ← acc; run_thread K body cell m) (Some m) cells.

End Threads.

Arguments run_thread {V} _ _ _ _.
Arguments run_threads {V} _ _ _ _.

(** The cells of the sample grid of 3 by 2 cells. *)
Definition sample_cells : list (list Z) :=
  [[0; 0]; [0; 1]; [1; 0]; [1; 1]; [2; 0]; [2; 1]]%Z.

End Launch.

(** ** [lettuce/ext/_reporter/observable_reporter.py]: [ObservableReporter] *)

Module ObservableReporter.

(** What [convert_to_numpy(observable(f))] is, by its number of dimensions:
    a 0-dimensional array, a 1-dimensional array, or an array of two
    dimensions and more (whose entries the reporter never reads). *)
Inductive ndarray : Type :=
  | Scalar (x : Q)
  | Vector (xs : list Q)
  | Higher (more : nat).

(** [len(observed.shape)] *)
Definition ndim (a : ndarray) : nat :=
  match a with
  | Scalar _ => 0
  | Vector _ => 1
  | Higher more => 2 + more
  end.

(** The items of an entry [[i, t] + observed]. *)
Inductive item : Type :=
  | Step (i : Z)
  | Number (x : Q).

(** What has been written to a stream: the header, and one line per
    printed entry (its items separated by blanks; how Python renders a
    number is left out). *)
Inductive line : Type :=
  | Text (s : string)
  | Printed (entry : list item).

(** [self.out]: the list the reporter appends to, or a stream. *)
Inductive sink : Type :=
  | ToList (entries : list (list item))
  | ToStdout
  | ToFile.

(** The streams: [sys.stdout] and the file passed as [out], if any. *)
Record streams : Type := {
  stdout : list line;
  file : list line
}.

Record ObservableReporter : Type := {
  interval : Z;
  out : sink
}.

(** The [out] argument of the constructor. *)
Inductive out_argument : Type :=
  | OutNone
  | OutList (entries : list (list item))
  | OutStdout
  | OutFile.

(** [ObservableReporter.__init__]; [parameter_name] is
    [observable.__class__.__name__].  The header always goes to
    [sys.stdout]. *)
Definition init (parameter_name : string) (interval : Z) (out : out_argument)
    (w : streams) : ObservableReporter * streams :=
  ({| interval := interval;
      out := match out with
             | OutNone => ToList []
             | OutList entries => ToList entries
             | OutStdout => ToStdout
             | OutFile => ToFile
             end |},
   {| stdout := stdout w
                ++ [Text ("steps    " +:+ " " +:+ "time    " +:+ " " +:+ parameter_name)];
      file := file w |}).

Section Observable.

(** The distribution type and the observable are parameters. *)
Variable F : Type.
Variable observable : F → ndarray.

(** [[i, t] + observed] *)
Definition entry_of (i : Z) (t : Q) (observed : list Q) : list item :=
  [Step i; Number t] ++ (Number <$> observed).

(** [ObservableReporter.__call__] *)
Definition call (self : ObservableReporter) (w : streams) (i : Z) (t : Q)
    (f : F) : result (ObservableReporter * streams) :=
  if decide (interval self = 0)%Z then Raise ZeroDivisionError
  else if decide (i mod interval self = 0)%Z then
    let observed := observable f in
    if decide (ndim observed < 2)%nat then
      let observed :=
        match observed with
        | Scalar x => [x]            (* [observed.item()] *)
        | Vector xs => xs            (* observed.tolist() *)
        | Higher _ => []
        end in
      let entry := entry_of i t observed in
      match out self with
      | ToList entries =>
          Ok ({| interval := interval self; out := ToList (entries ++ [entry]) |}, w)
      | ToStdout =>
          Ok (self, {| stdout := stdout w ++ [Printed entry]; file := file w |})
      | ToFile =>
          Ok (self, {| stdout := stdout w; file := file w ++ [Printed entry] |})
      end
    else Raise (AssertionError "")
  else Ok (self, w).

(** Successive calls of the reporter, for a sequence of steps
    [(i, t, f)].  (The simulation loop that makes the calls is not part of
    the sources at hand.) *)
Fixpoint calls (self : ObservableReporter) (w : streams)
    (steps : list (Z * Q * F)) : result (ObservableReporter * streams) :=
  match steps with
  | [] => Ok (self, w)
  | (i, t, f) :: steps' =>
      match call self w i t f with
      | Ok (self', w') => calls self' w' steps'
      | Raise x => Raise x
      end
  end.

(** The list [observed] of a reporting step. *)
Definition observed_list (f : F) : list Q :=
  match observable f with
  | Scalar x => [x]
  | Vector xs => xs
  | Higher _ => []
  end.

End Observable.

End ObservableReporter.

(** ** [lettuce/ext/_reporter/observable_reporter.py]: [Mass] *)

Module MassObservable.
Local Open Scope Q_scope.

(** A tensor with [n] axes. *)
Fixpoint tensor (A : Type) (n : nat) : Type :=
  match n with
  | 0%nat => A
  | S n' => list (tensor A n')
  end.

(** [t.sum()]: the sum of all entries. *)
Fixpoint total (n : nat) : tensor Q n → Q :=
  match n return tensor Q n → Q with
  | 0%nat => λ x, x
  | S n' => λ t, foldr (λ x acc, total n' x + acc) 0 t
  end.

(** The slice [l[1:-1]] of a list. *)
Definition middle {A} (l : list A) : list A :=
  drop 1 (take (length l - 1) l).

(** [t[..., 1:-1, 1:-1]]: the first and the last index are dropped along
    the last two axes (the tensor has two axes at least). *)
Fixpoint interior {A} (n : nat) : tensor A (S (S n)) → tensor A (S (S n)) :=
  match n return tensor A (S (S n)) → tensor A (S (S n)) with
  | 0%nat => λ t : list (list A), middle <$> middle t
  | S n' => λ t, interior n' <$> t
  end.

(** [t * mask.to(dtype=torch.float)] for a mask of the shape of [t]: true
    is 1.0 and false 0.0. *)
Fixpoint times_mask (n : nat) : tensor Q n → tensor bool n → tensor Q n :=
  match n return tensor Q n → tensor bool n → tensor Q n with
  | 0%nat => λ x (b : bool), x * (if b then 1 else 0)
  | S n' => λ t m, zip_with (times_mask n') t m
  end.

(** [Mass.__call__] on a distribution [f] of shape [Q, ...grid], with
    [self.mask] of the shape of the grid, broadcast over the directions,
    or [None]. *)
Definition Mass_call (n : nat) (mask : option (tensor bool (S n)))
    (f : tensor Q (S (S n))) : Q :=
  let mass := total (S (S n)) (interior n f) in
  match mask with
  | None => mass
  | Some m =>
      mass - total (S (S n))
               ((λ fq : tensor Q (S n), times_mask (S n) fq m) <$> f)
  end.

(** A distribution on a two-dimensional grid of [Nx] by [Ny] cells. *)
Definition shape2 {A} (Nx Ny : nat) (g : list (list A)) : Prop :=
  length g = Nx ∧ Forall (λ row, length row = Ny) g.

(** No cell of the first or last row or column is masked. *)
Definition border_free (m : list (list bool)) : Prop :=
  (∀ row, head m = Some row ∨ last m = Some row → Forall (λ b, b = false) row)
  ∧ Forall (λ row, head row ≠ Some true ∧ last row ≠ Some true) m.

(** The cells that are not masked. *)
Definition unmasked (m : list (list bool)) : list (list bool) :=
  (λ row : list bool, negb <$> row) <$> m.

End MassObservable.

(** ** [examples/manually_generate_cuda_native.py]: [ensure_empty_dir] *)

Module EmptyDir.

(** The file system as the function sees it through [os]: what kind of
    entry sits at which path.  A path is the list of its components, and
    [join(path, filename)] appends one component.  Symbolic links and
    permissions are not modelled. *)
Inductive kind : Type := File | Dir.

#[export] Instance kind_eq_dec : EqDecision kind := ltac:(solve_decision).

Abbreviation FS := (gmap (list string) kind).

(** The exceptions of the [os] calls, and the one of the interpreter when
    the calls nest too deep. *)
Inductive os_error : Type :=
  | FileNotFoundError
  | NotADirectoryError
  | IsADirectoryError
  | DirectoryNotEmpty        (* [OSError]: directory not empty *)
  | FileExistsError
  | RecursionError.

Inductive outcome (A : Type) : Type :=
  | Done (a : A)
  | Fails (err : os_error).
Arguments Done {A} a.
Arguments Fails {A} err.

(** The component [n] with [k = p + [n]], if there is one. *)
Definition child_name (p k : list string) : option string :=
  if decide (take (length p) k = p)
  then match drop (length p) k with
       | [n] => Some n
       | _ => None
       end
  else None.

(** The names of the entries of the directory [p]. *)
Definition children (fs : FS) (p : list string) : list string :=
  omap (child_name p) (map_to_list fs).*1.

(** [os.path.exists] *)
Definition exists_ (fs : FS) (p : list string) : bool :=
  bool_decide (is_Some (fs !! p)).

(** [os.path.isdir] *)
Definition isdir (fs : FS) (p : list string) : bool :=
  bool_decide (fs !! p = Some Dir).

(** [os.rmdir] *)
Definition rmdir (fs : FS) (p : list string) : outcome FS :=
  match fs !! p with
  | None => Fails FileNotFoundError
  | Some File => Fails NotADirectoryError
  | Some Dir =>
      match children fs p with
      | [] => Done (delete p fs)
      | _ :: _ => Fails DirectoryNotEmpty
      end
  end.

(** [os.remove] *)
Definition remove (fs : FS) (p : list string) : outcome FS :=
  match fs !! p with
  | None => Fails FileNotFoundError
  | Some Dir => Fails IsADirectoryError
  | Some File => Done (delete p fs)
  end.

(** [os.mkdir]: the parent has to be a directory. *)
Definition mkdir (fs : FS) (p : list string) : outcome FS :=
  match fs !! p with
  | Some _ => Fails FileExistsError
  | None =>
      match fs !! take (length p - 1) p with
      | None => Fails FileNotFoundError
      | Some File => Fails NotADirectoryError
      | Some Dir => Done (<[p := Dir]> fs)
      end
  end.

Section Listing.

(** [os.listdir] returns the names "in arbitrary order": the order is a
    parameter. *)
Variable directory_order : list string → list string.

(** [os.listdir] *)
Definition listdir (fs : FS) (p : list string) : outcome (list string) :=
  match fs !! p with
  | None => Fails FileNotFoundError
  | Some File => Fails NotADirectoryError
  | Some Dir => Done (directory_order (children fs p))
  end.

(** [ensure_empty_dir].  [limit] is the number of nested calls the
    interpreter still allows; when it is used up the call raises
    [RecursionError]. *)
Fixpoint ensure_empty_dir (limit : nat) (fs : FS) (path : list string)
  : outcome FS :=
  match limit with
  | 0 => Fails RecursionError
  | S limit' =>
      if exists_ fs path then
        match listdir fs path with
        | Fails err => Fails err
        | Done names =>
            foldl (λ acc filename,
                     match acc with
                     | Fails err => Fails err
                     | Done fs =>
                         let filepath := path ++ [filename] in
                         if isdir fs filepath then
                           match ensure_empty_dir limit' fs filepath with
                           | Fails err => Fails err
                           | Done fs => rmdir fs filepath
                           end
                         else remove fs filepath
                     end)
                  (Done fs) names
        end
      else mkdir fs path
  end.

End Listing.

(** In a file system every entry sits in a directory. *)
Definition well_formed (fs : FS) : Prop :=
  ∀ p n, is_Some (fs !! (p ++ [n])) → fs !! p = Some Dir.

(** [k] lies strictly below [p]. *)
Definition below (p k : list string) : Prop := p `prefix_of` k ∧ p ≠ k.

#[export] Instance below_dec (p k : list string) : Decision (below p k) :=
  and_dec _ _.

(** The file system after the entries named [done] of the directory [p]
    have been removed with everything below them. *)
Definition pruned (fs : FS) (p : list string) (done : list string)
    (fs' : FS) : Prop :=
  ∀ k, fs' !! k
       = if decide (Exists (λ n, p ++ [n] `prefix_of` k) done) then None
         else fs !! k.

(** A project directory with a generated module in it. *)
Definition sample_fs : FS :=
  list_to_map
    [([], Dir);
     (["examples"], Dir);
     (["examples"; "cuda_native"], Dir);
     (["examples"; "cuda_native"; "setup.py"], File);
     (["examples"; "cuda_native"; "src"], Dir);
     (["examples"; "cuda_native"; "src"; "kernel.cu"], File);
     (["examples"; "manually_generate_cuda_native.py"], File)].

End EmptyDir.

(* ===================================================================== *)
(** * Part II: properties *)
(* ===================================================================== *)

(** ** Strings *)

Module StringFacts.

Lemma append_assoc (a b c : string) : (a +:+ b) +:+ c = a +:+ b +:+ c.
Proof.
  induction a as [|x a IH]; [reflexivity|].
  change (String x ((a +:+ b) +:+ c) = String x (a +:+ b +:+ c)).
  f_equal. exact IH.
Qed.

End StringFacts.

(** ** Moment transforms: the stored arrays are mutually inverse *)

Module MomentsFacts.
Import Stencils Moments.
Local Open Scope Q_scope.

Tactic Notation "split_vector" ident(f) hyp(H) integer(n) :=
  do n (destruct f as [|? f]; [discriminate H|]);
  destruct f; [clear H | discriminate H].

Ltac entrywise :=
  unfold mv, dot; simpl;
  repeat (apply Forall2_cons; split; [field |]);
  constructor.

Lemma D1Q3Transform_left_inverse (f : list Q) :
  length f = 3%nat →
  Forall2 Qeq (mv D1Q3Transform_inverse (mv D1Q3Transform_matrix f)) f.
Proof. intros H. split_vector f H 3. entrywise. Qed.

Lemma D1Q3Transform_right_inverse (m : list Q) :
  length m = 3%nat →
  Forall2 Qeq (mv D1Q3Transform_matrix (mv D1Q3Transform_inverse m)) m.
Proof. intros H. split_vector m H 3. entrywise. Qed.

Lemma D2Q9Dellar_left_inverse (f : list Q) :
  length f = 9%nat →
  Forall2 Qeq (mv D2Q9Dellar_inverse (mv D2Q9Dellar_matrix f)) f.
Proof. intros H. split_vector f H 9. entrywise. Qed.

Lemma D2Q9Dellar_right_inverse (m : list Q) :
  length m = 9%nat →
  Forall2 Qeq (mv D2Q9Dellar_matrix (mv D2Q9Dellar_inverse m)) m.
Proof. intros H. split_vector m H 9. entrywise. Qed.

Lemma D2Q9Lallemand_left_inverse (f : list Q) :
  length f = 9%nat →
  Forall2 Qeq (mv D2Q9Lallemand_inverse (mv D2Q9Lallemand_matrix f)) f.
Proof. intros H. split_vector f H 9. entrywise. Qed.

Lemma D2Q9Lallemand_right_inverse (m : list Q) :
  length m = 9%nat →
  Forall2 Qeq (mv D2Q9Lallemand_matrix (mv D2Q9Lallemand_inverse m)) m.
Proof. intros H. split_vector m H 9. entrywise. Qed.

Lemma Qeq_approx (tol : Q) (a b : list Q) :
  0 <= tol → Forall2 Qeq a b → approx tol a b.
Proof.
  intros Htol H. eapply Forall2_impl; [exact H|]. intros x y Hxy. cbv beta.
  assert (Hz : x - y == 0) by (rewrite Hxy; ring).
  rewrite Hz. exact Htol.
Qed.

Lemma supported_pairs_inv (S : Stencil) (T : Transform) :
  (S, T) ∈ supported_pairs →
  (S = D1Q3 ∧ T = D1Q3Transform) ∨
  (S = D2Q9 ∧ T = D2Q9Dellar) ∨
  (S = D2Q9 ∧ T = D2Q9Lallemand).
Proof.
  unfold supported_pairs. rewrite !elem_of_cons, elem_of_nil.
  intros [H|[H|[H|[]]]]; inversion H; auto.
Qed.

Lemma mutually_inverse (S : Stencil) (T : Transform) (v : list Q) :
  (S, T) ∈ supported_pairs → length v = Q_ S →
  Forall2 Qeq (inverse_transform T (transform T v)) v
  ∧ Forall2 Qeq (transform T (inverse_transform T v)) v.
Proof.
  intros HT Hv.
  destruct (supported_pairs_inv S T HT) as [[-> ->]|[[-> ->]|[-> ->]]]; simpl.
  - split; [apply D1Q3Transform_left_inverse | apply D1Q3Transform_right_inverse];
      exact Hv.
  - split; [apply D2Q9Dellar_left_inverse | apply D2Q9Dellar_right_inverse];
      exact Hv.
  - split; [apply D2Q9Lallemand_left_inverse | apply D2Q9Lallemand_right_inverse];
      exact Hv.
Qed.

(** C4.  For each supported stencil / basis pair ([D1Q3Transform] on D1Q3,
    [D2Q9Dellar] and [D2Q9Lallemand] on D2Q9) and each vector of Q
    populations, [inverse_transform] after [transform] gives the vector
    back, entry by entry: within 1e-6, and in fact exactly, the stored
    [matrix] and [inverse] being inverse to each other on both sides. *)
Theorem transform_inverse_transform_roundtrip
    (S : Stencil) (T : Transform) (f : list Q) :
  (S, T) ∈ supported_pairs →
  length f = Q_ S →
  approx (1 # 1000000) (inverse_transform T (transform T f)) f
  ∧ Forall2 Qeq (inverse_transform T (transform T f)) f
  ∧ Forall2 Qeq (transform T (inverse_transform T f)) f.
Proof.
  intros HT Hf. destruct (mutually_inverse S T f HT Hf) as [Hl Hr].
  split; [|split]; [|exact Hl|exact Hr].
  apply Qeq_approx; [discriminate | exact Hl].
Qed.

Lemma transform_inverse_transform_roundtrip_witness :
  let f := [1; 2; 3; 4; 5; 6; 7; 8; 9 # 2] in
  approx (1 # 1000000)
    (inverse_transform D2Q9Dellar (transform D2Q9Dellar f)) f
  ∧ Forall2 Qeq (inverse_transform D2Q9Dellar (transform D2Q9Dellar f)) f
  ∧ Forall2 Qeq (transform D2Q9Dellar (inverse_transform D2Q9Dellar f)) f.
Proof.
  intros f.
  apply (transform_inverse_transform_roundtrip D2Q9 D2Q9Dellar f).
  - unfold supported_pairs. apply elem_of_cons. right. apply elem_of_cons. left.
    reflexivity.
  - reflexivity.
Defined.

End MomentsFacts.

(** ** [BGKInitialization] keeps the velocity *)

Module BGKInitFacts.
Import Stencils Moments BGKInit.
Local Open Scope Q_scope.

(** [index] returns a position holding the name. *)
Lemma index_Ok (names : list string) (name : string) (i : nat) :
  index names name = Ok i → names !! i = Some name.
Proof.
  revert i. induction names as [|n names IH]; intros i; simpl; [discriminate|].
  destruct (String.eqb_spec n name) as [->|Hne].
  - intros [= <-]. reflexivity.
  - destruct (index names name) as [j|]; [|discriminate].
    intros [= <-]. simpl. apply IH. reflexivity.
Qed.

Lemma getitem_names_Ok (names moment_names : list string) (idx : list nat) :
  getitem_names names moment_names = Ok idx →
  length idx = length moment_names
  ∧ ∀ k i, idx !! k = Some i →
      ∃ n, moment_names !! k = Some n ∧ names !! i = Some n.
Proof.
  revert idx. induction moment_names as [|n rest IH]; intros idx; simpl.
  - intros [= <-]. split; [reflexivity|]. intros k i Hk. discriminate.
  - destruct (index names n) as [i0|] eqn:Hi; [|discriminate].
    destruct (getitem_names names rest) as [idxs|]; [|discriminate].
    intros [= <-]. destruct (IH idxs eq_refl) as [Hlen Hall].
    split; [simpl; congruence|].
    intros [|k] i; simpl.
    + intros [= <-]. exists n. split; [reflexivity|]. apply index_Ok, Hi.
    + apply Hall.
Qed.

(** Distinct names are found at distinct positions. *)
Lemma getitem_names_NoDup (names moment_names : list string) (idx : list nat) :
  NoDup moment_names → getitem_names names moment_names = Ok idx → NoDup idx.
Proof.
  intros Hnd Hget. destruct (getitem_names_Ok _ _ _ Hget) as [_ Hall].
  apply NoDup_alt. intros k k' i Hk Hk'.
  destruct (Hall k i Hk) as (n & Hn & Hin).
  destruct (Hall k' i Hk') as (n' & Hn' & Hin').
  assert (n = n') as <- by congruence.
  eapply NoDup_lookup; eauto.
Qed.

Lemma momentum_names_NoDup (d : nat) : NoDup (momentum_names d).
Proof.
  destruct d as [|[|[|[|d]]]]; cbn;
    apply (bool_decide_unpack _); vm_compute; exact I.
Qed.

(** The index assignment writes every value at its index when the indices
    are distinct and in range. *)
Lemma assign_indices_Ok (indices : list nat) (values m : list Q) :
  length indices = length values →
  Forall (λ i, i < length m)%nat indices →
  NoDup indices →
  ∃ m', assign_indices indices values m = Ok m'
        ∧ length m' = length m
        ∧ (∀ k i, indices !! k = Some i → m' !! i = values !! k)
        ∧ (∀ j, j ∉ indices → m' !! j = m !! j).
Proof.
  revert values m.
  induction indices as [|i indices IH]; intros [|v values] m Hlen Hin Hnd;
    try discriminate Hlen.
  - exists m. split; [reflexivity|]. split; [reflexivity|].
    split; [intros k i Hk; discriminate | reflexivity].
  - simpl. apply Forall_cons in Hin as [Hi Hin]. apply NoDup_cons in Hnd as [Hni Hnd].
    destruct (decide (i < length m)%nat) as [_|]; [|contradiction].
    destruct (IH values (<[i := v]> m)) as (m' & Hrun & Hlen' & Hset & Hrest).
    + simpl in Hlen. congruence.
    + rewrite length_insert. exact Hin.
    + exact Hnd.
    + exists m'. rewrite Hrun, Hlen', length_insert. repeat split.
      * intros [|k] j; simpl.
        -- intros [= <-]. rewrite (Hrest i Hni).
           apply list_lookup_insert_eq. exact Hi.
        -- apply Hset.
      * intros j Hj. apply not_elem_of_cons in Hj as [Hji Hj].
        rewrite (Hrest j Hj). apply list_lookup_insert_ne. congruence.
Qed.

Section Flow.

Variable flow_rho : list Q → Q.
Variable flow_equilibrium : Q → list Q → list Q.

(** C10.  Take a moment transformation on Q moments whose [transform]
    undoes its [inverse_transform], a stencil dimension [d] between 1 and 3
    and a relaxation parameter for which neither [1.0 / tau] nor
    [1.0 / (tau + 1)] divides by zero.  If the constructor succeeds, then
    for every population vector [f] the call returns a distribution [f'],
    and the moments of [f'] at the positions of [jx], [jy], [jz] (as many as
    [d]) are [rho * u]: the density of [f] times the velocity captured at
    construction. *)
Theorem BGKInitialization_keeps_velocity
    (T : Transform) (d : nat) (relaxation_parameter_lu : Q) (u_lu : list Q)
    (characteristic_density_lu : Q) (self : BGKInitialization) (f : list Q) :
  let Qn := length (names T) in
  (∀ v, length v = Qn → length (transform T v) = Qn) →
  (∀ m, length m = Qn → Forall2 Qeq (transform T (inverse_transform T m)) m) →
  (0 < d ≤ 3)%nat →
  length u_lu = d →
  ¬ relaxation_parameter_lu == 0 →
  ¬ relaxation_parameter_lu + 1 == 0 →
  init relaxation_parameter_lu u_lu characteristic_density_lu d T = Ok self →
  length f = Qn →
  length (flow_equilibrium (flow_rho f) u_lu) = Qn →
  ∃ f', call flow_rho flow_equilibrium self f = Ok f'
        ∧ length (momentum_indices self) = d
        ∧ ∀ k i, momentum_indices self !! k = Some i →
            ∃ moment uk, transform T f' !! i = Some moment
                         ∧ u_lu !! k = Some uk
                         ∧ moment == flow_rho f * uk.
Proof.
  intros Qn Hlen Hinv [Hd0 Hd3] Hu Htau Htau1 Hinit Hf Hfeq.
  unfold init, getitem in Hinit.
  destruct (getitem_names (names T) (momentum_names d)) as [idx|] eqn:Hget;
    [|discriminate].
  injection Hinit as <-.
  destruct (getitem_names_Ok _ _ _ Hget) as [Hidx_len Hidx].
  pose proof (getitem_names_NoDup _ _ _ (momentum_names_NoDup d) Hget) as Hnd.
  assert (Hnames : length (momentum_names d) = d).
  { unfold momentum_names. rewrite length_take. simpl. lia. }
  assert (Hrange : Forall (λ i, i < Qn)%nat idx).
  { apply Forall_lookup. intros k i Hk. destruct (Hidx k i Hk) as (n & _ & Hn).
    apply lookup_lt_Some in Hn. exact Hn. }
  assert (HQn : (0 < Qn)%nat).
  { destruct idx as [|i idx]; [simpl in Hidx_len; lia|].
    apply Forall_cons in Hrange as [Hi _]. lia. }
  unfold call; simpl.
  set (rho := flow_rho f).
  set (m := transform T f).
  set (meq := transform T (flow_equilibrium rho u_lu)).
  assert (Hm : length m = Qn) by (apply Hlen, Hf).
  assert (Hmeq : length meq = Qn) by (apply Hlen, Hfeq).
  destruct (Qeq_bool relaxation_parameter_lu 0) eqn:E0;
    [apply Qeq_bool_eq in E0; contradiction|].
  destruct (Qeq_bool (relaxation_parameter_lu + 1) 0) eqn:E1;
    [apply Qeq_bool_eq in E1; contradiction|].
  set (mnew := zip_with _ m meq).
  assert (Hmnew : length mnew = Qn).
  { unfold mnew. rewrite length_zip_with. lia. }
  destruct m as [|m0 m']; [simpl in Hm; lia|].
  destruct meq as [|meq0 meq']; [simpl in Hmeq; lia|].
  destruct mnew as [|mnew0 mnew'] eqn:Emnew; [simpl in Hmnew; lia|].
  rewrite <- Emnew.
  set (mnew1 := <[0%nat := _]> mnew).
  assert (Hmnew1 : length mnew1 = Qn).
  { unfold mnew1. rewrite length_insert, Emnew. exact Hmnew. }
  destruct (assign_indices_Ok idx ((λ ui, rho * ui) <$> u_lu) mnew1)
    as (m2 & Hrun & Hlen2 & Hset & _).
  { rewrite length_fmap. congruence. }
  { rewrite Hmnew1. exact Hrange. }
  { exact Hnd. }
  rewrite Hrun. eexists. split; [reflexivity|]. split; [congruence|].
  intros k i Hk.
  assert (Hk_lt : (k < length u_lu)%nat).
  { apply lookup_lt_Some in Hk. congruence. }
  destruct (lookup_lt_is_Some_2 u_lu k Hk_lt) as [uk Huk].
  pose proof (Hinv m2 ltac:(congruence)) as Hround.
  assert (Hm2 : m2 !! i = Some (rho * uk)).
  { rewrite (Hset k i Hk), list_lookup_fmap, Huk. reflexivity. }
  destruct (Forall2_lookup_r _ _ _ _ _ Hround Hm2) as (moment & Hmoment & Heq).
  exists moment, uk. repeat split; assumption.
Qed.

End Flow.

Lemma BGKInitialization_keeps_velocity_witness :
  let self := {| tau := 1; moment_transformation := D2Q9Lallemand;
                 u := [1 # 10; 0]; rho0 := 1; momentum_indices := [1; 2]%nat |} in
  let f := [1; 2; 3; 4; 5; 6; 7; 8; 9] in
  ∃ f', call Sample.flow_rho Sample.flow_equilibrium self f = Ok f'
        ∧ length (momentum_indices self) = 2%nat
        ∧ ∀ k i, momentum_indices self !! k = Some i →
            ∃ moment uk, transform D2Q9Lallemand f' !! i = Some moment
                         ∧ [1 # 10; 0] !! k = Some uk
                         ∧ moment == Sample.flow_rho f * uk.
Proof.
  intros self f.
  apply (BGKInitialization_keeps_velocity Sample.flow_rho Sample.flow_equilibrium
           D2Q9Lallemand 2 1 [1 # 10; 0] 1 self f).
  - intros v Hv. reflexivity.
  - intros m Hm. apply MomentsFacts.D2Q9Lallemand_right_inverse. exact Hm.
  - lia.
  - reflexivity.
  - discriminate.
  - discriminate.
  - reflexivity.
  - reflexivity.
  - reflexivity.
Defined.

(** [D1Q3Transform] names its momentum ["j"], not ["jx"]: on a
    one-dimensional flow the constructor's lookup of ["jx"] raises. *)
Example D1Q3Transform_has_no_jx :
  init 1 [1 # 10] 1 1 D1Q3Transform = Raise (ValueError "'jx' is not in list").
Proof. reflexivity. Qed.

(** On D2Q9 both bases name ["jx"] and ["jy"], at positions 1 and 2. *)
Example D2Q9_momentum_indices :
  getitem D2Q9Dellar (momentum_names 2) = Ok [1; 2]%nat
  ∧ getitem D2Q9Lallemand (momentum_names 2) = Ok [1; 2]%nat.
Proof. split; reflexivity. Qed.

End BGKInitFacts.

(** ** Reference boundaries leave unmasked cells alone *)

Module BoundaryFacts.
Import Stencils Boundary.
Local Open Scope Q_scope.

Lemma entry_where (mask : list bool) (a b : tensor) (q x : nat) :
  entry (where_ mask a b) q x =
    ra ← a !! q; rb ← b !! q; c ← mask !! x; va ← ra !! x; vb ← rb !! x;
    Some (if c : bool then va else vb).
Proof.
  unfold entry, where_. rewrite lookup_zip_with.
  destruct (a !! q) as [ra|]; simpl; [|reflexivity].
  destruct (b !! q) as [rb|]; simpl; [|reflexivity].
  rewrite lookup_zip_with.
  destruct (mask !! x) as [c|]; simpl; [|reflexivity].
  rewrite lookup_zip_with.
  destruct (ra !! x) as [va|]; simpl; [|reflexivity].
  destruct (rb !! x) as [vb|]; simpl; reflexivity.
Qed.

Lemma shape_row (f : tensor) (Qn n q : nat) (row : list Q) :
  shape f Qn n → f !! q = Some row → length row = n.
Proof.
  intros [_ Hrows] Hq. rewrite Forall_lookup in Hrows. exact (Hrows q row Hq).
Qed.

(** Where the mask is false, [torch.where] returns the entry of its last
    argument, provided the first argument covers it. *)
Lemma entry_where_false (mask : list bool) (a b : tensor) (Qn n q x : nat) :
  shape a Qn n → shape b Qn n → length mask = n →
  mask !! x = Some false →
  entry (where_ mask a b) q x = entry b q x.
Proof.
  intros Ha Hb Hmask Hx. rewrite entry_where. unfold entry.
  destruct (b !! q) as [rb|] eqn:Hbq; simpl.
  - assert (Hq : (q < length a)%nat).
    { apply lookup_lt_Some in Hbq. destruct Ha as [-> _], Hb as [<- _]. exact Hbq. }
    destruct (lookup_lt_is_Some_2 a q Hq) as [ra Hra]. rewrite Hra, Hx. simpl.
    assert (Hxn : (x < n)%nat) by (apply lookup_lt_Some in Hx; lia).
    destruct (lookup_lt_is_Some_2 ra x) as [va ->].
    { rewrite (shape_row a Qn n q ra Ha Hra). exact Hxn. }
    simpl. destruct (rb !! x); reflexivity.
  - destruct (a !! q); reflexivity.
Qed.

Lemma entry_where_true (mask : list bool) (a b : tensor) (Qn n q x : nat) :
  shape a Qn n → shape b Qn n → length mask = n →
  mask !! x = Some true →
  entry (where_ mask a b) q x = entry a q x.
Proof.
  intros Ha Hb Hmask Hx. rewrite entry_where. unfold entry.
  destruct (a !! q) as [ra|] eqn:Haq; simpl; [|reflexivity].
  assert (Hq : (q < length b)%nat).
  { apply lookup_lt_Some in Haq. destruct Hb as [-> _], Ha as [<- _]. exact Haq. }
  destruct (lookup_lt_is_Some_2 b q Hq) as [rb Hrb]. rewrite Hrb, Hx. simpl.
  assert (Hxn : (x < n)%nat) by (apply lookup_lt_Some in Hx; lia).
  destruct (lookup_lt_is_Some_2 rb x) as [vb ->].
  { rewrite (shape_row b Qn n q rb Hb Hrb). exact Hxn. }
  destruct (ra !! x); reflexivity.
Qed.

Lemma shape_take_rows (f : tensor) (idx : list nat) (Qn n : nat) :
  shape f Qn n → length idx = Qn → Forall (λ i, i < Qn)%nat idx →
  shape (take_rows f idx) Qn n.
Proof.
  intros [Hlen Hrows] Hidx Hin. split.
  - unfold take_rows. rewrite length_fmap. exact Hidx.
  - unfold take_rows. apply Forall_fmap, Forall_forall. intros i Hi. simpl.
    rewrite Forall_forall in Hin. specialize (Hin i Hi).
    destruct (lookup_lt_is_Some_2 f i) as [row Hrow]; [lia|].
    rewrite (list_lookup_total_correct f i row Hrow).
    rewrite Forall_lookup in Hrows. exact (Hrows i row Hrow).
Qed.

Lemma entry_take_rows (f : tensor) (idx : list nat) (q x : nat) :
  Forall (λ i, i < length f)%nat idx →
  entry (take_rows f idx) q x = idx !! q ≫= λ q', entry f q' x.
Proof.
  intros Hin. unfold entry, take_rows. rewrite list_lookup_fmap.
  destruct (idx !! q) as [q'|] eqn:Hq; simpl; [|reflexivity].
  rewrite Forall_lookup in Hin. specialize (Hin q q' Hq).
  destruct (lookup_lt_is_Some_2 f q' Hin) as [row Hrow].
  rewrite (list_lookup_total_correct f q' row Hrow), Hrow. reflexivity.
Qed.

Lemma shape_einsum_q (feq : list Q) (f : tensor) (Qn n : nat) :
  shape f Qn n → length feq = Qn → shape (einsum_q feq (ones_like f)) Qn n.
Proof.
  intros [Hlen Hrows] Hfeq. unfold einsum_q, ones_like. split.
  - rewrite length_zip_with, length_fmap. lia.
  - apply Forall_lookup. intros q row. rewrite lookup_zip_with, list_lookup_fmap.
    destruct (feq !! q) as [fq|]; simpl; [|discriminate].
    destruct (f !! q) as [r|] eqn:Hr; simpl; [|discriminate].
    intros [= <-]. rewrite !length_fmap.
    rewrite Forall_lookup in Hrows. exact (Hrows q r Hr).
Qed.

Lemma entry_einsum_q (feq : list Q) (f : tensor) (q x : nat) (fq v : Q) :
  feq !! q = Some fq → entry f q x = Some v →
  entry (einsum_q feq (ones_like f)) q x = Some (fq * 1).
Proof.
  unfold entry, einsum_q, ones_like. intros Hfq Hv.
  rewrite lookup_zip_with, list_lookup_fmap, Hfq. simpl.
  destruct (f !! q) as [r|]; simpl in *; [|discriminate].
  rewrite !list_lookup_fmap, Hv. reflexivity.
Qed.

Section Equilibrium.

Variable convert_pressure_pu_to_density_lu : Q → Q.
Variable convert_velocity_to_lu : list Q → list Q.
Variable equilibrium : Q → list Q → list Q.

Local Abbreviation EquilibriumBoundaryPU_call :=
  (EquilibriumBoundaryPU_call convert_pressure_pu_to_density_lu
     convert_velocity_to_lu equilibrium).
Local Abbreviation precomputed_equilibrium :=
  (precomputed_equilibrium convert_pressure_pu_to_density_lu
     convert_velocity_to_lu equilibrium).

(** C9.  On a distribution tensor of Q rows over the cells of the grid,
    with a mask over the same cells: both boundary operators return the
    input's entry at every cell whose mask is false, in every direction.
    At a masked cell, bounce-back returns the population of the opposite
    direction and the equilibrium boundary the precomputed equilibrium
    population (times one). *)
Theorem boundaries_modify_masked_cells_only
    (bb : BounceBackBoundary) (eqb : EquilibriumBoundaryPU)
    (f : tensor) (Qn n : nat) :
  shape f Qn n →
  length (bb_mask bb) = n →
  length (opposite (bb_lattice bb)) = Qn →
  Forall (λ i, i < Qn)%nat (opposite (bb_lattice bb)) →
  length (eq_mask eqb) = n →
  length (precomputed_equilibrium eqb) = Qn →
  (∀ q x, bb_mask bb !! x = Some false →
      entry (BounceBackBoundary_call bb f) q x = entry f q x)
  ∧ (∀ q x, eq_mask eqb !! x = Some false →
      entry (EquilibriumBoundaryPU_call eqb f) q x = entry f q x)
  ∧ (∀ q x, bb_mask bb !! x = Some true →
      entry (BounceBackBoundary_call bb f) q x =
        opposite (bb_lattice bb) !! q ≫= λ q', entry f q' x)
  ∧ (∀ q x, eq_mask eqb !! x = Some true → (q < Qn)%nat →
      ∃ feq_q, precomputed_equilibrium eqb !! q = Some feq_q
               ∧ entry (EquilibriumBoundaryPU_call eqb f) q x = Some (feq_q * 1)
               ∧ feq_q * 1 == feq_q).
Proof.
  intros Hf Hbb Hopp Hopp_in Heq Hfeq.
  assert (Hopp_in' : Forall (λ i, i < length f)%nat (opposite (bb_lattice bb))).
  { destruct Hf as [-> _]. exact Hopp_in. }
  pose proof (shape_take_rows f _ Qn n Hf Hopp Hopp_in) as Hrows.
  pose proof (shape_einsum_q _ f Qn n Hf Hfeq) as Hein.
  repeat split.
  - intros q x Hx. unfold BounceBackBoundary_call.
    exact (entry_where_false _ _ _ Qn n q x Hrows Hf Hbb Hx).
  - intros q x Hx. unfold Boundary.EquilibriumBoundaryPU_call.
    exact (entry_where_false _ _ _ Qn n q x Hein Hf Heq Hx).
  - intros q x Hx. unfold BounceBackBoundary_call.
    rewrite (entry_where_true _ _ _ Qn n q x Hrows Hf Hbb Hx).
    apply entry_take_rows, Hopp_in'.
  - intros q x Hx Hq.
    destruct (lookup_lt_is_Some_2 (precomputed_equilibrium eqb) q) as [fq Hfq];
      [lia|].
    exists fq. split; [exact Hfq|]. split; [|ring].
    unfold Boundary.EquilibriumBoundaryPU_call.
    rewrite (entry_where_true _ _ _ Qn n q x Hein Hf Heq Hx).
    assert (Hxn : (x < n)%nat) by (apply lookup_lt_Some in Hx; lia).
    destruct (lookup_lt_is_Some_2 f q) as [row Hrow];
      [destruct Hf as [-> _]; exact Hq|].
    destruct (lookup_lt_is_Some_2 row x) as [v Hv];
      [rewrite (shape_row f Qn n q row Hf Hrow); exact Hxn|].
    apply (entry_einsum_q _ f q x fq v Hfq).
    unfold entry. rewrite Hrow. exact Hv.
Qed.

End Equilibrium.

Lemma boundaries_modify_masked_cells_only_witness :
  let call_eq := EquilibriumBoundaryPU_call (λ p, p + 1) (λ u, u)
                   Sample.flow_equilibrium Sample.equilibrium_pu in
  (∀ q x, [true; false] !! x = Some false →
      entry (BounceBackBoundary_call Sample.bounce_back Sample.f_tensor) q x
      = entry Sample.f_tensor q x)
  ∧ (∀ q x, [true; false] !! x = Some false →
      entry (call_eq Sample.f_tensor) q x = entry Sample.f_tensor q x).
Proof.
  intros call_eq.
  destruct (boundaries_modify_masked_cells_only (λ p, p + 1) (λ u, u)
              Sample.flow_equilibrium Sample.bounce_back Sample.equilibrium_pu
              Sample.f_tensor 9 2) as (Hbb & Heq & _).
  - split; [reflexivity|]. unfold Sample.f_tensor. simpl.
    repeat (apply Forall_cons; split; [reflexivity|]). apply Forall_nil_2.
  - reflexivity.
  - reflexivity.
  - simpl. repeat (apply Forall_cons; split; [lia|]). apply Forall_nil_2.
  - reflexivity.
  - reflexivity.
  - split; [exact Hbb | exact Heq].
Defined.

(** ** The constructor of [AntiBounceBackOutlet] *)

(** The message names the offending value. *)
Lemma wrong_direction_names_direction (direction : list Z) :
  occurs_in (repr_list direction) (wrong_direction direction).
Proof.
  unfold occurs_in, wrong_direction.
  eexists _, ".". rewrite <- !StringFacts.append_assoc. reflexivity.
Qed.

Lemma sum_list_zero (l : list Z) (s : Z) :
  (s = 1 ∨ s = -1)%Z →
  Forall (λ z, z = 0 ∨ z = s)%Z l → sum_list l = 0%Z →
  filter (λ z, z ≠ 0%Z) l = [].
Proof.
  intros Hs. induction l as [|z l IH]; intros Hall Hsum; [reflexivity|].
  apply Forall_cons in Hall as [Hz Hall]. simpl in Hsum.
  assert (Hge : (0 ≤ s * sum_list l)%Z).
  { clear -Hs Hall. induction l as [|y l IH]; simpl; [lia|].
    apply Forall_cons in Hall as [Hy Hall]. specialize (IH Hall). nia. }
  assert (z = 0%Z) as -> by nia.
  rewrite filter_cons_False by lia. apply IH; [exact Hall | lia].
Qed.

Lemma sum_list_one (l : list Z) (s : Z) :
  (s = 1 ∨ s = -1)%Z →
  Forall (λ z, z = 0 ∨ z = s)%Z l → sum_list l = s →
  filter (λ z, z ≠ 0%Z) l = [s].
Proof.
  intros Hs. induction l as [|z l IH]; intros Hall Hsum; simpl in Hsum; [lia|].
  apply Forall_cons in Hall as [[->| ->] Hall].
  - rewrite filter_cons_False by lia. apply IH; [exact Hall | lia].
  - rewrite filter_cons_True by lia. f_equal.
    apply (sum_list_zero l s Hs Hall). lia.
Qed.

Lemma max_abs_bound (l : list Z) : Forall (λ z, Z.abs z ≤ max_abs l)%Z l.
Proof.
  induction l as [|z l IH]; [constructor|].
  assert (Hstep : max_abs (z :: l) = Z.max (Z.abs z) (max_abs l)) by reflexivity.
  apply Forall_cons. split; [lia|].
  eapply Forall_impl; [exact IH|]. intros x Hx. cbv beta in *. lia.
Qed.

(** On integer lists, the asserted condition says: at most three entries,
    exactly one of them nonzero, and that one 1 or -1. *)
Lemma direction_ok_one_nonzero_entry (direction : list Z) :
  direction_ok direction = true → one_nonzero_entry direction.
Proof.
  unfold direction_ok, elem. rewrite !andb_true_iff.
  intros (_ & (Hsum & Hmax) & Hxor).
  apply Z.eqb_eq in Hsum, Hmax.
  pose proof (max_abs_bound direction) as Hbound. rewrite Hmax in Hbound.
  destruct (bool_decide (1%Z ∈ direction)) eqn:H1;
    destruct (bool_decide ((-1)%Z ∈ direction)) eqn:Hm1; try discriminate Hxor.
  - apply bool_decide_eq_false in Hm1.
    assert (Hall : Forall (λ z, z = 0 ∨ z = 1)%Z direction).
    { apply Forall_forall. intros z Hz. rewrite Forall_forall in Hbound.
      specialize (Hbound z Hz). simpl in Hbound.
      assert (z ≠ -1)%Z by (intros ->; contradiction). lia. }
    assert (Hge : (0 ≤ sum_list direction)%Z).
    { clear -Hall. induction direction as [|y l IH]; simpl; [lia|].
      apply Forall_cons in Hall as [Hy Hall]. specialize (IH Hall). lia. }
    exists 1%Z. split; [|lia]. apply sum_list_one; [lia | exact Hall | lia].
  - apply bool_decide_eq_false in H1.
    assert (Hall : Forall (λ z, z = 0 ∨ z = -1)%Z direction).
    { apply Forall_forall. intros z Hz. rewrite Forall_forall in Hbound.
      specialize (Hbound z Hz). simpl in Hbound.
      assert (z ≠ 1)%Z by (intros ->; contradiction). lia. }
    assert (Hle : (sum_list direction ≤ 0)%Z).
    { clear -Hall. induction direction as [|y l IH]; simpl; [lia|].
      apply Forall_cons in Hall as [Hy Hall]. specialize (IH Hall). lia. }
    exists (-1)%Z. split; [|lia]. apply sum_list_one; [lia | exact Hall | lia].
Qed.

Lemma elem_of_argwhere_eq1 (v : list Z) (i : nat) :
  i ∈ argwhere_eq1 v ↔ v !! i = Some 1%Z.
Proof.
  unfold argwhere_eq1. rewrite list_elem_of_fmap. split.
  - intros ([j x] & -> & Hin). apply list_elem_of_filter in Hin as [Hx Hin].
    simpl in Hx. subst x.
    apply elem_of_lookup_imap in Hin as (k & y & [= -> ->] & Hk). exact Hk.
  - intros Hi. exists (i, 1%Z). split; [reflexivity|].
    apply list_elem_of_filter. split; [reflexivity|].
    apply (elem_of_lookup_imap_2 (λ i x, (i, x)) v 1%Z i Hi).
Qed.

Lemma dotZ_opp (row direction : list Z) :
  dotZ row (Z.opp <$> direction) = (- dotZ row direction)%Z.
Proof.
  unfold dotZ. revert direction.
  induction row as [|r row IH]; intros [|x direction]; simpl; try reflexivity.
  rewrite IH. lia.
Qed.

(** What a successful construction selects. *)
Lemma init_velocities (lattice : Stencil) (direction : list Z)
    (self : AntiBounceBackOutlet) :
  AntiBounceBackOutlet_init lattice direction = Ok self →
  ∀ i, i ∈ velocities self ↔
       ∃ row, e lattice !! i = Some row ∧ dotZ row direction = 1%Z.
Proof.
  unfold AntiBounceBackOutlet_init.
  destruct (negb (direction_ok direction)); [discriminate|].
  destruct (negb (bool_decide _)); [discriminate|].
  destruct (argwhere_eq1 _) as [|v vs] eqn:Hsel; [discriminate|].
  intros [= <-] i. simpl. rewrite <- Hsel, elem_of_argwhere_eq1, list_lookup_fmap.
  destruct (e lattice !! i) as [row|]; simpl.
  - split; [intros [= H]; eauto | intros (r & [= <-] & ->); reflexivity].
  - split; [discriminate | intros (r & [=] & _)].
Qed.



(** A direction that passes the assertion but has the wrong arity for the
    stencil fails in [np.matmul], and one that no velocity points along
    fails in [np.concatenate]. *)
Example outlet_direction_of_wrong_arity :
  AntiBounceBackOutlet_init D2Q9 [0; 0; 1]%Z
    = Raise (ValueError "matmul: mismatch in its core dimension")
  ∧ AntiBounceBackOutlet_init D1Q3 [1]%Z
      = Ok {| lattice := D1Q3; velocities := [1]%nat;
              index := [int_index (-1)]; neighbour := [int_index (-2)];
              dims := "dc, c -> dc"; abb_w := [1 # 6]%Q |}.
Proof. split; reflexivity. Qed.

End BoundaryFacts.

(** ** The streaming component: fragments are emitted once *)

Module StreamingFacts.
Import Generator Streaming.
Local Open Scope gen_scope.

Lemma extends_refl (g : Generator) : extends g g.
Proof. unfold extends. auto. Qed.

Lemma extends_trans (g1 g2 g3 : Generator) :
  extends g1 g2 → extends g2 g3 → extends g1 g3.
Proof.
  unfold extends. intros (? & ? & ? & ? & ?) (? & ? & ? & ? & ?).
  repeat split; [set_solver | congruence ..].
Qed.

Lemma primitive_contract (key definition : string) :
  contract (primitive key definition).
Proof.
  intros g a g'. unfold primitive, bind, registered, when, register,
    append_hook_buffer, ret. simpl.
  destruct (bool_decide (key ∈ registry g)); simpl; intros [= <- <-].
  - apply extends_refl.
  - unfold extends. simpl. repeat split; set_solver.
Qed.

(** [generate_no_stream_mask] always succeeds, leaves the parameter hooked
    on both sides, and does nothing once it is. *)
Lemma generate_no_stream_mask_hooked (g : Generator) :
  is_Some (launcher_slots g !! "no_stream_mask") →
  is_Some (kernel_slots g !! "no_stream_mask") →
  generate_no_stream_mask g = Ok (tt, g).
Proof.
  intros Hl Hk. unfold generate_no_stream_mask, bind, launcher_hooked,
    kernel_hooked, when, ret. simpl.
  rewrite (bool_decide_eq_true_2 _ Hl). simpl.
  rewrite (bool_decide_eq_true_2 _ Hk). reflexivity.
Qed.

Lemma generate_no_stream_mask_total (g : Generator) :
  ∃ g', generate_no_stream_mask g = Ok (tt, g')
        ∧ is_Some (launcher_slots g' !! "no_stream_mask")
        ∧ is_Some (kernel_slots g' !! "no_stream_mask")
        ∧ registry g' = registry g
        ∧ index_buffer g' = index_buffer g
        ∧ write_buffer g' = write_buffer g
        ∧ python_wrapper_after_buffer g' = python_wrapper_after_buffer g.
Proof.
  unfold generate_no_stream_mask, bind, launcher_hooked, kernel_hooked, when,
    ret, append_python_wrapper_before_buffer, launcher_hook, kernel_hook.
  simpl.
  destruct (launcher_slots g !! "no_stream_mask") as [sl|] eqn:Hl;
    destruct (kernel_slots g !! "no_stream_mask") as [sk|] eqn:Hk;
    repeat (first [rewrite Hl | rewrite Hk | progress simpl]);
    eexists; (split; [reflexivity|]); simpl;
    rewrite ?lookup_insert_eq, ?Hl, ?Hk; repeat split; eauto.
Qed.

(** [generate_f_next] does nothing once the key is registered; when it is
    not, it registers the key and appends the swap to the post-launch
    block. *)
Lemma generate_f_next_registered (g : Generator) :
  "f_next" ∈ registry g → generate_f_next g = Ok (tt, g).
Proof.
  intros Hr. unfold generate_f_next, bind, registered, when, ret. simpl.
  rewrite (bool_decide_eq_true_2 _ Hr). reflexivity.
Qed.

Lemma generate_f_next_fresh (g : Generator) :
  "f_next" ∉ registry g →
  ∃ g', generate_f_next g = Ok (tt, g')
        ∧ registry g' = {["f_next"]} ∪ registry g
        ∧ index_buffer g' = index_buffer g
        ∧ write_buffer g' = write_buffer g
        ∧ python_wrapper_after_buffer g' =
            python_wrapper_after_buffer g
            ++ ["simulation.f, simulation.f_next = simulation.f_next, simulation.f"].
Proof.
  intros Hr.
  unfold generate_f_next, bind, registered, register, launcher_hooked,
    kernel_hooked, when, ret, append_python_wrapper_before_buffer,
    append_python_wrapper_after_buffer, launcher_hook, kernel_hook.
  simpl. rewrite (bool_decide_eq_false_2 _ Hr). simpl.
  destruct (launcher_slots g !! "f_next") as [sl|] eqn:Hl;
    destruct (kernel_slots g !! "f_next") as [sk|] eqn:Hk;
    repeat (first [rewrite Hl | rewrite Hk | progress simpl]);
    eexists; (split; [reflexivity|]); simpl; repeat split; eauto.
Qed.

Lemma generate_f_next_total (g : Generator) :
  ∃ g', generate_f_next g = Ok (tt, g')
        ∧ "f_next" ∈ registry g'
        ∧ registry g ⊆ registry g'
        ∧ index_buffer g' = index_buffer g
        ∧ write_buffer g' = write_buffer g
        ∧ python_wrapper_after_buffer g' =
            python_wrapper_after_buffer g
            ++ (if bool_decide ("f_next" ∈ registry g) then []
                else ["simulation.f, simulation.f_next = simulation.f_next, simulation.f"]).
Proof.
  destruct (decide ("f_next" ∈ registry g)) as [Hr|Hr].
  - exists g. rewrite (bool_decide_eq_true_2 _ Hr), app_nil_r.
    split; [apply generate_f_next_registered, Hr|]. repeat split; auto.
  - destruct (generate_f_next_fresh g Hr) as (g' & Hrun & Hreg & Hi & Hw & Ha).
    exists g'. rewrite (bool_decide_eq_false_2 _ Hr), Hreg.
    repeat split; auto.
    + apply elem_of_union_l, elem_of_singleton. reflexivity.
    + apply union_subseteq_r.
Qed.

Section Collaborators.

Variable d : nat.
Variable stencil_generate_q : Gen unit.
Variable stencil_generate_d : Gen unit.
Variable stencil_generate_e : Gen unit.
Variable cuda_generate_offset : Gen unit.
Variable cuda_generate_index : Gen unit.
Variable cuda_generate_dimension : Gen unit.
Variable lattice_get_lattice_coordinate : list string → Gen string.
Variable coordinate_text : list string → string.

Hypothesis generate_q_contract : contract stencil_generate_q.
Hypothesis generate_d_contract : contract stencil_generate_d.
Hypothesis generate_e_contract : contract stencil_generate_e.
Hypothesis generate_offset_contract : contract cuda_generate_offset.
Hypothesis generate_index_contract : contract cuda_generate_index.
Hypothesis generate_dimension_contract : contract cuda_generate_dimension.
Hypothesis get_lattice_coordinate_contract :
  coordinate_contract lattice_get_lattice_coordinate coordinate_text.

Local Abbreviation standard_generate_read_write :=
  (NativeStandardStreaming_generate_read_write d
     stencil_generate_q stencil_generate_e cuda_generate_offset
     cuda_generate_index cuda_generate_dimension
     lattice_get_lattice_coordinate).

Local Abbreviation no_streaming_generate_read_write :=
  (NativeNoStreaming_generate_read_write d
     stencil_generate_q stencil_generate_d cuda_generate_offset
     lattice_get_lattice_coordinate).

Local Abbreviation generate_read_write :=
  (generate_read_write d
     stencil_generate_q stencil_generate_d stencil_generate_e
     cuda_generate_offset cuda_generate_index cuda_generate_dimension
     lattice_get_lattice_coordinate).

Lemma bind_Ok {A B} (m : Gen A) (k : A → Gen B) (g g' : Generator) (b : B) :
  bind m k g = Ok (b, g') → ∃ a g1, m g = Ok (a, g1) ∧ k a g1 = Ok (b, g').
Proof. unfold bind. destruct (m g) as [[a g1]|]; [eauto | discriminate]. Qed.

Lemma bind_registered {B} (key : string) (k : bool → Gen B) (g : Generator) :
  bind (registered key) k g = k (bool_decide (key ∈ registry g)) g.
Proof. reflexivity. Qed.

Lemma effect_refl (g : Generator) : effect [] [] [] g g.
Proof. unfold effect. rewrite !app_nil_r. auto. Qed.

Lemma effect_trans (i1 w1 a1 i2 w2 a2 : list string) (g1 g2 g3 : Generator) :
  effect i1 w1 a1 g1 g2 → effect i2 w2 a2 g2 g3 →
  effect (i1 ++ i2) (w1 ++ w2) (a1 ++ a2) g1 g3.
Proof.
  unfold effect. intros (? & Hi & Hw & Ha) (? & Hi' & Hw' & Ha').
  rewrite Hi', Hw', Ha', Hi, Hw, Ha, !app_assoc. repeat split; [set_solver | ..]; reflexivity.
Qed.

Lemma extends_effect (g g' : Generator) : extends g g' → effect [] [] [] g g'.
Proof.
  unfold extends, effect. intros (? & -> & -> & _ & ->). rewrite !app_nil_r. auto.
Qed.

Lemma append_index_buffer_effect (it : string) (c : bool) (g g' : Generator) (a : unit) :
  append_index_buffer it c g = Ok (a, g') →
  effect (if c then [it] else []) [] [] g g'.
Proof.
  unfold append_index_buffer. intros [= <- <-].
  destruct c; [|apply effect_refl].
  unfold effect; simpl. rewrite !app_nil_r. auto.
Qed.

Lemma append_write_buffer_effect (it : string) (c : bool) (g g' : Generator) (a : unit) :
  append_write_buffer it c g = Ok (a, g') →
  effect [] (if c then [it] else []) [] g g'.
Proof.
  unfold append_write_buffer. intros [= <- <-].
  destruct c; [|apply effect_refl].
  unfold effect; simpl. rewrite !app_nil_r. auto.
Qed.

Lemma register_effect (key : string) (g g' : Generator) (a : unit) :
  register key g = Ok (a, g') →
  registry g' = {[key]} ∪ registry g ∧ effect [] [] [] g g'.
Proof.
  unfold register. intros [= <- <-]. split; [reflexivity|].
  unfold effect; simpl. rewrite !app_nil_r. repeat split; set_solver.
Qed.

Lemma when_no_stream_mask_effect (m : bool) (g g' : Generator) (a : unit) :
  when m generate_no_stream_mask g = Ok (a, g') →
  registry g' = registry g ∧ effect [] [] [] g g'.
Proof.
  destruct m; simpl.
  - destruct (generate_no_stream_mask_total g) as (g1 & -> & _ & _ & Hr & Hi & Hw & Ha).
    intros [= <- <-]. split; [exact Hr|].
    unfold effect. rewrite Hr, Hi, Hw, Ha, !app_nil_r. auto.
  - intros [= <- <-]. split; [reflexivity | apply effect_refl].
Qed.

Lemma generate_f_next_effect (g g' : Generator) (a : unit) :
  generate_f_next g = Ok (a, g') →
  effect [] []
    (if bool_decide ("f_next" ∈ registry g) then []
     else ["simulation.f, simulation.f_next = simulation.f_next, simulation.f"])
    g g'.
Proof.
  destruct (generate_f_next_total g) as (g1 & -> & _ & Hr & Hi & Hw & Ha).
  intros [= <- <-]. unfold effect. rewrite Hi, Hw, Ha, !app_nil_r. auto.
Qed.

(** The guard: nothing happens once ["read_write()"] is registered. *)
Lemma generate_read_write_registered (self : NativeStreaming) (g : Generator) :
  "read_write()" ∈ registry g → generate_read_write self g = Ok (tt, g).
Proof.
  intros Hr. destruct self as [|m]; simpl;
    unfold NativeNoStreaming_generate_read_write,
      NativeStandardStreaming_generate_read_write;
    rewrite bind_registered, (bool_decide_eq_true_2 _ Hr); reflexivity.
Qed.

Lemma when_true (body : Gen unit) : when true body = body.
Proof. reflexivity. Qed.

Lemma strip_spaces_app (a b : string) :
  Kernel.strip_spaces (a +:+ b) = Kernel.strip_spaces a +:+ Kernel.strip_spaces b.
Proof.
  induction a as [|c a IH]; [reflexivity|].
  change (String c a +:+ b) with (String c (a +:+ b)).
  simpl. rewrite IH. destruct (Ascii.eqb c _); reflexivity.
Qed.

Lemma squeeze_app (l k : list string) :
  Kernel.squeeze (l ++ k) = Kernel.squeeze l ++ Kernel.squeeze k.
Proof. unfold Kernel.squeeze. rewrite fmap_app, filter_app. reflexivity. Qed.

(** One contribution of a sequence, its effect added to what came before. *)
Ltac step H Hacc :=
  let a := fresh "a" in
  let g1 := fresh "g" in
  let H1 := fresh "H1" in
  apply bind_Ok in H as (a & g1 & H1 & H);
  first
    [ apply append_index_buffer_effect in H1
    | apply append_write_buffer_effect in H1
    | apply (generate_q_contract _ _ _) in H1; apply extends_effect in H1
    | apply (generate_d_contract _ _ _) in H1; apply extends_effect in H1
    | apply (generate_e_contract _ _ _) in H1; apply extends_effect in H1
    | apply (generate_offset_contract _ _ _) in H1; apply extends_effect in H1
    | apply (generate_index_contract _ _ _) in H1; apply extends_effect in H1
    | apply (generate_dimension_contract _ _ _) in H1; apply extends_effect in H1
    | apply (get_lattice_coordinate_contract _ _ _ _) in H1 as [-> H1];
      apply extends_effect in H1 ];
  let Hacc' := fresh "Hacc" in
  pose proof (effect_trans _ _ _ _ _ _ _ _ _ Hacc H1) as Hacc';
  clear Hacc H1; rename Hacc' into Hacc.

Ltac last_step H Hacc :=
  first [ apply append_index_buffer_effect in H
        | apply append_write_buffer_effect in H ];
  let Hacc' := fresh "Hacc" in
  pose proof (effect_trans _ _ _ _ _ _ _ _ _ Hacc H) as Hacc';
  clear Hacc H; rename Hacc' into Hacc.

Lemma axes_ge_3 (n : nat) : Kernel.axes (S (S (S n))) = [0; 1; 2]%nat.
Proof. unfold Kernel.axes. replace (S (S (S n)) `min` 3)%nat with 3%nat by lia. reflexivity. Qed.

Lemma take_all {A} (n : nat) (x y z : A) : take (S (S (S n))) [x; y; z] = [x; y; z].
Proof. simpl. rewrite firstn_nil. reflexivity. Qed.

Lemma take_all_4 {A} (n : nat) (w x y z : A) :
  take (S (S (S (S n)))) [w; x; y; z] = [w; x; y; z].
Proof. simpl. rewrite firstn_nil. reflexivity. Qed.

(** Comparing a buffer with printed statements, line by line. *)
Lemma squeeze_nil : Kernel.squeeze [] = Kernel.strip_spaces <$> [].
Proof. reflexivity. Qed.

Lemma squeeze_blank (l : string) (L R : list string) :
  Kernel.strip_spaces l = EmptyString →
  Kernel.squeeze L = R → Kernel.squeeze (l :: L) = R.
Proof.
  intros Hl <-. unfold Kernel.squeeze. rewrite fmap_cons, Hl.
  apply filter_cons_False. intros H. apply H. reflexivity.
Qed.

Lemma squeeze_line (l k : string) (L K : list string) :
  Kernel.strip_spaces l = Kernel.strip_spaces k →
  Kernel.strip_spaces k ≠ EmptyString →
  Kernel.squeeze L = Kernel.strip_spaces <$> K →
  Kernel.squeeze (l :: L) = Kernel.strip_spaces <$> (k :: K).
Proof.
  intros Hl Hk HL. unfold Kernel.squeeze in *. rewrite !fmap_cons, Hl.
  rewrite filter_cons_True by exact Hk. rewrite HL. reflexivity.
Qed.

(** Text after an interpolated coordinate. *)
Lemma strip_spaces_suffix (x s s' : string) :
  Kernel.strip_spaces s = Kernel.strip_spaces s' →
  Kernel.strip_spaces (x +:+ s) = Kernel.strip_spaces (x +:+ s').
Proof. intros H. rewrite !strip_spaces_app, H. reflexivity. Qed.

Lemma strip_spaces_suffix_nested (x s s1 s2 : string) :
  Kernel.strip_spaces s = Kernel.strip_spaces (s1 +:+ s2) →
  Kernel.strip_spaces (x +:+ s) = Kernel.strip_spaces ((x +:+ s1) +:+ s2).
Proof. intros H. rewrite StringFacts.append_assoc, !(strip_spaces_app x), H. reflexivity. Qed.

Ltac line_eq :=
  vm_compute;
  first [ reflexivity
        | repeat apply (f_equal (String _));
          first [ apply strip_spaces_suffix | apply strip_spaces_suffix_nested ];
          vm_compute; reflexivity ].

Ltac compare_text :=
  repeat match goal with
         | H : effect _ _ _ _ _ |- _ => clear H
         | H : _ = _ |- _ => clear H
         | H : _ ⊆ _ |- _ => clear H
         | H : _ ∉ _ |- _ => clear H
         | H : unit |- _ => clear H
         | H : Generator |- _ => clear H
         end;
  unfold Kernel.read_block, Kernel.standard_write_block,
    Kernel.no_streaming_write_block, Kernel.stream_to_neighbour,
    Kernel.neighbour_cell, Kernel.own_cell, Kernel.coord_exprs,
    Kernel.mask_coord_exprs;
  rewrite ?axes_ge_3, ?take_all, ?take_all_4;
  match goal with
  | |- Kernel.squeeze ?L = Kernel.strip_spaces <$> ?K =>
      let L' := eval cbv [app take firstn Nat.ltb Nat.leb andb] in L in
      let K' := eval cbv [app fmap list_fmap Kernel.print_stmt
                          Kernel.neighbour_axis Kernel.seq_stmts foldr
                          Kernel.axes Kernel.axis_var seq Nat.min
                          Kernel.print_cond compose String.concat] in K in
      change (Kernel.squeeze L' = Kernel.strip_spaces <$> K')
  end;
  repeat first
    [ apply squeeze_nil
    | apply squeeze_blank; [vm_compute; reflexivity |]
    | apply squeeze_line; [line_eq | vm_compute; discriminate |] ].

(** What the first call of the standard variant contributes: the key, the
    swap, and a read and a write-back block whose text is, up to blanks,
    the printed [read_block] and [standard_write_block]. *)
Lemma standard_generate_read_write_fresh (m : bool) (g g' : Generator) :
  "read_write()" ∉ registry g →
  standard_generate_read_write m g = Ok (tt, g') →
  "read_write()" ∈ registry g'
  ∧ Kernel.squeeze (index_buffer g') =
      Kernel.squeeze (index_buffer g)
      ++ (Kernel.strip_spaces <$> Kernel.print_stmt coordinate_text (Kernel.read_block d))
  ∧ Kernel.squeeze (write_buffer g') =
      Kernel.squeeze (write_buffer g)
      ++ (Kernel.strip_spaces <$>
            Kernel.print_stmt coordinate_text (Kernel.standard_write_block m d))
  ∧ python_wrapper_after_buffer g' =
      python_wrapper_after_buffer g
      ++ (if bool_decide ("f_next" ∈ registry g) then []
          else ["simulation.f, simulation.f_next = simulation.f_next, simulation.f"]).
Proof.
  intros Hr H.
  unfold NativeStandardStreaming_generate_read_write in H.
  rewrite bind_registered, (bool_decide_eq_false_2 _ Hr) in H.
  change (negb false) with true in H. rewrite when_true in H.
  apply bind_Ok in H as (a1 & g1 & H1 & H).
  apply register_effect in H1 as [Hreg1 (_ & Hi1 & Hw1 & Ha1)].
  rewrite app_nil_r in Hi1, Hw1, Ha1.
  apply bind_Ok in H as (a2 & g2 & H2 & H).
  apply when_no_stream_mask_effect in H2 as [Hreg2 Hacc].
  apply bind_Ok in H as (a3 & g3 & H3 & H).
  apply generate_f_next_effect in H3.
  assert (Hsame : bool_decide ("f_next" ∈ registry g2)
                  = bool_decide ("f_next" ∈ registry g)).
  { apply bool_decide_ext. rewrite Hreg2, Hreg1, elem_of_union, elem_of_singleton.
    split; [intros [[=]|?]; assumption | auto]. }
  rewrite Hsame in H3.
  pose proof (effect_trans _ _ _ _ _ _ _ _ _ Hacc H3) as Hacc'.
  clear Hacc H3. rename Hacc' into Hacc.
  do 53 step H Hacc. last_step H Hacc.
  destruct Hacc as (Hsub & Hi & Hw & Ha).
  rewrite Hi1 in Hi. rewrite Hw1 in Hw. rewrite Ha1 in Ha.
  split; [apply Hsub; rewrite Hreg1; apply elem_of_union_l, elem_of_singleton; reflexivity|].
  split; [|split].
  - rewrite Hi, squeeze_app. apply (f_equal (app _)).
    destruct d as [|[|[|d']]]; compare_text.
  - rewrite Hw, squeeze_app. apply (f_equal (app _)).
    destruct m, d as [|[|[|d']]]; compare_text.
  - rewrite Ha. apply (f_equal (app _)). cbn [app]. rewrite !app_nil_r. reflexivity.
Qed.

Lemma no_streaming_generate_read_write_fresh (g g' : Generator) :
  "read_write()" ∉ registry g →
  no_streaming_generate_read_write g = Ok (tt, g') →
  "read_write()" ∈ registry g'
  ∧ Kernel.squeeze (index_buffer g') =
      Kernel.squeeze (index_buffer g)
      ++ (Kernel.strip_spaces <$> Kernel.print_stmt coordinate_text (Kernel.read_block d))
  ∧ Kernel.squeeze (write_buffer g') =
      Kernel.squeeze (write_buffer g)
      ++ (Kernel.strip_spaces <$>
            Kernel.print_stmt coordinate_text (Kernel.no_streaming_write_block d))
  ∧ python_wrapper_after_buffer g' = python_wrapper_after_buffer g.
Proof.
  intros Hr H.
  unfold NativeNoStreaming_generate_read_write in H.
  rewrite bind_registered, (bool_decide_eq_false_2 _ Hr) in H.
  change (negb false) with true in H. rewrite when_true in H.
  apply bind_Ok in H as (a1 & g1 & H1 & H).
  apply register_effect in H1 as [Hreg1 (_ & Hi1 & Hw1 & Ha1)].
  rewrite app_nil_r in Hi1, Hw1, Ha1.
  pose proof (effect_refl g1) as Hacc.
  do 29 step H Hacc. last_step H Hacc.
  destruct Hacc as (Hsub & Hi & Hw & Ha).
  rewrite Hi1 in Hi. rewrite Hw1 in Hw. rewrite Ha1 in Ha.
  split; [apply Hsub; rewrite Hreg1; apply elem_of_union_l, elem_of_singleton; reflexivity|].
  split; [|split].
  - rewrite Hi, squeeze_app. apply (f_equal (app _)).
    destruct d as [|[|[|d']]]; compare_text.
  - rewrite Hw, squeeze_app. apply (f_equal (app _)).
    destruct d as [|[|[|d']]]; compare_text.
  - rewrite Ha. cbn [app]. rewrite !app_nil_r. reflexivity.
Qed.

Lemma generate_read_write_registers (self : NativeStreaming) (g g' : Generator) :
  generate_read_write self g = Ok (tt, g') → "read_write()" ∈ registry g'.
Proof.
  intros H. destruct (decide ("read_write()" ∈ registry g)) as [Hr|Hr].
  - rewrite (generate_read_write_registered self g Hr) in H.
    injection H as <-. exact Hr.
  - destruct self as [|m]; simpl in H.
    + apply (no_streaming_generate_read_write_fresh g g' Hr H).
    + apply (standard_generate_read_write_fresh m g g' Hr H).
Qed.

(** C6.  A fragment is emitted at most once in a generation run.  Each
    [generate_*] method of the streaming component checks its key (the
    registry for ["read_write()"] and ["f_next"], the slot table for
    ["no_stream_mask"]) before it emits: it does nothing on a generator
    where the key is present, it leaves the key present, and therefore a
    second call (of either streaming variant, for ["read_write()"])
    returns the generator as the first call left it. *)
Theorem fragments_emitted_once :
  (∀ g, ∃ g', generate_no_stream_mask g = Ok (tt, g')
              ∧ generate_no_stream_mask g' = Ok (tt, g'))
  ∧ (∀ g, "f_next" ∈ registry g → generate_f_next g = Ok (tt, g))
  ∧ (∀ g, ∃ g', generate_f_next g = Ok (tt, g')
                ∧ generate_f_next g' = Ok (tt, g'))
  ∧ (∀ self g, "read_write()" ∈ registry g →
        generate_read_write self g = Ok (tt, g))
  ∧ (∀ self self' g g',
        generate_read_write self g = Ok (tt, g') →
        generate_read_write self' g' = Ok (tt, g')).
Proof.
  split; [|split; [|split; [|split]]].
  - intros g. destruct (generate_no_stream_mask_total g) as (g' & Hrun & Hl & Hk & _).
    exists g'. split; [exact Hrun|]. apply generate_no_stream_mask_hooked; assumption.
  - exact generate_f_next_registered.
  - intros g. destruct (generate_f_next_total g) as (g' & Hrun & Hr & _).
    exists g'. split; [exact Hrun|]. apply generate_f_next_registered, Hr.
  - exact generate_read_write_registered.
  - intros self self' g g' H.
    apply generate_read_write_registered, (generate_read_write_registers self g g' H).
Qed.

(** C8.  When [generate_f_next] contributes the ["f_next"] fragment it
    appends to the post-launch block exactly the statement
    [simulation.f, simulation.f_next = simulation.f_next, simulation.f];
    a generation run of the standard streaming component that starts from
    the reset generator ends with that statement as the only line of the
    post-launch block, and later calls leave it so.  The statement is a
    tuple assignment: it exchanges the two references held by the
    attributes, and a wrapper step that runs it after the launch leaves
    the tensors as the kernel wrote them. *)
Theorem swap_appended_once :
  (∀ g, "f_next" ∉ registry g →
      ∃ g', generate_f_next g = Ok (tt, g')
            ∧ "f_next" ∈ registry g'
            ∧ python_wrapper_after_buffer g' =
                python_wrapper_after_buffer g ++ [Wrapper.print_py Wrapper.swap])
  ∧ (∀ g, "f_next" ∈ registry g → generate_f_next g = Ok (tt, g))
  ∧ (∀ m g',
        standard_generate_read_write m reset = Ok (tt, g') →
        python_wrapper_after_buffer g' = [Wrapper.print_py Wrapper.swap]
        ∧ ∀ self, generate_read_write self g' = Ok (tt, g'))
  ∧ (∀ (ref heap : Type) (launch : Wrapper.attributes ref → heap → heap)
       (env : Wrapper.attributes ref) (h : heap) (rf rn : ref),
        env !! ("simulation", "f") = Some rf →
        env !! ("simulation", "f_next") = Some rn →
        ∃ env',
          Wrapper.exec_py ref Wrapper.swap env = Some env'
          ∧ Wrapper.wrapper_step ref launch [Wrapper.swap] env h
              = Some (env', launch env h)
          ∧ env' !! ("simulation", "f") = Some rn
          ∧ env' !! ("simulation", "f_next") = Some rf
          ∧ ∀ k, k ≠ ("simulation", "f") → k ≠ ("simulation", "f_next") →
                 env' !! k = env !! k).
Proof.
  split; [|split; [|split]].
  - intros g Hr. destruct (generate_f_next_fresh g Hr) as (g' & Hrun & Hreg & _ & _ & Ha).
    exists g'. split; [exact Hrun|]. split; [|exact Ha].
    rewrite Hreg. apply elem_of_union_l, elem_of_singleton. reflexivity.
  - exact generate_f_next_registered.
  - intros m g' H.
    assert (Hr : "read_write()" ∉ registry reset) by apply not_elem_of_empty.
    destruct (standard_generate_read_write_fresh m reset g' Hr H) as (Hreg & _ & _ & Ha).
    split.
    + rewrite Ha. reflexivity.
    + intros self. apply generate_read_write_registered, Hreg.
  - intros ref heap launch env h rf rn Hf Hn.
    assert (Hexec : Wrapper.exec_py ref Wrapper.swap env
              = Some (<[("simulation", "f_next") := rf]>
                        (<[("simulation", "f") := rn]> env))).
    { unfold Wrapper.exec_py, Wrapper.swap. cbn [mapM Wrapper.key].
      rewrite Hn, Hf. reflexivity. }
    eexists. split; [exact Hexec|]. split; [|split; [|split]].
    + unfold Wrapper.wrapper_step. cbn [foldl]. cbn [mbind option_bind].
      rewrite Hexec. reflexivity.
    + rewrite lookup_insert_ne by discriminate. apply lookup_insert_eq.
    + apply lookup_insert_eq.
    + intros k Hkf Hkn. rewrite !lookup_insert_ne by congruence. reflexivity.
Qed.

End Collaborators.

Lemma fragments_emitted_once_witness :
  ∃ g', Sample.standard_generate_read_write true reset = Ok (tt, g')
        ∧ Sample.no_streaming_generate_read_write g' = Ok (tt, g').
Proof.
  destruct (Sample.standard_generate_read_write true reset) as [[[] g']|] eqn:Hrun;
    [|vm_compute in Hrun; discriminate Hrun].
  exists g'. split; [reflexivity|].
  destruct (fragments_emitted_once 2
              Sample.generate_q Sample.generate_d Sample.generate_e
              Sample.generate_offset Sample.generate_index Sample.generate_dimension
              Sample.get_lattice_coordinate Sample.coordinate_text) as (_ & _ & _ & _ & Honce).
  - apply primitive_contract.
  - apply primitive_contract.
  - apply primitive_contract.
  - apply primitive_contract.
  - apply primitive_contract.
  - apply primitive_contract.
  - intros names g a g1 [= <- <-]. split; [reflexivity | apply extends_refl].
  - exact (Honce (NativeStandardStreaming true) NativeNoStreaming reset g' Hrun).
Defined.

Lemma swap_appended_once_witness :
  ∃ g', Sample.standard_generate_read_write false reset = Ok (tt, g')
        ∧ python_wrapper_after_buffer g'
          = ["simulation.f, simulation.f_next = simulation.f_next, simulation.f"].
Proof.
  destruct (Sample.standard_generate_read_write false reset) as [[[] g']|] eqn:Hrun;
    [|vm_compute in Hrun; discriminate Hrun].
  exists g'. split; [reflexivity|].
  destruct (swap_appended_once 2
              Sample.generate_q Sample.generate_d Sample.generate_e
              Sample.generate_offset Sample.generate_index Sample.generate_dimension
              Sample.get_lattice_coordinate Sample.coordinate_text) as (_ & _ & Hrun_once & _).
  - apply primitive_contract.
  - apply primitive_contract.
  - apply primitive_contract.
  - apply primitive_contract.
  - apply primitive_contract.
  - apply primitive_contract.
  - intros names g a g1 [= <- <-]. split; [reflexivity | apply extends_refl].
  - exact (proj1 (Hrun_once false g' Hrun)).
Defined.

(** The names of the four streaming configurations. *)
Example streaming_names :
  name (NativeNoStreaming_create true) = "no"
  ∧ name (NativeStandardStreaming_create false) = "standard"
  ∧ name (NativeStandardStreaming_create true) = "standardM".
Proof. repeat split; reflexivity. Qed.

End StreamingFacts.

(** ** Generation is deterministic *)

Module OrchestratorFacts.
Import Generator Streaming Orchestrator.



End OrchestratorFacts.

(** ** The emitted kernel fragment: periodic streaming and the mask *)

Module KernelFacts.
Import Kernel.

Section Thread.

Variable V : Type.
Variable K : launch.

Local Abbreviation st_ vs regs m :=
  ({| vars := vs; f_reg := regs; mem := m |} : state V).

(** *** Scopes *)

Lemma filter_dom_self (vs : gmap string Z) :
  filter (λ kv, kv.1 ∈ dom vs) vs = vs.
Proof.
  apply map_filter_id. intros i x Hi. simpl. apply elem_of_dom. eauto.
Qed.

Lemma filter_dom_fresh (outer vs : gmap string Z) (x : string) (v : Z) :
  outer !! x = None →
  filter (λ kv, kv.1 ∈ dom outer) (<[x := v]> vs)
  = filter (λ kv, kv.1 ∈ dom outer) vs.
Proof.
  intros Hx. apply map_filter_insert_not. intros y. simpl.
  apply not_elem_of_dom. exact Hx.
Qed.

Lemma filter_dom_update (outer : gmap string Z) (x : string) (v : Z) :
  is_Some (outer !! x) →
  filter (λ kv, kv.1 ∈ dom outer) (<[x := v]> outer) = <[x := v]> outer.
Proof.
  intros Hx. apply map_filter_id. intros j y Hj. simpl. apply elem_of_dom.
  destruct (decide (x = j)) as [<-|Hne]; [exact Hx|].
  rewrite lookup_insert_ne in Hj by exact Hne. eauto.
Qed.

(** *** Rules for the statements *)

Lemma exec_seq (s1 s2 : stmt) (st st1 st2 : state V) :
  exec K s1 st = Some st1 → exec K s2 st1 = Some st2 →
  exec K (SSeq s1 s2) st = Some st2.
Proof. intros H1 H2. simpl. rewrite H1. exact H2. Qed.

Lemma exec_decl (c : bool) (x : string) (a : expr) (v : Z)
    (vs : gmap string Z) regs m :
  eval K vs a = Some v → vs !! x = None →
  exec K (SDecl c x a) (st_ vs regs m) = Some (st_ (<[x := v]> vs) regs m).
Proof. intros Ha Hx. simpl. rewrite Ha. simpl. rewrite Hx. reflexivity. Qed.

(** One axis of the neighbour computation leaves the wrapped coordinate
    in the axis variable. *)
Lemma exec_neighbour_axis (k : nat) (i : nat) (c ev n : Z) (row : list Z)
    (vs : gmap string Z) regs m :
  index K !! k = Some c →
  e K !! i = Some row → row !! k = Some ev →
  dimension K !! k = Some n →
  vs !! "i" = Some (Z.of_nat i) →
  vs !! axis_var k = None →
  exec K (neighbour_axis k) (st_ vs regs m)
  = Some (st_ (<[axis_var k := wraparound (c + ev) n]> vs) regs m).
Proof.
  intros Hc Hrow Hev Hn Hi Hx.
  assert (Hne : axis_var k ≠ "i") by (intros E; rewrite E in Hx; congruence).
  unfold neighbour_axis.
  eapply exec_seq.
  { apply exec_decl; [|exact Hx]. simpl. rewrite Hc, Hi. simpl.
    destruct (decide (0 ≤ Z.of_nat i)%Z) as [_|]; [|lia].
    rewrite Nat2Z.id, Hrow. simpl. rewrite Hev. reflexivity. }
  cbn [exec eval_cond eval vars f_reg mem].
  rewrite !lookup_insert_eq. cbn [mbind option_bind].
  unfold wraparound.
  destruct (decide (c + ev < 0)%Z) as [Hlt|Hge].
  - rewrite (bool_decide_eq_true_2 _ Hlt).
    cbn [exec eval vars f_reg mem mbind option_bind].
    rewrite ?lookup_insert_eq, ?Hn. cbn [mbind option_bind].
    unfold leave_scope. cbn [vars f_reg mem]. f_equal. f_equal.
    rewrite filter_dom_update by (rewrite lookup_insert_eq; eauto).
    apply insert_insert_eq.
  - rewrite (bool_decide_eq_false_2 _ Hge).
    cbn [exec eval_cond eval vars f_reg mem mbind option_bind].
    rewrite ?lookup_insert_eq, ?Hn. cbn [mbind option_bind].
    destruct (decide (c + ev >= n)%Z) as [Hbig|Hin].
    + rewrite (bool_decide_eq_true_2 _ Hbig).
      cbn [exec eval vars f_reg mem mbind option_bind].
      rewrite ?lookup_insert_eq, ?Hn. cbn [mbind option_bind].
      unfold leave_scope. cbn [vars f_reg mem]. f_equal. f_equal.
      rewrite filter_dom_update by (rewrite lookup_insert_eq; eauto).
      rewrite filter_dom_update by (rewrite lookup_insert_eq; eauto).
      apply insert_insert_eq.
    + rewrite (bool_decide_eq_false_2 _ Hin).
      cbn [exec vars f_reg mem mbind option_bind].
      unfold leave_scope. cbn [vars f_reg mem]. f_equal. f_equal.
      rewrite !filter_dom_self. reflexivity.
Qed.

Lemma exec_store (arr r : string) (coord : list expr) (cv : list Z) (ri : nat)
    (v : V) (vs : gmap string Z) (regs : list (option V)) m :
  vs !! r = Some (Z.of_nat ri) →
  mapM (eval K vs) coord = Some cv →
  regs !! ri = Some (Some v) →
  is_Some (m !! (arr, cv)) →
  exec K (SStore arr coord r) (st_ vs (Some regs) m)
  = Some (st_ vs (Some regs) (<[(arr, cv) := v]> m)).
Proof.
  intros Hr Hcv Hv Hm. cbn [exec f_reg vars mem mbind option_bind].
  unfold reg_index. rewrite Hr. cbn [mbind option_bind].
  destruct (decide (0 ≤ Z.of_nat ri)%Z) as [_|]; [|lia].
  cbn [mbind option_bind]. rewrite Hcv. cbn [mbind option_bind].
  rewrite Nat2Z.id, Hv. cbn [mjoin option_join mbind option_bind].
  destruct (decide (is_Some (m !! (arr, cv)))) as [_|]; [reflexivity|contradiction].
Qed.

Lemma exec_load (arr r : string) (coord : list expr) (cv : list Z) (ri : nat)
    (v : V) (vs : gmap string Z) (regs : list (option V)) m :
  vs !! r = Some (Z.of_nat ri) →
  mapM (eval K vs) coord = Some cv →
  m !! (arr, cv) = Some v →
  (ri < length regs)%nat →
  exec K (SLoad r arr coord) (st_ vs (Some regs) m)
  = Some (st_ vs (Some (<[ri := Some v]> regs)) m).
Proof.
  intros Hr Hcv Hv Hri. cbn [exec f_reg vars mem mbind option_bind].
  unfold reg_index. rewrite Hr. cbn [mbind option_bind].
  destruct (decide (0 ≤ Z.of_nat ri)%Z) as [_|]; [|lia].
  cbn [mbind option_bind]. rewrite Hcv. cbn [mbind option_bind].
  rewrite Hv. cbn [mbind option_bind]. rewrite Nat2Z.id.
  destruct (decide (ri < length regs)%nat) as [_|]; [reflexivity|contradiction].
Qed.

Lemma exec_if_block (c : cond) (s1 s2 : stmt) (b : bool) (st st' : state V) :
  eval_cond K (vars st) c = Some b →
  exec K (if b then s1 else s2) st = Some st' →
  exec K (SIfBlock c s1 s2) st = Some (leave_scope (vars st) st').
Proof.
  intros Hc Hrun. cbn [exec]. rewrite Hc. cbn [mbind option_bind].
  destruct b; rewrite Hrun; reflexivity.
Qed.

(** The loop runs its body once for each direction, in a scope of its
    own, and establishes whatever the body maintains. *)
Lemma exec_for (i : string) (body : stmt) (vs0 : gmap string Z)
    (Inv : nat → option (list (option V)) → gmap (string * list Z) V → Prop)
    r0 m0 :
  vs0 !! i = None →
  Inv 0%nat r0 m0 →
  (∀ k r m, (k < q K)%nat → Inv k r m →
     ∃ st', exec K body (st_ (<[i := Z.of_nat k]> vs0) r m) = Some st'
            ∧ vars st' !! i = Some (Z.of_nat k)
            ∧ filter (λ kv, kv.1 ∈ dom vs0) (vars st') = vs0
            ∧ Inv (S k) (f_reg st') (mem st')) →
  ∃ r m, exec K (SFor i body) (st_ vs0 r0 m0) = Some (st_ vs0 r m)
         ∧ Inv (q K) r m.
Proof.
  intros Hi H0 Hbody. cbn [exec].
  set (iter := λ (acc : option (state V)) (k : nat), _).
  assert (Hn : ∀ n, (n ≤ q K)%nat →
            ∃ r m, foldl iter (Some (st_ vs0 r0 m0)) (seq 0 n) = Some (st_ vs0 r m)
                   ∧ Inv n r m).
  { induction n as [|n IH]; intros Hle.
    - exists r0, m0. split; [reflexivity | exact H0].
    - destruct IH as (r & m & Hrun & HInv); [lia|].
      destruct (Hbody n r m ltac:(lia) HInv) as (st' & Hst' & Hi' & Hscope & HInv').
      exists (f_reg st'), (mem st').
      rewrite seq_S, foldl_app, Hrun. cbn [foldl Nat.add].
      unfold iter at 1. cbn [mbind option_bind vars f_reg mem].
      rewrite Hi, Hst'. cbn [mbind option_bind].
      destruct (decide (vars st' !! i = Some (Z.of_nat n))) as [_|]; [|contradiction].
      unfold leave_scope. rewrite Hscope. split; [reflexivity | exact HInv']. }
  exact (Hn (q K) ltac:(lia)).
Qed.

(** *** The blocks of the streaming component *)

(** Running a block statement by statement. *)
Ltac run_block :=
  lazymatch goal with
  | |- exec _ (SSeq _ _) _ = Some _ => eapply exec_seq; [run_block | run_block]
  | |- exec _ SSkip _ = Some _ => reflexivity
  | |- exec _ (neighbour_axis _) _ = Some _ => eapply exec_neighbour_axis
  | |- exec _ (SDecl _ _ _) _ = Some _ => eapply exec_decl
  | |- exec _ (SStore _ _ _) _ = Some _ => eapply exec_store
  | |- exec _ (SLoad _ _ _) _ = Some _ => eapply exec_load
  end.

(** The value of a coordinate tuple. *)
Ltac coordinates Hq_ :=
  cbn [mapM eval];
  repeat first
    [ rewrite lookup_insert_eq
    | rewrite lookup_insert_ne by discriminate
    | rewrite Hq_
    | progress cbn [mbind option_bind mret option_ret] ];
  reflexivity.

Lemma filter_dom_agree (outer vs : gmap string Z) :
  (∀ x, is_Some (outer !! x) → vs !! x = outer !! x) →
  filter (λ kv, kv.1 ∈ dom outer) vs = outer.
Proof.
  intros Hagree. apply map_eq. intros x. rewrite map_lookup_filter.
  destruct (outer !! x) as [v|] eqn:Hx.
  - rewrite (Hagree x) by eauto. rewrite Hx. simpl.
    rewrite option_guard_True; [reflexivity|]. simpl. apply elem_of_dom. eauto.
  - destruct (vs !! x) as [y|]; [|reflexivity]. simpl.
    rewrite option_guard_False; [reflexivity|]. simpl.
    apply not_elem_of_dom. exact Hx.
Qed.

(** The unmasked path: the population of direction [i] goes to the
    neighbour cell the specification describes. *)
Lemma exec_stream_to_neighbour (d i : nat) (row : list Z) (v : V)
    (vs : gmap string Z) (regs : list (option V)) m :
  well_formed d K →
  vs !! "i" = Some (Z.of_nat i) → vs !! "q_" = Some (Z.of_nat i) →
  vs !! "x_" = None → vs !! "y_" = None → vs !! "z_" = None →
  e K !! i = Some row →
  regs !! i = Some (Some v) →
  is_Some (m !! ("f_next",
                 Z.of_nat i :: neighbour_spec (index K) row (dimension K))) →
  ∃ vs', exec K (stream_to_neighbour d) (st_ vs (Some regs) m)
         = Some (st_ vs' (Some regs)
                   (<[("f_next",
                       Z.of_nat i :: neighbour_spec (index K) row (dimension K))
                      := v]> m))
         ∧ ∀ x, x ≠ "x_" → x ≠ "y_" → x ≠ "z_" → vs' !! x = vs !! x.
Proof.
  intros (Hd & Hidx & Hdim & Hq & Hrows) Hi Hq_ Hx Hy Hz Hrow Hv Hm.
  pose proof (proj1 (Forall_lookup _ _) Hrows _ _ Hrow) as Hlen. cbv beta in Hlen.
  destruct d as [|[|[|[|?]]]]; try lia;
    destruct (index K) as [|c0 [|c1 [|c2 [|? ?]]]] eqn:Eidx; try discriminate;
    destruct (dimension K) as [|n0 [|n1 [|n2 [|? ?]]]] eqn:Edim; try discriminate;
    destruct row as [|e0 [|e1 [|e2 [|? ?]]]]; try discriminate;
    unfold stream_to_neighbour, neighbour_cell, coord_exprs, axes;
    cbn [Nat.min seq fmap list_fmap seq_stmts foldr compose axis_var] in *;
    cbn [neighbour_spec zip zip_with fst snd] in *.
  all: eexists; split;
    [ run_block;
      rewrite ?Eidx, ?Edim; cbn [axis_var];
      first [ eassumption
            | reflexivity
            | rewrite ?lookup_insert_ne by discriminate; eassumption
            | coordinates Hq_ ]
    | intros x Hnx Hny Hnz; cbn [axis_var];
      rewrite ?lookup_insert_ne by congruence; reflexivity ].
Qed.

(** The cell's own coordinate: after [own_cell], the coordinate
    expressions denote the direction and the cell of the thread. *)
Lemma exec_own_cell (d : nat) (qv : Z) (vs : gmap string Z) regs m :
  (d ≤ 3)%nat → length (index K) = d →
  vs !! "q_" = Some qv →
  vs !! "x_" = None → vs !! "y_" = None → vs !! "z_" = None →
  ∃ vs', exec K (own_cell d) (st_ vs regs m) = Some (st_ vs' regs m)
         ∧ mapM (eval K vs') (coord_exprs d) = Some (qv :: index K)
         ∧ ∀ x, x ≠ "x_" → x ≠ "y_" → x ≠ "z_" → vs' !! x = vs !! x.
Proof.
  intros Hd Hidx Hq_ Hx Hy Hz.
  destruct d as [|[|[|[|?]]]]; try lia;
    destruct (index K) as [|c0 [|c1 [|c2 [|? ?]]]] eqn:Eidx; try discriminate;
    unfold own_cell, coord_exprs, axes;
    cbn [Nat.min seq fmap list_fmap seq_stmts foldr compose axis_var] in *.
  all: eexists; split;
    [ run_block;
      first [ cbn [eval]; rewrite Eidx; reflexivity
            | cbn [axis_var]; rewrite ?lookup_insert_ne by discriminate;
              eassumption ]
    | split;
      [ coordinates Hq_
      | intros x Hnx Hny Hnz; cbn [axis_var];
        rewrite ?lookup_insert_ne by congruence; reflexivity ] ].
Qed.

(** The mask is read at the cell of the thread. *)
Lemma eval_mask (d : nat) (vs : gmap string Z) :
  (d ≤ 3)%nat → length (index K) = d →
  eval_cond K vs (CMask (mask_coord_exprs d)) = no_stream_mask K !! index K.
Proof.
  intros Hd Hidx.
  destruct d as [|[|[|[|?]]]]; try lia;
    destruct (index K) as [|c0 [|c1 [|c2 [|? ?]]]] eqn:Eidx; try discriminate;
    unfold mask_coord_exprs, axes;
    cbn [Nat.min seq fmap list_fmap eval_cond mapM eval mbind option_bind];
    rewrite ?Eidx; reflexivity.
Qed.

(** One iteration of the write-back loop of standard streaming: direction
    [i] is stored in [f_next], at the thread's own cell when the mask is
    supported and set there, at the neighbour otherwise. *)
Lemma exec_standard_write_body (mask : bool) (d i : nat) (v : V)
    (vs0 : gmap string Z) (regs : list (option V)) m :
  (d ≤ 3)%nat → length (index K) = d →
  (mask && default false (no_stream_mask K !! index K) = false →
   well_formed d K) →
  (mask = true → is_Some (no_stream_mask K !! index K)) →
  fresh_locals vs0 →
  (i < q K)%nat →
  regs !! i = Some (Some v) →
  is_Some (m !! ("f_next", Z.of_nat i :: target K mask i)) →
  ∃ st', exec K (seq_stmts
                   [SDecl true "q_" (EVar "i");
                    if mask
                    then SIfBlock (CMask (mask_coord_exprs d))
                           (SSeq (own_cell d) (SStore "f_next" (coord_exprs d) "i"))
                           (stream_to_neighbour d)
                    else stream_to_neighbour d])
                (st_ (<["i" := Z.of_nat i]> vs0) (Some regs) m) = Some st'
         ∧ vars st' !! "i" = Some (Z.of_nat i)
         ∧ filter (λ kv, kv.1 ∈ dom vs0) (vars st') = vs0
         ∧ f_reg st' = Some regs
         ∧ mem st' = <[("f_next", Z.of_nat i :: target K mask i) := v]> m.
Proof.
  intros Hd Hidx Hwf Hmask Hfresh Hiq Hv Hm.
  assert (Hrow : mask && default false (no_stream_mask K !! index K) = false →
            ∃ row, e K !! i = Some row).
  { intros Hunmasked. destruct (Hwf Hunmasked) as (_ & _ & _ & Hlen & _).
    apply lookup_lt_is_Some_2. lia. }
  unfold fresh_locals in Hfresh.
  rewrite !Forall_cons in Hfresh.
  destruct Hfresh as (Hi0 & Hq0 & Hx0 & Hy0 & Hz0 & _).
  set (vs1 := <["q_" := Z.of_nat i]> (<["i" := Z.of_nat i]> vs0)).
  assert (H1i : vs1 !! "i" = Some (Z.of_nat i)).
  { unfold vs1. rewrite lookup_insert_ne by discriminate. apply lookup_insert_eq. }
  assert (H1q : vs1 !! "q_" = Some (Z.of_nat i)) by apply lookup_insert_eq.
  assert (H1x : vs1 !! "x_" = None).
  { unfold vs1. rewrite !lookup_insert_ne by discriminate. exact Hx0. }
  assert (H1y : vs1 !! "y_" = None).
  { unfold vs1. rewrite !lookup_insert_ne by discriminate. exact Hy0. }
  assert (H1z : vs1 !! "z_" = None).
  { unfold vs1. rewrite !lookup_insert_ne by discriminate. exact Hz0. }
  assert (Hdecl : exec K (SDecl true "q_" (EVar "i"))
                    (st_ (<["i" := Z.of_nat i]> vs0) (Some regs) m)
                  = Some (st_ vs1 (Some regs) m)).
  { apply exec_decl; [apply lookup_insert_eq|].
    rewrite lookup_insert_ne by discriminate. exact Hq0. }
  assert (Hscope : ∀ vs', (∀ x, x ≠ "x_" → x ≠ "y_" → x ≠ "z_" → vs' !! x = vs1 !! x) →
            filter (λ kv, kv.1 ∈ dom vs0) vs' = vs0).
  { intros vs' Hagree. apply filter_dom_agree. intros x [y Hxy].
    rewrite Hagree by congruence. unfold vs1.
    rewrite !lookup_insert_ne by congruence. reflexivity. }
  cbn [seq_stmts foldr].
  destruct mask.
  - destruct (Hmask eq_refl) as [b Hb].
    unfold target in *. rewrite Hb in *. cbn [andb default] in *.
    destruct b.
    + destruct (exec_own_cell d (Z.of_nat i) vs1 (Some regs) m Hd Hidx H1q H1x H1y H1z)
        as (vs2 & Hown & Hcoord & Hagree).
      eexists. split.
      { eapply exec_seq; [exact Hdecl|]. eapply exec_seq; [|reflexivity].
        eapply exec_if_block; [rewrite eval_mask by assumption; exact Hb|].
        cbn iota. eapply exec_seq; [exact Hown|].
        eapply exec_store; [rewrite Hagree by discriminate; exact H1i
                           | exact Hcoord | exact Hv | exact Hm]. }
      cbn [vars f_reg mem leave_scope].
      rewrite (filter_dom_agree vs1 vs2).
      2:{ intros x [y Hxy]. apply Hagree; congruence. }
      split; [exact H1i|]. split; [|split; reflexivity].
      apply Hscope. reflexivity.
    + destruct (Hrow eq_refl) as [row Erow]. rewrite Erow in Hm |- *.
      cbn [default] in Hm |- *.
      destruct (exec_stream_to_neighbour d i row v vs1 regs m
                  (Hwf eq_refl) H1i H1q H1x H1y H1z Erow Hv Hm)
        as (vs2 & Hrun & Hagree).
      eexists. split.
      { eapply exec_seq; [exact Hdecl|]. eapply exec_seq; [|reflexivity].
        eapply exec_if_block; [rewrite eval_mask by assumption; exact Hb|].
        cbn iota. exact Hrun. }
      cbn [vars f_reg mem leave_scope].
      rewrite (filter_dom_agree vs1 vs2).
      2:{ intros x [y Hxy]. apply Hagree; congruence. }
      split; [exact H1i|]. split; [|split; reflexivity].
      apply Hscope. reflexivity.
  - unfold target in *. cbn [andb] in *.
    destruct (Hrow eq_refl) as [row Erow]. rewrite Erow in Hm |- *.
    cbn [default] in Hm |- *.
    destruct (exec_stream_to_neighbour d i row v vs1 regs m
                (Hwf eq_refl) H1i H1q H1x H1y H1z Erow Hv Hm)
      as (vs2 & Hrun & Hagree).
    eexists. split.
    { eapply exec_seq; [exact Hdecl|]. eapply exec_seq; [exact Hrun|reflexivity]. }
    cbn [vars f_reg mem].
    split; [rewrite Hagree by discriminate; exact H1i|].
    split; [|split; reflexivity].
    apply Hscope. exact Hagree.
Qed.

(** The whole write-back block of standard streaming. *)
Lemma exec_standard_write_block (mask : bool) (d : nat)
    (vs0 : gmap string Z) (vals : list V) mem0 :
  (d ≤ 3)%nat → length (index K) = d →
  (mask && default false (no_stream_mask K !! index K) = false →
   well_formed d K) →
  (mask = true → is_Some (no_stream_mask K !! index K)) →
  fresh_locals vs0 →
  length vals = q K →
  (∀ i, (i < q K)%nat →
        is_Some (mem0 !! ("f_next", Z.of_nat i :: target K mask i))) →
  ∃ m', exec K (standard_write_block mask d) (st_ vs0 (Some (Some <$> vals)) mem0)
        = Some (st_ vs0 (Some (Some <$> vals)) m')
        ∧ (∀ i v, vals !! i = Some v →
                  m' !! ("f_next", Z.of_nat i :: target K mask i) = Some v)
        ∧ (∀ key, (∀ i, (i < q K)%nat →
                        key ≠ ("f_next", Z.of_nat i :: target K mask i)) →
                  m' !! key = mem0 !! key).
Proof.
  intros Hd Hidx Hwf Hmask Hfresh Hvals Halloc.
  set (regs := Some <$> vals).
  set (Inv := λ (k : nat) (r : option (list (option V)))
                (m : gmap (string * list Z) V),
         r = Some regs
         ∧ (∀ i v, (i < k)%nat → vals !! i = Some v →
                   m !! ("f_next", Z.of_nat i :: target K mask i) = Some v)
         ∧ (∀ key, (∀ i, (i < k)%nat →
                         key ≠ ("f_next", Z.of_nat i :: target K mask i)) →
                   m !! key = mem0 !! key)).
  assert (Hi0 : vs0 !! "i" = None).
  { unfold fresh_locals in Hfresh. rewrite Forall_cons in Hfresh. tauto. }
  destruct (exec_for "i"
              (seq_stmts
                 [SDecl true "q_" (EVar "i");
                  if mask
                  then SIfBlock (CMask (mask_coord_exprs d))
                         (SSeq (own_cell d) (SStore "f_next" (coord_exprs d) "i"))
                         (stream_to_neighbour d)
                  else stream_to_neighbour d])
              vs0 Inv (Some regs) mem0 Hi0)
    as (r & m' & Hrun & Hr & Hset & Hframe).
  - split; [reflexivity|]. split; [intros i v Hi; lia | reflexivity].
  - intros k r m Hk (-> & Hset & Hframe).
    assert (Hkv : ∃ v, vals !! k = Some v).
    { apply lookup_lt_is_Some_2. lia. }
    destruct Hkv as [v Hv].
    destruct (exec_standard_write_body mask d k v vs0 regs m Hd Hidx Hwf Hmask
                Hfresh Hk) as (st' & Hst' & Hi' & Hscope & Hregs & Hmem).
    { unfold regs. rewrite list_lookup_fmap, Hv. reflexivity. }
    { rewrite Hframe; [apply Halloc, Hk|]. intros i Hi [= E]. lia. }
    exists st'. split; [exact Hst'|]. split; [exact Hi'|]. split; [exact Hscope|].
    split; [exact Hregs|]. rewrite Hmem. split.
    + intros i w Hi Hw. destruct (decide (i = k)) as [->|Hne].
      * rewrite lookup_insert_eq. congruence.
      * rewrite lookup_insert_ne by (intros [= E]; lia). apply Hset; [lia | exact Hw].
    + intros key Hkey. rewrite lookup_insert_ne.
      * apply Hframe. intros i Hi. apply Hkey. lia.
      * intros E. apply (Hkey k); [lia | congruence].
  - exists m'. subst r. split; [|split].
    + unfold standard_write_block. cbn [seq_stmts foldr].
      eapply exec_seq; [reflexivity|]. eapply exec_seq; [exact Hrun | reflexivity].
    + intros i v Hv. apply Hset; [|exact Hv].
      apply lookup_lt_Some in Hv. lia.
    + exact Hframe.
Qed.

(** The read block fills the registers with the populations of the
    thread's cell. *)
Lemma exec_read_block (d : nat) (vs0 : gmap string Z) (vals : list V) mem0 :
  (d ≤ 3)%nat → length (index K) = d →
  fresh_locals vs0 →
  length vals = q K →
  (∀ i v, vals !! i = Some v → mem0 !! ("f", Z.of_nat i :: index K) = Some v) →
  exec K (read_block d) (st_ vs0 None mem0)
  = Some (st_ vs0 (Some (Some <$> vals)) mem0).
Proof.
  intros Hd Hidx Hfresh Hvals Hmem.
  set (Inv := λ (k : nat) (r : option (list (option V)))
                (m : gmap (string * list Z) V),
         m = mem0
         ∧ r = Some ((Some <$> take k vals) ++ replicate (q K - k) None)).
  assert (Hf := Hfresh). unfold fresh_locals in Hf. rewrite !Forall_cons in Hf.
  destruct Hf as (Hi0 & Hq0 & Hx0 & Hy0 & Hz0 & _).
  destruct (exec_for "i"
              (seq_stmts [SDecl true "q_" (EVar "i"); own_cell d;
                          SLoad "i" "f" (coord_exprs d)])
              vs0 Inv (Some (replicate (q K) None)) mem0 Hi0)
    as (r & m' & Hrun & -> & ->).
  - split; [reflexivity|]. rewrite take_0, Nat.sub_0_r. reflexivity.
  - intros k r m Hk (-> & ->).
    destruct (lookup_lt_is_Some_2 vals k ltac:(lia)) as [v Hv].
    set (vs1 := <["q_" := Z.of_nat k]> (<["i" := Z.of_nat k]> vs0)).
    destruct (exec_own_cell d (Z.of_nat k) vs1
                (Some ((Some <$> take k vals) ++ replicate (q K - k) None)) mem0
                Hd Hidx) as (vs2 & Hown & Hcoord & Hagree).
    { apply lookup_insert_eq. }
    { unfold vs1. rewrite !lookup_insert_ne by discriminate. exact Hx0. }
    { unfold vs1. rewrite !lookup_insert_ne by discriminate. exact Hy0. }
    { unfold vs1. rewrite !lookup_insert_ne by discriminate. exact Hz0. }
    assert (H2i : vs2 !! "i" = Some (Z.of_nat k)).
    { rewrite Hagree by discriminate. unfold vs1.
      rewrite lookup_insert_ne by discriminate. apply lookup_insert_eq. }
    eexists. split.
    { cbn [seq_stmts foldr]. eapply exec_seq.
      { apply exec_decl; [apply lookup_insert_eq|].
        rewrite lookup_insert_ne by discriminate. exact Hq0. }
      eapply exec_seq; [exact Hown|]. eapply exec_seq; [|reflexivity].
      eapply exec_load; [exact H2i | exact Hcoord | apply Hmem, Hv |].
      rewrite length_app, length_fmap, length_take, length_replicate. lia. }
    cbn [vars f_reg mem]. split; [exact H2i|]. split.
    { apply filter_dom_agree. intros x [y Hxy].
      rewrite Hagree by congruence. unfold vs1.
      rewrite !lookup_insert_ne by congruence. reflexivity. }
    split; [reflexivity|]. f_equal.
    rewrite (take_S_r vals k v Hv), fmap_app. cbn [fmap list_fmap].
    rewrite <- app_assoc. cbn [app].
    replace (q K - k)%nat with (S (q K - S k)) by lia. cbn [replicate].
    rewrite insert_app_r_alt by (rewrite length_fmap, length_take; lia).
    rewrite length_fmap, length_take.
    replace (k - k `min` length vals)%nat with 0%nat by lia.
    reflexivity.
  - unfold read_block. cbn [seq_stmts foldr].
    eapply exec_seq; [reflexivity|]. eapply exec_seq; [reflexivity|].
    eapply exec_seq; [exact Hrun|]. cbn [exec]. f_equal. f_equal. f_equal.
    rewrite Nat.sub_diag. cbn [replicate]. rewrite app_nil_r, <- Hvals.
    rewrite firstn_all. reflexivity.
Qed.

End Thread.

Lemma ret_contract : Generator.contract (Generator.ret tt).
Proof. intros g a g' [= <- <-]. apply StreamingFacts.extends_refl. Qed.

Lemma neighbour_spec_lookup (cell direction extent : list Z) (k : nat) (c ev n : Z) :
  cell !! k = Some c → direction !! k = Some ev → extent !! k = Some n →
  neighbour_spec cell direction extent !! k = Some (wraparound (c + ev) n).
Proof.
  intros Hc He Hn. unfold neighbour_spec.
  rewrite lookup_zip_with, lookup_zip_with, Hc. simpl. rewrite He. simpl.
  rewrite Hn. reflexivity.
Qed.

(** C2.  The write-back block that standard streaming appends is, up to
    blanks, the printed [standard_write_block]; run by the thread of any
    cell that is not held by the mask, on any stencil and any extents of
    dimension 1 to 3, it stores the register of every direction [i] in
    [f_next] at the coordinate obtained from the cell by adding the
    velocity [e[i]] componentwise and wrapping each axis on its own:
    below zero the extent of that axis is added, from the extent on it is
    subtracted.  On D2Q9 with extents (Nx, Ny), direction 1 = (1, 0) at
    cell (Nx-1, y) goes to (0, y) and direction 7 = (-1, -1) at cell (0, 0)
    goes to (Nx-1, Ny-1). *)
Theorem standard_streaming_periodic_wraparound :
  (∀ (d : nat)
     (stencil_generate_q stencil_generate_e cuda_generate_offset
      cuda_generate_index cuda_generate_dimension : Generator.Gen unit)
     (lattice_get_lattice_coordinate : list string → Generator.Gen string)
     (coordinate_text : list string → string)
     (mask : bool) (g g' : Generator.Generator),
      Generator.contract stencil_generate_q →
      Generator.contract stencil_generate_e →
      Generator.contract cuda_generate_offset →
      Generator.contract cuda_generate_index →
      Generator.contract cuda_generate_dimension →
      Generator.coordinate_contract lattice_get_lattice_coordinate coordinate_text →
      "read_write()" ∉ Generator.registry g →
      Streaming.NativeStandardStreaming_generate_read_write d
        stencil_generate_q stencil_generate_e cuda_generate_offset
        cuda_generate_index cuda_generate_dimension
        lattice_get_lattice_coordinate mask g = Ok (tt, g') →
      squeeze (Generator.write_buffer g') =
        squeeze (Generator.write_buffer g)
        ++ (strip_spaces <$> print_stmt coordinate_text (standard_write_block mask d)))
  ∧ (∀ (V : Type) (K : launch) (d : nat) (mask : bool)
       (vs0 : gmap string Z) (vals : list V) (mem0 : gmap (string * list Z) V),
      well_formed d K →
      (mask = true → no_stream_mask K !! index K = Some false) →
      fresh_locals vs0 →
      length vals = q K →
      (∀ i row, e K !! i = Some row →
         is_Some (mem0 !! ("f_next",
                           Z.of_nat i :: neighbour_spec (index K) row (dimension K)))) →
      ∃ m',
        exec K (standard_write_block mask d)
          {| vars := vs0; f_reg := Some (Some <$> vals); mem := mem0 |}
        = Some {| vars := vs0; f_reg := Some (Some <$> vals); mem := m' |}
        ∧ (∀ i row v, e K !! i = Some row → vals !! i = Some v →
             m' !! ("f_next",
                    Z.of_nat i :: neighbour_spec (index K) row (dimension K))
             = Some v)
        ∧ (∀ key,
             (∀ i row, e K !! i = Some row →
                key ≠ ("f_next",
                       Z.of_nat i :: neighbour_spec (index K) row (dimension K))) →
             m' !! key = mem0 !! key))
  ∧ (∀ cell direction extent k c ev n,
      cell !! k = Some c → direction !! k = Some ev → extent !! k = Some n →
      neighbour_spec cell direction extent !! k
      = Some (if decide (c + ev < 0)%Z then (c + ev + n)%Z
              else if decide (c + ev >= n)%Z then (c + ev - n)%Z
              else (c + ev)%Z))
  ∧ (Stencils.e Stencils.D2Q9 !! 1%nat = Some [1; 0]%Z
     ∧ Stencils.e Stencils.D2Q9 !! 7%nat = Some [-1; -1]%Z
     ∧ (∀ Nx Ny y, (0 < Nx)%Z → (0 ≤ y < Ny)%Z →
          neighbour_spec [Nx - 1; y]%Z [1; 0]%Z [Nx; Ny] = [0; y]%Z)
     ∧ (∀ Nx Ny, (0 < Nx)%Z → (0 < Ny)%Z →
          neighbour_spec [0; 0]%Z [-1; -1]%Z [Nx; Ny] = [Nx - 1; Ny - 1]%Z)).
Proof.
  split; [|split; [|split]].
  - intros d gq ge goff gidx gdim glc text mask g g' Hq He Hoff Hidx Hdim Hglc Hr Hrun.
    exact (proj1 (proj2 (proj2
             (StreamingFacts.standard_generate_read_write_fresh d gq
                (Generator.ret tt) ge goff gidx gdim glc text
                Hq ret_contract He Hoff Hidx Hdim Hglc mask g g' Hr Hrun)))).
  - intros V K d mask vs0 vals mem0 Hwf Hmask Hfresh Hvals Halloc.
    assert (Hunmasked : mask && default false (no_stream_mask K !! index K) = false).
    { destruct mask; [|reflexivity]. rewrite (Hmask eq_refl). reflexivity. }
    assert (Htarget : ∀ i row, e K !! i = Some row →
              target K mask i = neighbour_spec (index K) row (dimension K)).
    { intros i row Hrow. unfold target. rewrite Hunmasked, Hrow. reflexivity. }
    pose proof Hwf as (Hd & Hidx & _ & Hlen & _).
    destruct (exec_standard_write_block V K mask d vs0 vals mem0 Hd Hidx)
      as (m' & Hrun & Hset & Hframe); try assumption.
    + intros _. exact Hwf.
    + intros ->. rewrite (Hmask eq_refl). eauto.
    + intros i Hi. destruct (lookup_lt_is_Some_2 (e K) i ltac:(lia)) as [row Hrow].
      rewrite (Htarget i row Hrow). apply (Halloc i row Hrow).
    + exists m'. split; [exact Hrun|]. split.
      * intros i row v Hrow Hv. rewrite <- (Htarget i row Hrow). apply Hset, Hv.
      * intros key Hkey. apply Hframe. intros i Hi.
        destruct (lookup_lt_is_Some_2 (e K) i ltac:(lia)) as [row Hrow].
        rewrite (Htarget i row Hrow). apply (Hkey i row Hrow).
  - intros cell direction extent k c ev n Hc He Hn.
    apply (neighbour_spec_lookup cell direction extent k c ev n Hc He Hn).
  - split; [reflexivity|]. split; [reflexivity|]. split.
    + intros Nx Ny y HNx Hy. unfold neighbour_spec, wraparound. cbn.
      repeat case_decide; f_equal; try lia. f_equal; lia.
    + intros Nx Ny HNx HNy. unfold neighbour_spec, wraparound. cbn.
      repeat case_decide; f_equal; try lia. f_equal; lia.
Qed.


Ltac each_direction i H :=
  do 9 (destruct i as [|i]; [injection H as <-; vm_compute; eauto|]);
  discriminate H.

Lemma sample_well_formed (cell masked : list (list Z)) (c : list Z) :
  length c = 2%nat → well_formed 2 (Sample.thread c masked).
Proof.
  intros Hc. unfold well_formed. cbn.
  split; [lia|]. split; [exact Hc|]. split; [reflexivity|]. split; [reflexivity|].
  repeat (apply Forall_cons; split; [reflexivity|]). apply Forall_nil_2.
Qed.

Lemma fresh_locals_empty : fresh_locals ∅.
Proof.
  unfold fresh_locals.
  repeat (apply Forall_cons; split; [apply lookup_empty|]). apply Forall_nil_2.
Qed.

Lemma standard_streaming_periodic_wraparound_witness :
  ∃ m',
    exec (Sample.thread [2; 1]%Z []) (standard_write_block false 2)
      {| vars := ∅; f_reg := Some (Some <$> Sample.registers);
         mem := Sample.memory |}
    = Some {| vars := ∅; f_reg := Some (Some <$> Sample.registers); mem := m' |}
    ∧ m' !! ("f_next", [1; 0; 1]%Z) = Some 121%Z
    ∧ m' !! ("f_next", [5; 0; 0]%Z) = Some 521%Z.
Proof.
  destruct standard_streaming_periodic_wraparound as (_ & Hsem & _).
  destruct (Hsem Z (Sample.thread [2; 1]%Z []) 2%nat false ∅ Sample.registers
              Sample.memory) as (m' & Hrun & Hset & _).
  - apply (sample_well_formed [] []). reflexivity.
  - discriminate.
  - apply fresh_locals_empty.
  - reflexivity.
  - intros i row Hrow. each_direction i Hrow.
  - exists m'. split; [exact Hrun|]. split.
    + exact (Hset 1%nat [1; 0]%Z 121%Z eq_refl eq_refl).
    + exact (Hset 5%nat [1; 1]%Z 521%Z eq_refl eq_refl).
Defined.


(** A remark on the scope of the two statements above: they describe one
    thread.  The kernel pushes, so the thread of a neighbour that is not
    masked stores into the masked cell as well.  On the sample grid, with
    the mask set at cell (1, 1) only, the thread of cell (0, 1) stores its
    direction 1 = (1, 0) at cell (1, 1), the slot the masked thread
    filled. *)
Example neighbour_pushes_into_masked_cell :
  let masked := [[1; 1]%Z] in
  let after_masked :=
    exec (Sample.thread [1; 1]%Z masked)
      (SSeq (read_block 2) (standard_write_block true 2)) Sample.start in
  let after_neighbour :=
    st ← after_masked;
    exec (Sample.thread [0; 1]%Z masked)
      (SSeq (read_block 2) (standard_write_block true 2))
      {| vars := ∅; f_reg := None; mem := mem st |} in
  (mem <$> after_masked) ≫= (.!! ("f_next", [1; 1; 1]%Z)) = Some 111%Z
  ∧ (mem <$> after_neighbour) ≫= (.!! ("f_next", [1; 1; 1]%Z)) = Some 101%Z.
Proof. vm_compute. split; reflexivity. Qed.

End KernelFacts.

Module RaisingFacts.
Import Raising.

Lemma collect_Ok {A B} (f : A → result B) (g : A → B) (l : list A) :
  (∀ x, x ∈ l → f x = Ok (g x)) → collect (f <$> l) = Ok (g <$> l).
Proof.
  induction l as [|x l IH]; intros H; [reflexivity|].
  cbn [fmap list_fmap collect]. rewrite (H x) by apply list_elem_of_here.
  cbn [bind]. rewrite IH; [reflexivity|].
  intros y Hy. apply H, list_elem_of_further, Hy.
Qed.

Lemma collect_Raise {A B} (f : A → result B) (l : list A) (x : A) (err : exn) :
  x ∈ l → (∀ y, y ∈ l → f y = Raise err ∨ ∃ b, f y = Ok b) → f x = Raise err →
  collect (f <$> l) = Raise err.
Proof.
  induction l as [|y l IH]; intros Hx Hall Hfx; [inversion Hx|].
  cbn [fmap list_fmap collect].
  destruct (Hall y (list_elem_of_here _ _)) as [Hy|[b Hy]]; rewrite Hy; [reflexivity|].
  cbn [bind]. rewrite IH; [reflexivity| | |exact Hfx].
  - apply elem_of_cons in Hx as [->|Hx]; [congruence | exact Hx].
  - intros z Hz. apply Hall, list_elem_of_further, Hz.
Qed.

Lemma collect_inv {A B} (f : A → result B) (l : list A) (bs : list B) :
  collect (f <$> l) = Ok bs → Forall2 (λ x b, f x = Ok b) l bs.
Proof.
  revert bs. induction l as [|x l IH]; intros bs; cbn [fmap list_fmap collect].
  - intros [= <-]. constructor.
  - destruct (f x) as [b|] eqn:Hx; [|discriminate]. cbn [bind].
    destruct (collect (f <$> l)) as [rest|]; [|discriminate]. cbn [bind].
    intros [= <-]. constructor; [exact Hx | apply IH; reflexivity].
Qed.

End RaisingFacts.

(** ** [Transform.__getitem__]: positions of the requested names *)

Module MomentKeyFacts.
Import Moments MomentKey.

Lemma index_first (names : list string) (name : string) (i : nat) :
  index names name = Ok i →
  names !! i = Some name ∧ ∀ j, (j < i)%nat → names !! j ≠ Some name.
Proof.
  revert i. induction names as [|n names IH]; intros i; simpl; [discriminate|].
  destruct (String.eqb_spec n name) as [->|Hne].
  - intros [= <-]. split; [reflexivity | intros j Hj; lia].
  - destruct (index names name) as [k|]; [|discriminate].
    intros [= <-]. destruct (IH k eq_refl) as [Hk Hfirst]. split; [exact Hk|].
    intros [|j] Hj; simpl; [congruence | apply Hfirst; lia].
Qed.

Lemma index_found (names : list string) (name : string) :
  name ∈ names → ∃ i, index names name = Ok i.
Proof.
  induction names as [|n names IH]; intros Hin; [inversion Hin|]. simpl.
  destruct (String.eqb_spec n name) as [->|Hne]; [eauto|].
  apply elem_of_cons in Hin as [->|Hin]; [contradiction|].
  destruct (IH Hin) as [i ->]. eauto.
Qed.

Lemma index_missing (names : list string) (name : string) :
  name ∉ names → ∃ msg, index names name = Raise (ValueError msg).
Proof.
  induction names as [|n names IH]; intros Hin; simpl; [eauto|].
  apply not_elem_of_cons in Hin as [Hne Hin].
  destruct (String.eqb_spec n name) as [->|_]; [contradiction|].
  destruct (IH Hin) as [msg ->]. eauto.
Qed.

Lemma getitem_names_first (names moment_names : list string) (idxs : list nat) :
  getitem_names names moment_names = Ok idxs →
  Forall2 (λ i n, names !! i = Some n
                  ∧ ∀ j, (j < i)%nat → names !! j ≠ Some n) idxs moment_names.
Proof.
  revert idxs. induction moment_names as [|n rest IH]; intros idxs; simpl.
  - intros [= <-]. constructor.
  - destruct (index names n) as [i|] eqn:Hi; [|discriminate].
    destruct (getitem_names names rest) as [is_|]; [|discriminate].
    intros [= <-]. constructor; [apply index_first, Hi | apply IH; reflexivity].
Qed.

Lemma getitem_names_found (names moment_names : list string) :
  Forall (λ n, n ∈ names) moment_names →
  ∃ idxs, getitem_names names moment_names = Ok idxs.
Proof.
  induction 1 as [|n rest Hn _ IH]; simpl; [eauto|].
  destruct (index_found _ _ Hn) as [i ->]. destruct IH as [idxs ->]. eauto.
Qed.

Lemma getitem_names_missing (names moment_names : list string) :
  ¬ Forall (λ n, n ∈ names) moment_names →
  ∃ msg, getitem_names names moment_names = Raise (ValueError msg).
Proof.
  induction moment_names as [|n rest IH]; intros Hnot; simpl.
  - destruct Hnot. constructor.
  - destruct (decide (n ∈ names)) as [Hn|Hn].
    + destruct (index_found _ _ Hn) as [i ->].
      destruct IH as [msg ->]; [|eauto].
      intros Hrest. apply Hnot. constructor; assumption.
    + destruct (index_missing _ _ Hn) as [msg ->]. eauto.
Qed.

(** X1.  [Transform.__getitem__] succeeds exactly when every requested name is
    one of the transform's names; it then returns, name by name, the
    position of the first occurrence of the name; otherwise it raises
    [ValueError].  A single name is treated as a tuple of one. *)
Theorem getitem_key_first_occurrences (T : Transform) (k : moment_key) :
  (Forall (λ n, n ∈ names T) (key_names k) →
     ∃ idxs, getitem_key T k = Ok idxs)
  ∧ (∀ idxs, getitem_key T k = Ok idxs →
       Forall (λ n, n ∈ names T) (key_names k)
       ∧ Forall2 (λ i n, names T !! i = Some n
                         ∧ ∀ j, (j < i)%nat → names T !! j ≠ Some n)
                 idxs (key_names k))
  ∧ (¬ Forall (λ n, n ∈ names T) (key_names k) →
       ∃ msg, getitem_key T k = Raise (ValueError msg))
  ∧ (∀ n, getitem_key T (Name n) = getitem_key T (Names [n])).
Proof.
  unfold getitem_key. repeat split.
  - apply getitem_names_found.
  - destruct (decide (Forall (λ n, n ∈ names T) (key_names k))) as [|Hnot];
      [assumption|].
    destruct (getitem_names_missing _ _ Hnot) as [msg Hmsg]. congruence.
  - apply getitem_names_first. assumption.
  - apply getitem_names_missing.
Qed.

Lemma getitem_key_first_occurrences_witness :
  getitem_key D2Q9Lallemand (Names ["jx"; "jy"]) = Ok [1; 2]%nat
  ∧ getitem_key D2Q9Lallemand (Name "rho") = Ok [0%nat]
  ∧ (∃ msg, getitem_key D1Q3Transform (Names ["jx"]) = Raise (ValueError msg))
  ∧ Forall2 (λ i n, names D2Q9Lallemand !! i = Some n
                    ∧ ∀ j, (j < i)%nat → names D2Q9Lallemand !! j ≠ Some n)
            [1; 2]%nat ["jx"; "jy"].
Proof.
  split; [reflexivity|]. split; [reflexivity|]. split.
  - apply (getitem_key_first_occurrences D1Q3Transform (Names ["jx"])).
    intros H. apply Forall_cons in H as [H _]. vm_compute in H.
    repeat (apply elem_of_cons in H as [H|H]; [discriminate H|]).
    inversion H.
  - apply (getitem_key_first_occurrences D2Q9Lallemand (Names ["jx"; "jy"])).
    reflexivity.
Defined.

End MomentKeyFacts.

(** ** [moment_tensor]: low-order moments of a velocity table *)

Module MomentTensorFacts.
Import Raising RaisingFacts MomentTensor.
Local Open Scope Z_scope.

Lemma broadcast_pairs_same (row mi : list Z) :
  length row = length mi → broadcast_pairs row mi = Ok (zip row mi).
Proof.
  intros H. unfold broadcast_pairs.
  destruct (decide (length row = length mi)); [reflexivity | contradiction].
Qed.

(** A row against a multi-index of its own length with no negative entry:
    the product of the powers. *)
Lemma moment_row_Ok (mi row : list Z) :
  length row = length mi → Forall (λ n, 0 ≤ n) mi →
  moment_row mi row = Ok (prod (zip_with Z.pow row mi)).
Proof.
  intros Hlen Hpos. unfold moment_row.
  rewrite broadcast_pairs_same by exact Hlen. cbn [bind].
  rewrite (collect_Ok _ (λ p, p.1 ^ p.2)).
  - cbn [bind]. do 2 f_equal.
    clear. revert mi. induction row as [|x row IH]; intros [|n mi];
      cbn; try reflexivity. f_equal. apply IH.
  - intros [x n] Hin. unfold power. cbn [fst snd].
    destruct (decide (n < 0)) as [Hneg|]; [|reflexivity].
    apply elem_of_zip_r in Hin.
    rewrite Forall_forall in Hpos. specialize (Hpos n Hin). lia.
Qed.

Lemma prod_cons (x : Z) (l : list Z) : prod (x :: l) = x * prod l.
Proof. reflexivity. Qed.

Lemma prod_pow_zeros (row : list Z) :
  prod (zip_with Z.pow row (replicate (length row) 0)) = 1.
Proof.
  induction row as [|x row IH]; [reflexivity|].
  cbn [length replicate zip_with]. rewrite prod_cons, IH. reflexivity.
Qed.

(** The row of [np.eye] that selects component [i]. *)
Lemma prod_pow_unit (row : list Z) (s i : nat) :
  prod (zip_with Z.pow row
          ((λ k, if decide (i = k) then 1 else 0) <$> seq s (length row)))
  = if decide (s ≤ i < s + length row)%nat then default 1 (row !! (i - s)%nat) else 1.
Proof.
  revert s. induction row as [|x row IH]; intros s;
    cbn [length seq fmap list_fmap zip_with].
  - destruct (decide _); [lia | reflexivity].
  - rewrite prod_cons, IH. destruct (decide (i = s)) as [->|Hne].
    + rewrite Nat.sub_diag. cbn [lookup list_lookup default].
      destruct (decide (S s ≤ s < _)%nat); [lia|].
      destruct (decide (s ≤ s < _)%nat); [|lia].
      rewrite Z.pow_1_r. unfold id. lia.
    + destruct (decide (S s ≤ i < S s + length row)%nat) as [Hin|Hout].
      * destruct (decide (s ≤ i < s + S (length row))%nat); [|lia].
        replace (i - s)%nat with (S (i - S s)) by lia.
        change (x ^ 0) with 1. rewrite Z.mul_1_l. reflexivity.
      * destruct (decide (s ≤ i < s + S (length row))%nat); [lia|].
        change (x ^ 0) with 1. lia.
Qed.

Lemma length_eye_row (i D : nat) :
  length ((λ k, if decide (i = k) then 1 else 0) <$> seq 0 D) = D.
Proof. rewrite length_fmap, length_seq. reflexivity. Qed.

Lemma eye_row_nonneg (i D : nat) :
  Forall (λ n, 0 ≤ n) ((λ k, if decide (i = k) then 1 else 0) <$> seq 0 D).
Proof.
  apply Forall_fmap, Forall_forall. intros k _. cbn.
  destruct (decide (i = k)); lia.
Qed.

(** X2.  The moment of order zero is 1 for every velocity, and the moments of
    order one are the velocity components: for a velocity table [e] with
    [D] columns, [moment_tensor] on the zero multi-index returns all
    ones (as a vector, or as a one-row matrix when the multi-index is
    given as a one-row matrix), and [Moments.__init__] stores all ones in
    [rho] and the transposed velocity table in [j]. *)
Theorem moment_tensor_density_and_momentum (e : list (list Z)) (D : nat) :
  Forall (λ row, length row = D) e →
  moment_tensor e (Index1 (zeros D)) = Ok (Moment1 (replicate (length e) 1))
  ∧ moment_tensor e (Index2 [zeros D]) = Ok (Moment2 [replicate (length e) 1])
  ∧ Moments_init e D
    = Ok {| rho := Moment1 (replicate (length e) 1);
            j := Moment2 ((λ d, (λ row : list Z, row !!! d) <$> e) <$> seq 0 D) |}.
Proof.
  intros Hrows.
  assert (Hzero : moment_tensor_1 e (zeros D) = Ok (replicate (length e) 1)).
  { unfold moment_tensor_1, zeros.
    rewrite (collect_Ok _ (λ _, 1)).
    - f_equal. clear. induction e; cbn; [reflexivity | f_equal; assumption].
    - intros row Hin. rewrite Forall_forall in Hrows. specialize (Hrows row Hin).
      rewrite moment_row_Ok.
      + rewrite <- Hrows, prod_pow_zeros. reflexivity.
      + rewrite length_replicate. exact Hrows.
      + apply Forall_replicate. lia. }
  assert (Hunit : moment_tensor_2 e (eye D)
                  = Ok ((λ d, (λ row : list Z, row !!! d) <$> e) <$> seq 0 D)).
  { unfold moment_tensor_2, eye. rewrite <- list_fmap_compose.
    apply collect_Ok. intros d Hd. cbn [compose]. unfold moment_tensor_1.
    apply collect_Ok. intros row Hin.
    rewrite Forall_forall in Hrows. specialize (Hrows row Hin).
    rewrite moment_row_Ok.
    - f_equal. rewrite <- Hrows, prod_pow_unit.
      apply elem_of_seq in Hd. rewrite Nat.sub_0_r.
      destruct (decide _) as [|Hout]; [|lia].
      destruct (lookup_lt_is_Some_2 row d ltac:(lia)) as [x Hx].
      rewrite Hx, (list_lookup_total_correct row d x Hx). reflexivity.
    - rewrite length_eye_row. exact Hrows.
    - apply eye_row_nonneg. }
  unfold Moments_init. cbn [moment_tensor moment_tensor_2 fmap list_fmap collect].
  rewrite Hzero. cbn [bind].
  split; [reflexivity|]. split; [reflexivity|].
  fold (moment_tensor_2 e (eye D)). rewrite Hunit. reflexivity.
Qed.

Lemma moment_tensor_density_and_momentum_witness :
  moment_tensor (Stencils.e Stencils.D2Q9) (Index1 (zeros 2))
    = Ok (Moment1 (replicate 9 1))
  ∧ moment_tensor (Stencils.e Stencils.D2Q9) (Index2 [zeros 2])
    = Ok (Moment2 [replicate 9 1])
  ∧ Moments_init (Stencils.e Stencils.D2Q9) 2
    = Ok {| rho := Moment1 (replicate 9 1);
            j := Moment2 [[0; 1; 0; -1; 0; 1; -1; -1; 1];
                          [0; 0; 1; 0; -1; 1; 1; -1; -1]] |}.
Proof.
  apply (moment_tensor_density_and_momentum (Stencils.e Stencils.D2Q9) 2).
  repeat constructor.
Defined.

Lemma prod_zip_with_mul (a b : list Z) :
  length a = length b →
  prod (zip_with Z.mul a b) = prod a * prod b.
Proof.
  revert b. induction a as [|x a IH]; intros [|y b] Hlen; try discriminate Hlen;
    [reflexivity|].
  cbn [zip_with]. rewrite !prod_cons, IH by (cbn in Hlen; lia). lia.
Qed.

Lemma prod_pow_add (row a b : list Z) :
  length a = length row → length b = length row →
  Forall (λ n, 0 ≤ n) a → Forall (λ n, 0 ≤ n) b →
  prod (zip_with Z.pow row (zip_with Z.add a b))
  = prod (zip_with Z.pow row a) * prod (zip_with Z.pow row b).
Proof.
  revert a b. induction row as [|x row IH]; intros [|n a] [|k b] Ha Hb Hpa Hpb;
    try discriminate; [reflexivity|].
  apply Forall_cons in Hpa as [Hn Hpa]. apply Forall_cons in Hpb as [Hk Hpb].
  cbn [zip_with]. rewrite !prod_cons, IH by (cbn in *; first [lia | assumption]).
  rewrite Z.pow_add_r by assumption. lia.
Qed.

Lemma zip_with_add_nonneg (a b : list Z) :
  Forall (λ n, 0 ≤ n) a → Forall (λ n, 0 ≤ n) b →
  Forall (λ n, 0 ≤ n) (zip_with Z.add a b).
Proof.
  intros Ha. revert b. induction Ha as [|n a Hn Ha IH]; intros [|k b] Hb;
    cbn [zip_with]; try constructor.
  - apply Forall_cons in Hb as [Hk _]. lia.
  - apply Forall_cons in Hb as [_ Hb]. apply IH, Hb.
Qed.

Lemma collect_power_negative (row a : list Z) :
  length row = length a → ¬ Forall (λ n, 0 ≤ n) a →
  ∃ msg, collect ((λ p, power p.1 p.2) <$> zip row a) = Raise (ValueError msg).
Proof.
  revert row. induction a as [|n a IH]; intros [|x row] Hlen Hneg;
    try discriminate Hlen.
  - destruct Hneg. constructor.
  - change (zip (x :: row) (n :: a)) with ((x, n) :: zip row a).
    cbn [fmap list_fmap collect fst snd]. unfold power at 1.
    destruct (decide (n < 0)) as [Hn|Hn]; [cbn [bind]; eauto|]. cbn [bind].
    destruct (IH row) as [msg ->]; [cbn in Hlen; lia | |cbn [bind]; eauto].
    intros H. apply Hneg. constructor; [lia | exact H].
Qed.



End MomentTensorFacts.

(** ** The hand-written moment equilibria *)

Module MomentEquilibriaFacts.
Import Raising Stencils Moments MomentEquilibria.
Local Open Scope Q_scope.

Lemma setitem_Ok (i : nat) (v : Q) (meq : list Q) :
  (i < length meq)%nat → setitem i v meq = Ok (<[i := v]> meq).
Proof.
  intros H. unfold setitem.
  destruct (decide (i < length meq)%nat); [reflexivity | contradiction].
Qed.

Lemma setitem_Raise (i : nat) (v : Q) (meq : list Q) :
  (length meq ≤ i)%nat → setitem i v meq = Raise IndexError.
Proof.
  intros H. unfold setitem.
  destruct (decide (i < length meq)%nat); [lia | reflexivity].
Qed.

(** The six assignments of [D2Q9Dellar.equilibrium] on a tensor with at
    least six rows. *)
Lemma D2Q9Dellar_equilibrium_eq (rho jx jy a b c : Q) (rest : list Q) :
  D2Q9Dellar_equilibrium (rho :: jx :: jy :: a :: b :: c :: rest)
  = Ok (if Qeq_bool rho 0 then NotFinite
        else Finite (rho :: jx :: jy
                     :: jx * jx / rho * 9 / 2 :: jx * jy / rho * 9
                     :: jy * jy / rho * 9 / 2 :: zeros_like rest)).
Proof.
  unfold D2Q9Dellar_equilibrium. cbn [item lookup list_lookup bind].
  cbn [zeros_like fmap list_fmap].
  rewrite !setitem_Ok by (cbn [length]; lia). cbn [bind].
  rewrite !setitem_Ok by (rewrite ?length_insert; cbn [length]; lia). cbn [bind].
  reflexivity.
Qed.

Lemma zeros_like_lookup (m : list Q) (i : nat) :
  (i < length m)%nat → zeros_like m !! i = Some 0.
Proof.
  intros H. unfold zeros_like. rewrite list_lookup_fmap.
  destruct (lookup_lt_is_Some_2 m i H) as [x ->]. reflexivity.
Qed.

Lemma zeros_like_idemp (m : list Q) : zeros_like (zeros_like m) = zeros_like m.
Proof. unfold zeros_like. rewrite <- list_fmap_compose. reflexivity. Qed.

Lemma zeros_like_length (m m' : list Q) :
  length m = length m' → zeros_like m = zeros_like m'.
Proof.
  revert m'. induction m as [|x m IH]; intros [|y m'] H; try discriminate H;
    [reflexivity|]. cbn. f_equal. apply IH. cbn in H. lia.
Qed.

(** X4.  [D2Q9Dellar.equilibrium] is a projection that keeps the conserved
    moments.  On fewer than six moments it raises [IndexError]; where the
    density [m[0]] is zero the result is not finite.  Otherwise the result
    has the shape of [m] and the density and momentum of [m], its moments
    from the seventh on are zero, it depends on no moment of [m] other than
    density and momentum, and the equilibrium of the result is the result
    itself. *)
Theorem D2Q9Dellar_equilibrium_projection (m : list Q) :
  ((length m < 6)%nat → D2Q9Dellar_equilibrium m = Raise IndexError)
  ∧ ((6 ≤ length m)%nat →
     ∀ rho, m !! 0%nat = Some rho →
       (rho == 0 → D2Q9Dellar_equilibrium m = Ok NotFinite)
       ∧ (¬ rho == 0 →
          ∃ meq, D2Q9Dellar_equilibrium m = Ok (Finite meq)
                 ∧ length meq = length m
                 ∧ take 3 meq = take 3 m
                 ∧ (∀ i, (6 ≤ i < length m)%nat → meq !! i = Some 0)
                 ∧ D2Q9Dellar_equilibrium meq = Ok (Finite meq)
                 ∧ ∀ m', length m' = length m → take 3 m' = take 3 m →
                         D2Q9Dellar_equilibrium m' = Ok (Finite meq))).
Proof.
  split.
  - intros Hlen. unfold D2Q9Dellar_equilibrium.
    destruct m as [|rho [|jx [|jy [|a [|b [|c rest]]]]]];
      cbn [item lookup list_lookup bind zeros_like fmap list_fmap];
      try reflexivity;
      [rewrite !setitem_Ok by (cbn [length]; lia); cbn [bind];
       rewrite ?setitem_Ok by (rewrite ?length_insert; cbn [length]; lia);
       cbn [bind];
       rewrite setitem_Raise by (rewrite ?length_insert; cbn [length]; lia);
       reflexivity .. |].
    cbn [length] in Hlen. lia.
  - intros Hlen rho Hrho.
    destruct m as [|rho' [|jx [|jy [|a [|b [|c rest]]]]]];
      cbn [length] in Hlen; try lia.
    injection Hrho as ->. rewrite D2Q9Dellar_equilibrium_eq. split.
    + intros Hz. apply Qeq_bool_iff in Hz. rewrite Hz. reflexivity.
    + intros Hnz.
      assert (Hb : Qeq_bool rho 0 = false).
      { destruct (Qeq_bool rho 0) eqn:E; [|reflexivity].
        apply Qeq_bool_iff in E. contradiction. }
      rewrite Hb. eexists. split; [reflexivity|].
      split; [cbn [length]; unfold zeros_like; rewrite length_fmap; reflexivity|].
      split; [reflexivity|]. split; [|split].
      * intros i Hi. do 6 (destruct i as [|i]; [lia|]). cbn [lookup list_lookup].
        apply zeros_like_lookup. cbn [length] in Hi. lia.
      * rewrite D2Q9Dellar_equilibrium_eq, Hb, zeros_like_idemp. reflexivity.
      * intros m' Hlen' Htake.
        destruct m' as [|rho' [|jx' [|jy' [|a' [|b' [|c' rest']]]]]];
          try discriminate Hlen'.
        injection Htake as -> -> ->.
        rewrite D2Q9Dellar_equilibrium_eq, Hb.
        rewrite (zeros_like_length rest' rest) by (cbn [length] in Hlen'; lia).
        reflexivity.
Qed.

Lemma D2Q9Dellar_equilibrium_projection_witness :
  D2Q9Dellar_equilibrium [1; 2; 3] = Raise IndexError
  ∧ D2Q9Dellar_equilibrium [0; 1; 1; 1; 1; 1; 1; 1; 1] = Ok NotFinite
  ∧ ∃ meq, D2Q9Dellar_equilibrium [2; 1; 1; 5; 5; 5; 5; 5; 5] = Ok (Finite meq)
           ∧ length meq = 9%nat
           ∧ take 3 meq = [2; 1; 1]
           ∧ (∀ i, (6 ≤ i < 9)%nat → meq !! i = Some 0)
           ∧ D2Q9Dellar_equilibrium meq = Ok (Finite meq)
           ∧ ∀ m', length m' = 9%nat → take 3 m' = [2; 1; 1] →
                   D2Q9Dellar_equilibrium m' = Ok (Finite meq).
Proof.
  split; [|split].
  - apply (D2Q9Dellar_equilibrium_projection [1; 2; 3]). cbn. lia.
  - apply (proj2 (D2Q9Dellar_equilibrium_projection [0; 1; 1; 1; 1; 1; 1; 1; 1])
             ltac:(cbn; lia) 0 eq_refl). reflexivity.
  - apply (proj2 (D2Q9Dellar_equilibrium_projection [2; 1; 1; 5; 5; 5; 5; 5; 5])
             ltac:(cbn; lia) 2 eq_refl). discriminate.
Defined.

End MomentEquilibriaFacts.

Module EquilibriaAgreementFacts.
Import Raising Stencils Moments MomentEquilibria MomentEquilibriaFacts.
Local Open Scope Q_scope.

(** The nine assignments of [D2Q9Lallemand.equilibrium] on a tensor with
    at least nine rows. *)
Lemma D2Q9Lallemand_equilibrium_eq (rho jx jy a b c d e f : Q) (rest : list Q) :
  D2Q9Lallemand_equilibrium (rho :: jx :: jy :: a :: b :: c :: d :: e :: f :: rest)
  = Ok (rho :: jx :: jy
        :: (1 # 2) * (2 # 3) * (jx ^ 2 - jy ^ 2)
        :: (1 # 2) * (2 # 3) * (jx * jy)
        :: (1 # 4) * -8 * rho + (1 # 6) * 18 * (jx ^ 2 + jy ^ 2)
        :: (1 # 2) * -2 * jx
        :: (1 # 2) * -2 * jy
        :: (1 # 4) * 4 * rho + (1 # 6) * -18 * (jx ^ 2 + jy ^ 2)
        :: zeros_like rest).
Proof.
  unfold D2Q9Lallemand_equilibrium. cbn [item lookup list_lookup bind].
  cbn [zeros_like fmap list_fmap].
  rewrite !setitem_Ok by (cbn [length]; lia). cbn [bind].
  rewrite !setitem_Ok by (rewrite ?length_insert; cbn [length]; lia). cbn [bind].
  reflexivity.
Qed.

(** X5.  [D2Q9Lallemand.equilibrium] is a projection that keeps the conserved
    moments.  On fewer than nine moments it raises [IndexError].
    Otherwise the result has the shape of [m] and the density and momentum
    of [m], depends on no other moment of [m], and is its own equilibrium;
    its heat flux is the reversed momentum. *)
Theorem D2Q9Lallemand_equilibrium_projection (m : list Q) :
  ((length m < 9)%nat → D2Q9Lallemand_equilibrium m = Raise IndexError)
  ∧ ((9 ≤ length m)%nat →
     ∃ meq, D2Q9Lallemand_equilibrium m = Ok meq
            ∧ length meq = length m
            ∧ take 3 meq = take 3 m
            ∧ (∀ i, (9 ≤ i < length m)%nat → meq !! i = Some 0)
            ∧ D2Q9Lallemand_equilibrium meq = Ok meq
            ∧ (∀ m', length m' = length m → take 3 m' = take 3 m →
                     D2Q9Lallemand_equilibrium m' = Ok meq)
            ∧ ∃ jx jy qx qy,
                m !! 1%nat = Some jx ∧ m !! 2%nat = Some jy
                ∧ meq !! 6%nat = Some qx ∧ meq !! 7%nat = Some qy
                ∧ qx == - jx ∧ qy == - jy).
Proof.
  split.
  - intros Hlen. unfold D2Q9Lallemand_equilibrium.
    destruct m as [|rho [|jx [|jy [|a [|b [|c [|d [|e [|f rest]]]]]]]]];
      cbn [item lookup list_lookup bind zeros_like fmap list_fmap];
      try reflexivity;
      [rewrite !setitem_Ok by (cbn [length]; lia); cbn [bind];
       rewrite ?setitem_Ok by (rewrite ?length_insert; cbn [length]; lia);
       cbn [bind];
       rewrite setitem_Raise by (rewrite ?length_insert; cbn [length]; lia);
       reflexivity .. |].
    cbn [length] in Hlen. lia.
  - intros Hlen.
    destruct m as [|rho [|jx [|jy [|a [|b [|c [|d [|e [|f rest]]]]]]]]];
      cbn [length] in Hlen; try lia.
    rewrite D2Q9Lallemand_equilibrium_eq. eexists. split; [reflexivity|].
    split; [cbn [length]; unfold zeros_like; rewrite length_fmap; reflexivity|].
    split; [reflexivity|]. split; [|split; [|split]].
    + intros i Hi. do 9 (destruct i as [|i]; [lia|]). cbn [lookup list_lookup].
      apply zeros_like_lookup. cbn [length] in Hi. lia.
    + rewrite D2Q9Lallemand_equilibrium_eq, zeros_like_idemp. reflexivity.
    + intros m' Hlen' Htake.
      destruct m' as [|rho' [|jx' [|jy' [|a' [|b' [|c' [|d' [|e' [|f' rest']]]]]]]]];
        try discriminate Hlen'.
      injection Htake as -> -> ->.
      rewrite D2Q9Lallemand_equilibrium_eq.
      rewrite (zeros_like_length rest' rest) by (cbn [length] in Hlen'; lia).
      reflexivity.
    + exists jx, jy. eexists _, _.
      split; [reflexivity|]. split; [reflexivity|].
      split; [reflexivity|]. split; [reflexivity|]. split; ring.
Qed.

Lemma D2Q9Lallemand_equilibrium_projection_witness :
  D2Q9Lallemand_equilibrium [1; 2; 3; 4; 5; 6] = Raise IndexError
  ∧ ∃ meq, D2Q9Lallemand_equilibrium [2; 1; 1; 5; 5; 5; 5; 5; 5] = Ok meq
           ∧ length meq = 9%nat
           ∧ take 3 meq = [2; 1; 1]
           ∧ (∀ i, (9 ≤ i < 9)%nat → meq !! i = Some 0)
           ∧ D2Q9Lallemand_equilibrium meq = Ok meq
           ∧ (∀ m', length m' = 9%nat → take 3 m' = [2; 1; 1] →
                    D2Q9Lallemand_equilibrium m' = Ok meq)
           ∧ ∃ jx jy qx qy,
               [2; 1; 1; 5; 5; 5; 5; 5; 5] !! 1%nat = Some jx
               ∧ [2; 1; 1; 5; 5; 5; 5; 5; 5] !! 2%nat = Some jy
               ∧ meq !! 6%nat = Some qx ∧ meq !! 7%nat = Some qy
               ∧ qx == - jx ∧ qy == - jy.
Proof.
  split.
  - apply (D2Q9Lallemand_equilibrium_projection [1; 2; 3; 4; 5; 6]). cbn. lia.
  - apply (D2Q9Lallemand_equilibrium_projection [2; 1; 1; 5; 5; 5; 5; 5; 5]).
    cbn. lia.
Defined.

(** X6.  The two hand-written equilibria agree where they can.  Take the
    populations [f] of a cell of non-zero density, Dellar's equilibrium of
    their moments, and the populations that equilibrium stands for.  Their
    moments in Lallemand's basis agree with [D2Q9Lallemand.equilibrium] of
    the Lallemand moments of [f] on [rho], [jx], [jy], [qx] and [qy]. *)
Theorem D2Q9_equilibria_agree_on_same_moments (f : list Q) (rho : Q) :
  length f = 9%nat →
  transform D2Q9Dellar f !! 0%nat = Some rho →
  ¬ rho == 0 →
  ∃ meq_dellar meq_lallemand idxs,
    D2Q9Dellar_equilibrium (transform D2Q9Dellar f) = Ok (Finite meq_dellar)
    ∧ D2Q9Lallemand_equilibrium (transform D2Q9Lallemand f) = Ok meq_lallemand
    ∧ getitem D2Q9Lallemand same_moments = Ok idxs
    ∧ ∀ i, i ∈ idxs →
        ∃ x y,
          transform D2Q9Lallemand (inverse_transform D2Q9Dellar meq_dellar) !! i
            = Some x
          ∧ meq_lallemand !! i = Some y
          ∧ x == y.
Proof.
  intros Hlen Hrho Hnz.
  do 9 (destruct f as [|? f]; [discriminate Hlen|]).
  destruct f; [clear Hlen | discriminate Hlen].
  cbn [transform inverse_transform D2Q9Dellar D2Q9Lallemand] in *.
  unfold mv in Hrho |- *. cbn [D2Q9Dellar_matrix D2Q9Lallemand_matrix fmap list_fmap] in Hrho |- *.
  cbn [lookup list_lookup] in Hrho. injection Hrho as Hrho.
  rewrite D2Q9Dellar_equilibrium_eq, D2Q9Lallemand_equilibrium_eq.
  assert (Hb : Qeq_bool rho 0 = false).
  { destruct (Qeq_bool rho 0) eqn:E; [|reflexivity].
    apply Qeq_bool_iff in E. contradiction. }
  rewrite Hrho, Hb.
  eexists _, _, _. split; [reflexivity|]. split; [reflexivity|].
  split; [reflexivity|].
  intros i Hi.
  repeat (apply elem_of_cons in Hi as [->|Hi]);
    [ | | | | | inversion Hi];
    (eexists _, _; split; [reflexivity|]; split; [reflexivity|]);
    subst rho; unfold dot; simpl; field;
    intros E; apply Hnz; (etransitivity; [|exact E]); unfold dot; simpl; ring.
Qed.

Lemma D2Q9_equilibria_agree_on_same_moments_witness :
  let f := [1; 2; 3; 4; 5; 6; 7; 8; 9] in
  ∃ meq_dellar meq_lallemand idxs,
    D2Q9Dellar_equilibrium (transform D2Q9Dellar f) = Ok (Finite meq_dellar)
    ∧ D2Q9Lallemand_equilibrium (transform D2Q9Lallemand f) = Ok meq_lallemand
    ∧ getitem D2Q9Lallemand same_moments = Ok idxs
    ∧ ∀ i, i ∈ idxs →
        ∃ x y,
          transform D2Q9Lallemand (inverse_transform D2Q9Dellar meq_dellar) !! i
            = Some x
          ∧ meq_lallemand !! i = Some y
          ∧ x == y.
Proof.
  intros f.
  eapply (D2Q9_equilibria_agree_on_same_moments f);
    [reflexivity | reflexivity |].
  intros H. vm_compute in H. discriminate H.
Defined.

End EquilibriaAgreementFacts.

Module DefaultTransformFacts.
Import Stencils Moments BGKInit DefaultTransform.
Local Open Scope Q_scope.

(** X7.  [get_default_moment_transform] returns a transform made for the
    stencil of the lattice, or raises: whatever it returns lists the
    stencil among its supported stencils and is one of the pairs whose
    maps are inverse to each other; for a stencil other than D1Q3 and D2Q9
    it raises [LettuceException].  The default of D2Q9 names the momentum
    moments [jx] and [jy], so [BGKInitialization] accepts it; the default
    of D1Q3 names its momentum [j], so the constructor of
    [BGKInitialization] raises [ValueError] on it. *)
Theorem default_moment_transform_supports_stencil (stencil : Stencil)
    (lattice_repr : string) :
  (∀ T, get_default_moment_transform stencil lattice_repr = Returns T →
        stencil ∈ supported_stencils T ∧ (stencil, T) ∈ supported_pairs)
  ∧ (stencil ≠ D1Q3 → stencil ≠ D2Q9 →
     ∃ msg, get_default_moment_transform stencil lattice_repr
            = LettuceException msg)
  ∧ (∀ tau u rho0,
       ∃ T self,
         get_default_moment_transform D2Q9 lattice_repr = Returns T
         ∧ init tau u rho0 (D D2Q9) T = Ok self
         ∧ momentum_indices self = [1; 2]%nat)
  ∧ (∀ tau u rho0,
       ∃ T msg,
         get_default_moment_transform D1Q3 lattice_repr = Returns T
         ∧ init tau u rho0 (D D1Q3) T = Raise (ValueError msg)).
Proof.
  unfold get_default_moment_transform. split; [|split; [|split]].
  - intros T. destruct (decide (stencil = D1Q3)) as [->|_].
    { intros [= <-]. split; [apply list_elem_of_here|apply list_elem_of_here]. }
    destruct (decide (stencil = D2Q9)) as [->|_]; [|discriminate].
    intros [= <-]. split; [apply list_elem_of_here|].
    do 2 apply list_elem_of_further. apply list_elem_of_here.
  - intros H1 H2.
    destruct (decide (stencil = D1Q3)); [contradiction|].
    destruct (decide (stencil = D2Q9)); [contradiction|]. eauto.
  - intros tau u rho0. eexists _, _.
    destruct (decide (D2Q9 = D1Q3)) as [E|_]; [discriminate E|].
    destruct (decide (D2Q9 = D2Q9)) as [_|E]; [|destruct (E eq_refl)].
    split; [reflexivity|]. split; reflexivity.
  - intros tau u rho0. eexists _, _.
    destruct (decide (D1Q3 = D1Q3)) as [_|E]; [|destruct (E eq_refl)].
    split; reflexivity.
Qed.

Lemma default_moment_transform_supports_stencil_witness :
  get_default_moment_transform D2Q9 "Lattice" = Returns D2Q9Lallemand
  ∧ D2Q9 ∈ supported_stencils D2Q9Lallemand
  ∧ ∃ msg, get_default_moment_transform
             {| e := [[0; 0; 0]]%Z; w := [1]; opposite := [0%nat] |} "Lattice"
           = LettuceException msg.
Proof.
  split; [reflexivity|]. split.
  - apply (default_moment_transform_supports_stencil D2Q9 "Lattice"). reflexivity.
  - apply (default_moment_transform_supports_stencil
             {| e := [[0; 0; 0]]%Z; w := [1]; opposite := [0%nat] |} "Lattice");
      discriminate.
Defined.

End DefaultTransformFacts.

(** ** [BGKInitialization]: the moments after the collision *)

Module BGKRelaxationFacts.
Import Stencils Moments BGKInit BGKInitFacts.
Local Open Scope Q_scope.

(** A matrix applied to entrywise equal vectors gives entrywise equal
    vectors. *)
Lemma dot_proper (row a b : list Q) :
  Forall2 Qeq a b → dot row a == dot row b.
Proof.
  intros H. revert row. induction H as [|x y a b Hxy _ IH]; intros [|r row];
    try reflexivity.
  unfold dot in *. cbn [zip_with foldr]. rewrite Hxy, (IH row). reflexivity.
Qed.

Lemma mv_proper (M : list (list Q)) (a b : list Q) :
  Forall2 Qeq a b → Forall2 Qeq (mv M a) (mv M b).
Proof.
  intros H. unfold mv. induction M as [|row M IH]; cbn [fmap list_fmap];
    constructor; [apply dot_proper, H | exact IH].
Qed.

Section Flow.

Variable flow_rho : list Q → Q.
Variable flow_equilibrium : Q → list Q → list Q.

(** [BGKInitialization.__call__] returns the inverse transform of a moment
    vector with the momentum overwritten and the other moments relaxed. *)
Lemma call_moments (T : Transform) (d : nat) (relaxation_parameter_lu : Q)
    (u_lu : list Q) (characteristic_density_lu : Q)
    (self : BGKInitialization) (f : list Q) :
  let Qn := length (names T) in
  (∀ v, length v = Qn → length (transform T v) = Qn) →
  (0 < Qn)%nat →
  (d ≤ 3)%nat →
  length u_lu = d →
  ¬ relaxation_parameter_lu == 0 →
  ¬ relaxation_parameter_lu + 1 == 0 →
  init relaxation_parameter_lu u_lu characteristic_density_lu d T = Ok self →
  length f = Qn →
  length (flow_equilibrium (flow_rho f) u_lu) = Qn →
  ∃ mnew,
    call flow_rho flow_equilibrium self f = Ok (inverse_transform T mnew)
    ∧ length mnew = Qn
    ∧ (∀ k i, momentum_indices self !! k = Some i →
         mnew !! i = (λ uk, flow_rho f * uk) <$> u_lu !! k)
    ∧ (∀ i mi meqi, i ∉ momentum_indices self →
         transform T f !! i = Some mi →
         transform T (flow_equilibrium (flow_rho f) u_lu) !! i = Some meqi →
         mnew !! i
         = Some (mi - 1 / (if decide (i = 0%nat) then relaxation_parameter_lu + 1
                           else relaxation_parameter_lu) * (mi - meqi))).
Proof.
  intros Qn Hlen HQn Hd Hu Htau Htau1 Hinit Hf Hfeq.
  unfold init, getitem in Hinit.
  destruct (getitem_names (names T) (momentum_names d)) as [idx|] eqn:Hget;
    [|discriminate].
  injection Hinit as <-.
  destruct (getitem_names_Ok _ _ _ Hget) as [Hidx_len Hidx].
  pose proof (getitem_names_NoDup _ _ _ (momentum_names_NoDup d) Hget) as Hnd.
  assert (Hnames : length (momentum_names d) = length u_lu).
  { unfold momentum_names. rewrite length_take. simpl. lia. }
  assert (Hrange : Forall (λ i, i < Qn)%nat idx).
  { apply Forall_lookup. intros k i Hk. destruct (Hidx k i Hk) as (n & _ & Hn).
    apply lookup_lt_Some in Hn. exact Hn. }
  unfold call; cbn [tau moment_transformation u momentum_indices].
  set (rho := flow_rho f).
  set (m := transform T f).
  set (meq := transform T (flow_equilibrium rho u_lu)).
  assert (Hm : length m = Qn) by (apply Hlen, Hf).
  assert (Hmeq : length meq = Qn) by (apply Hlen, Hfeq).
  destruct (Qeq_bool relaxation_parameter_lu 0) eqn:E0;
    [apply Qeq_bool_eq in E0; contradiction|].
  destruct (Qeq_bool (relaxation_parameter_lu + 1) 0) eqn:E1;
    [apply Qeq_bool_eq in E1; contradiction|].
  set (mnew := zip_with _ m meq).
  assert (Hmnew : length mnew = Qn).
  { unfold mnew. rewrite length_zip_with. lia. }
  assert (Hmnew_i : ∀ i mi meqi, m !! i = Some mi → meq !! i = Some meqi →
            mnew !! i = Some (mi - 1 / relaxation_parameter_lu * (mi - meqi))).
  { intros i mi meqi Hmi Hmeqi. unfold mnew.
    rewrite lookup_zip_with, Hmi. cbn. rewrite Hmeqi. reflexivity. }
  destruct m as [|m0 m'] eqn:Em; [simpl in Hm; lia|].
  destruct meq as [|meq0 meq'] eqn:Emeq; [simpl in Hmeq; lia|].
  destruct mnew as [|mnew0 mnew'] eqn:Emnew; [simpl in Hmnew; lia|].
  rewrite <- Emnew.
  set (mnew1 := <[0%nat := _]> mnew).
  assert (Hmnew1 : length mnew1 = Qn).
  { unfold mnew1. rewrite length_insert, Emnew. exact Hmnew. }
  destruct (assign_indices_Ok idx ((λ ui, rho * ui) <$> u_lu) mnew1)
    as (m2 & Hrun & Hlen2 & Hset & Hrest).
  { rewrite length_fmap. congruence. }
  { rewrite Hmnew1. exact Hrange. }
  { exact Hnd. }
  rewrite Hrun. exists m2. split; [reflexivity|]. split; [congruence|]. split.
  - intros k i Hk. rewrite (Hset k i Hk), list_lookup_fmap. reflexivity.
  - intros i mi meqi Hi Hmi Hmeqi. rewrite (Hrest i Hi). unfold mnew1.
    destruct i as [|i].
    + rewrite list_lookup_insert_eq by (rewrite Emnew; simpl; lia).
      cbn in Hmi, Hmeqi. injection Hmi as <-. injection Hmeqi as <-. reflexivity.
    + rewrite list_lookup_insert_ne by discriminate.
      rewrite Emnew. apply Hmnew_i; assumption.
Qed.

(** X8.  The moments the collision does not pin relax towards equilibrium.
    Under the conditions of the velocity theorem (a transformation on Q > 0
    moments whose [transform] undoes its [inverse_transform], at most three
    velocity components, no division by zero), the call returns a
    distribution whose moment at every position [i] other than those of
    [jx], [jy], [jz] is [m - 1/tau * (m - meq)], with [tau + 1] in the place
    of [tau] for the moment at position 0.  In particular the moment at
    position 0 is kept when the equilibrium has the same one. *)
Theorem BGKInitialization_relaxes_other_moments
    (T : Transform) (d : nat) (relaxation_parameter_lu : Q) (u_lu : list Q)
    (characteristic_density_lu : Q) (self : BGKInitialization) (f : list Q) :
  let Qn := length (names T) in
  let feq := flow_equilibrium (flow_rho f) u_lu in
  (∀ v, length v = Qn → length (transform T v) = Qn) →
  (∀ m, length m = Qn → Forall2 Qeq (transform T (inverse_transform T m)) m) →
  (0 < Qn)%nat →
  (d ≤ 3)%nat →
  length u_lu = d →
  ¬ relaxation_parameter_lu == 0 →
  ¬ relaxation_parameter_lu + 1 == 0 →
  init relaxation_parameter_lu u_lu characteristic_density_lu d T = Ok self →
  length f = Qn →
  length feq = Qn →
  ∃ f', call flow_rho flow_equilibrium self f = Ok f'
        ∧ (∀ i mi meqi, i ∉ momentum_indices self →
             transform T f !! i = Some mi →
             transform T feq !! i = Some meqi →
             ∃ moment,
               transform T f' !! i = Some moment
               ∧ moment == mi - 1 / (if decide (i = 0%nat)
                                     then relaxation_parameter_lu + 1
                                     else relaxation_parameter_lu) * (mi - meqi))
        ∧ (∀ m0 meq0, 0%nat ∉ momentum_indices self →
             transform T f !! 0%nat = Some m0 →
             transform T feq !! 0%nat = Some meq0 →
             m0 == meq0 →
             ∃ moment, transform T f' !! 0%nat = Some moment ∧ moment == m0).
Proof.
  intros Qn feq Hlen Hinv HQn Hd Hu Htau Htau1 Hinit Hf Hfeq.
  destruct (call_moments T d relaxation_parameter_lu u_lu
              characteristic_density_lu self f Hlen HQn Hd Hu Htau Htau1 Hinit
              Hf Hfeq) as (mnew & Hcall & Hmnew & _ & Hother).
  exists (inverse_transform T mnew). split; [exact Hcall|].
  pose proof (Hinv mnew Hmnew) as Hround.
  assert (Hmoment : ∀ i mi meqi, i ∉ momentum_indices self →
            transform T f !! i = Some mi →
            transform T feq !! i = Some meqi →
            ∃ moment,
              transform T (inverse_transform T mnew) !! i = Some moment
              ∧ moment == mi - 1 / (if decide (i = 0%nat)
                                    then relaxation_parameter_lu + 1
                                    else relaxation_parameter_lu) * (mi - meqi)).
  { intros i mi meqi Hi Hmi Hmeqi.
    pose proof (Hother i mi meqi Hi Hmi Hmeqi) as Hnew.
    destruct (Forall2_lookup_r _ _ _ _ _ Hround Hnew) as (moment & Hmom & Heq).
    exists moment. split; assumption. }
  split; [exact Hmoment|].
  intros m0 meq0 H0 Hm0 Hmeq0 Heq.
  destruct (Hmoment 0%nat m0 meq0 H0 Hm0 Hmeq0) as (moment & Hmom & Hval).
  exists moment. split; [exact Hmom|]. rewrite Hval, Heq.
  destruct (decide (0%nat = 0%nat)); [|congruence]. field. exact Htau1.
Qed.

(** X9.  An equilibrium state with the prescribed velocity is a fixed point:
    when the moments of [f] equal those of its equilibrium and its
    momentum moments are [rho * u], the collision returns [f] (entry by
    entry), for a transformation whose two maps are inverse to each other
    and whose inverse map gives equal results on equal moments. *)
Theorem BGKInitialization_fixed_point
    (T : Transform) (d : nat) (relaxation_parameter_lu : Q) (u_lu : list Q)
    (characteristic_density_lu : Q) (self : BGKInitialization) (f : list Q) :
  let Qn := length (names T) in
  let feq := flow_equilibrium (flow_rho f) u_lu in
  (∀ v, length v = Qn → length (transform T v) = Qn) →
  (∀ a b, Forall2 Qeq a b →
          Forall2 Qeq (inverse_transform T a) (inverse_transform T b)) →
  Forall2 Qeq (inverse_transform T (transform T f)) f →
  (0 < Qn)%nat →
  (d ≤ 3)%nat →
  length u_lu = d →
  ¬ relaxation_parameter_lu == 0 →
  ¬ relaxation_parameter_lu + 1 == 0 →
  init relaxation_parameter_lu u_lu characteristic_density_lu d T = Ok self →
  length f = Qn →
  length feq = Qn →
  Forall2 Qeq (transform T f) (transform T feq) →
  (∀ k i uk, momentum_indices self !! k = Some i → u_lu !! k = Some uk →
     ∃ mi, transform T f !! i = Some mi ∧ mi == flow_rho f * uk) →
  ∃ f', call flow_rho flow_equilibrium self f = Ok f' ∧ Forall2 Qeq f' f.
Proof.
  intros Qn feq Hlen Hproper Hleft HQn Hd Hu Htau Htau1 Hinit Hf Hfeq Heq Hmom.
  destruct (call_moments T d relaxation_parameter_lu u_lu
              characteristic_density_lu self f Hlen HQn Hd Hu Htau Htau1 Hinit
              Hf Hfeq) as (mnew & Hcall & Hmnew & Hset & Hother).
  exists (inverse_transform T mnew). split; [exact Hcall|].
  etransitivity; [|exact Hleft]. apply Hproper.
  apply Forall2_same_length_lookup. split.
  { rewrite Hmnew. symmetry. apply Hlen, Hf. }
  intros i x mi Hx Hmi.
  destruct (Forall2_lookup_l _ _ _ _ _ Heq Hmi) as (meqi & Hmeqi & Hmm).
  destruct (decide (i ∈ momentum_indices self)) as [Hin|Hout].
  - apply list_elem_of_lookup in Hin as [k Hk].
    rewrite (Hset k i Hk) in Hx.
    destruct (u_lu !! k) as [uk|] eqn:Huk; [|discriminate Hx].
    injection Hx as <-.
    destruct (Hmom k i uk Hk Huk) as (mi' & Hmi' & Hval).
    assert (mi' = mi) as -> by congruence. symmetry. exact Hval.
  - rewrite (Hother i mi meqi Hout Hmi Hmeqi) in Hx. injection Hx as <-.
    rewrite <- Hmm. destruct (decide (i = 0%nat)); field; assumption.
Qed.

End Flow.

Lemma BGKInitialization_relaxes_other_moments_witness :
  let self := {| tau := 2; moment_transformation := D2Q9Lallemand;
                 u := [1 # 10; 0]; rho0 := 1; momentum_indices := [1; 2]%nat |} in
  let f := [1; 2; 3; 4; 5; 6; 7; 8; 9] in
  let feq := Sample.flow_equilibrium (Sample.flow_rho f) [1 # 10; 0] in
  ∃ f', call Sample.flow_rho Sample.flow_equilibrium self f = Ok f'
        ∧ (∀ i mi meqi, i ∉ [1; 2]%nat →
             transform D2Q9Lallemand f !! i = Some mi →
             transform D2Q9Lallemand feq !! i = Some meqi →
             ∃ moment,
               transform D2Q9Lallemand f' !! i = Some moment
               ∧ moment == mi - 1 / (if decide (i = 0%nat) then 2 + 1 else 2)
                                * (mi - meqi))
        ∧ (∀ m0 meq0, 0%nat ∉ [1; 2]%nat →
             transform D2Q9Lallemand f !! 0%nat = Some m0 →
             transform D2Q9Lallemand feq !! 0%nat = Some meq0 →
             m0 == meq0 →
             ∃ moment, transform D2Q9Lallemand f' !! 0%nat = Some moment
                       ∧ moment == m0).
Proof.
  intros self f feq.
  apply (BGKInitialization_relaxes_other_moments
           Sample.flow_rho Sample.flow_equilibrium
           D2Q9Lallemand 2 2 [1 # 10; 0] 1 self f).
  - intros v Hv. reflexivity.
  - intros m Hm. apply MomentsFacts.D2Q9Lallemand_right_inverse. exact Hm.
  - cbn. lia.
  - lia.
  - reflexivity.
  - discriminate.
  - discriminate.
  - reflexivity.
  - reflexivity.
  - reflexivity.
Defined.

Lemma BGKInitialization_fixed_point_witness :
  let self := {| tau := 2; moment_transformation := D2Q9Lallemand;
                 u := [0; 0]; rho0 := 1; momentum_indices := [1; 2]%nat |} in
  let f := w D2Q9 in
  ∃ f', call Sample.flow_rho Sample.flow_equilibrium self f = Ok f'
        ∧ Forall2 Qeq f' f.
Proof.
  intros self f.
  apply (BGKInitialization_fixed_point
           Sample.flow_rho Sample.flow_equilibrium
           D2Q9Lallemand 2 2 [0; 0] 1 self f).
  - intros v Hv. reflexivity.
  - intros a b Hab. apply mv_proper, Hab.
  - apply MomentsFacts.D2Q9Lallemand_left_inverse. reflexivity.
  - cbn. lia.
  - lia.
  - reflexivity.
  - discriminate.
  - discriminate.
  - reflexivity.
  - reflexivity.
  - reflexivity.
  - apply mv_proper. unfold f.
    repeat (apply Forall2_cons; split; [vm_compute; reflexivity|]). constructor.
  - intros k i uk Hk Huk.
    destruct k as [|[|k]]; cbn in Hk, Huk; try discriminate Hk;
      injection Hk as <-; injection Huk as <-;
      (eexists; split; [reflexivity|]; vm_compute; reflexivity).
Defined.

End BGKRelaxationFacts.

(** ** Reference boundaries: how the operators compose *)

Module BoundaryAlgebra.
Import Stencils Boundary BoundaryFacts.
Local Open Scope Q_scope.

Lemma shape_where (mask : list bool) (a b : tensor) (Qn n : nat) :
  shape a Qn n → shape b Qn n → length mask = n →
  shape (where_ mask a b) Qn n.
Proof.
  intros [Ha Hra] [Hb Hrb] Hmask. unfold where_. split.
  - rewrite length_zip_with. lia.
  - apply Forall_lookup. intros q row. rewrite lookup_zip_with.
    destruct (a !! q) as [ra|] eqn:Ea; simpl; [|discriminate].
    destruct (b !! q) as [rb|] eqn:Eb; simpl; [|discriminate].
    intros [= <-]. rewrite length_zip_with, length_zip_with.
    rewrite Forall_lookup in Hra, Hrb.
    rewrite (Hra q ra Ea), (Hrb q rb Eb). lia.
Qed.

(** Tensors of one shape with the same entries are equal. *)
Lemma tensor_ext (a b : tensor) (Qn n : nat) :
  shape a Qn n → shape b Qn n →
  (∀ q x, (q < Qn)%nat → (x < n)%nat → entry a q x = entry b q x) →
  a = b.
Proof.
  intros [Ha Hra] [Hb Hrb] Hentries. apply list_eq_same_length with Qn;
    [exact Hb | exact Ha |].
  intros q ra rb Hq Hqa Hqb.
  rewrite Forall_lookup in Hra, Hrb.
  apply list_eq_same_length with n; [exact (Hrb q rb Hqb) | exact (Hra q ra Hqa) |].
  intros x va vb Hx Hva Hvb.
  specialize (Hentries q x Hq Hx). unfold entry in Hentries.
  rewrite Hqa, Hqb in Hentries. simpl in Hentries. congruence.
Qed.

Lemma entry_Some (f : tensor) (Qn n q x : nat) :
  shape f Qn n → (q < Qn)%nat → (x < n)%nat → is_Some (entry f q x).
Proof.
  intros [Hlen Hrows] Hq Hx. unfold entry.
  destruct (lookup_lt_is_Some_2 f q) as [row Hrow]; [lia|].
  rewrite Hrow. simpl. apply lookup_lt_is_Some_2.
  rewrite Forall_lookup in Hrows. rewrite (Hrows q row Hrow). exact Hx.
Qed.

Lemma shape_BounceBackBoundary_call (bb : BounceBackBoundary) (f : tensor)
    (Qn n : nat) :
  shape f Qn n → length (bb_mask bb) = n →
  length (opposite (bb_lattice bb)) = Qn →
  Forall (λ i, i < Qn)%nat (opposite (bb_lattice bb)) →
  shape (BounceBackBoundary_call bb f) Qn n.
Proof.
  intros Hf Hmask Hopp Hin. apply shape_where; [|exact Hf|exact Hmask].
  apply shape_take_rows; assumption.
Qed.

(** The bounced entry. *)
Lemma entry_BounceBackBoundary_call (bb : BounceBackBoundary) (f : tensor)
    (Qn n q x : nat) (b : bool) :
  shape f Qn n → length (bb_mask bb) = n →
  length (opposite (bb_lattice bb)) = Qn →
  Forall (λ i, i < Qn)%nat (opposite (bb_lattice bb)) →
  bb_mask bb !! x = Some b →
  entry (BounceBackBoundary_call bb f) q x
  = if b then opposite (bb_lattice bb) !! q ≫= λ q', entry f q' x
    else entry f q x.
Proof.
  intros Hf Hmask Hopp Hin Hx. unfold BounceBackBoundary_call.
  pose proof (shape_take_rows f _ Qn n Hf Hopp Hin) as Hrows.
  destruct b.
  - rewrite (entry_where_true _ _ _ Qn n) by assumption.
    apply entry_take_rows. destruct Hf as [-> _]. exact Hin.
  - apply (entry_where_false _ _ _ Qn n); assumption.
Qed.

(** X10.  Bouncing back twice restores the distribution: where the table of
    opposite directions is an involution, [BounceBackBoundary.__call__]
    applied to its own result returns the tensor it started from. *)
Theorem BounceBackBoundary_twice (bb : BounceBackBoundary) (f : tensor)
    (Qn n : nat) :
  shape f Qn n →
  length (bb_mask bb) = n →
  length (opposite (bb_lattice bb)) = Qn →
  (∀ q q', opposite (bb_lattice bb) !! q = Some q' →
           opposite (bb_lattice bb) !! q' = Some q) →
  BounceBackBoundary_call bb (BounceBackBoundary_call bb f) = f.
Proof.
  intros Hf Hmask Hopp Hinv.
  assert (Hin : Forall (λ i, i < Qn)%nat (opposite (bb_lattice bb))).
  { apply Forall_lookup. intros q q' Hq. apply Hinv, lookup_lt_Some in Hq. lia. }
  pose proof (shape_BounceBackBoundary_call bb f Qn n Hf Hmask Hopp Hin) as Hbf.
  apply (tensor_ext _ _ Qn n);
    [apply shape_BounceBackBoundary_call; assumption | exact Hf |].
  intros q x Hq Hx.
  destruct (lookup_lt_is_Some_2 (bb_mask bb) x) as [b Hb]; [lia|].
  rewrite (entry_BounceBackBoundary_call bb _ Qn n q x b) by assumption.
  destruct b.
  - destruct (lookup_lt_is_Some_2 (opposite (bb_lattice bb)) q) as [q' Hq'];
      [lia|].
    rewrite Hq'. simpl.
    rewrite (entry_BounceBackBoundary_call bb f Qn n q' x true) by assumption.
    rewrite (Hinv q q' Hq'). reflexivity.
  - apply (entry_BounceBackBoundary_call bb f Qn n q x false); assumption.
Qed.

Lemma BounceBackBoundary_twice_witness :
  BounceBackBoundary_call Sample.bounce_back
    (BounceBackBoundary_call Sample.bounce_back Sample.f_tensor)
  = Sample.f_tensor.
Proof.
  apply (BounceBackBoundary_twice Sample.bounce_back Sample.f_tensor 9 2).
  - split; [reflexivity|]. repeat constructor.
  - reflexivity.
  - reflexivity.
  - intros q q' Hq.
    do 9 (destruct q as [|q]; [injection Hq as <-; reflexivity|]).
    discriminate Hq.
Defined.

(** X11.  Bounce-back only permutes the populations of a cell: where the table
    of opposite directions is a permutation of the directions, the
    populations of every cell after [BounceBackBoundary.__call__] are those
    before it, rearranged (so their sum, the mass of the cell, is kept). *)
Theorem BounceBackBoundary_permutes_cell (bb : BounceBackBoundary) (f : tensor)
    (Qn n x : nat) :
  shape f Qn n →
  length (bb_mask bb) = n →
  opposite (bb_lattice bb) ≡ₚ seq 0 Qn →
  (x < n)%nat →
  (λ row : list Q, row !! x) <$> BounceBackBoundary_call bb f
  ≡ₚ (λ row : list Q, row !! x) <$> f.
Proof.
  intros Hf Hmask Hperm Hx.
  assert (Hopp : length (opposite (bb_lattice bb)) = Qn).
  { rewrite Hperm, length_seq. reflexivity. }
  assert (Hin : Forall (λ i, i < Qn)%nat (opposite (bb_lattice bb))).
  { rewrite Hperm. apply Forall_forall. intros i Hi. apply elem_of_seq in Hi. lia. }
  pose proof (shape_BounceBackBoundary_call bb f Qn n Hf Hmask Hopp Hin) as Hbf.
  destruct (lookup_lt_is_Some_2 (bb_mask bb) x) as [b Hb]; [lia|].
  set (col := (λ row : list Q, row !! x) <$> f).
  assert (Hcol : length col = Qn).
  { unfold col. rewrite length_fmap. apply Hf. }
  assert (Hnew : (λ row : list Q, row !! x) <$> BounceBackBoundary_call bb f
                 = if b then (λ q', default None (col !! q')) <$> opposite (bb_lattice bb)
                   else col).
  { apply list_eq_same_length with Qn.
    - destruct b; [rewrite length_fmap; exact Hopp | exact Hcol].
    - rewrite length_fmap. apply Hbf.
    - intros q v v' Hq Hv Hv'.
      rewrite list_lookup_fmap in Hv.
      pose proof (entry_BounceBackBoundary_call bb f Qn n q x b Hf Hmask Hopp Hin Hb)
        as Hentry.
      unfold entry in Hentry.
      destruct (BounceBackBoundary_call bb f !! q) as [row|]; [|discriminate Hv].
      simpl in Hv, Hentry. injection Hv as <-. rewrite Hentry.
      destruct b.
      + rewrite list_lookup_fmap in Hv'.
        destruct (opposite (bb_lattice bb) !! q) as [q'|]; [|discriminate Hv'].
        simpl in Hv' |- *. injection Hv' as <-.
        unfold col. rewrite list_lookup_fmap.
        destruct (f !! q'); reflexivity.
      + unfold col in Hv'. rewrite list_lookup_fmap in Hv'.
        destruct (f !! q); [|discriminate Hv']. simpl in Hv' |- *. congruence. }
  rewrite Hnew. destruct b; [|reflexivity].
  rewrite Hperm.
  assert (Hseq : (λ q', default None (col !! q')) <$> seq 0 Qn = col).
  { rewrite <- Hcol. clear. induction col as [|c col IH] using rev_ind;
      [reflexivity|].
    rewrite length_app. simpl. rewrite Nat.add_1_r, seq_S, fmap_app. simpl.
    rewrite lookup_app_r by lia. rewrite Nat.sub_diag. simpl. f_equal.
    rewrite <- IH at 2. apply list_fmap_ext. intros i q Hi.
    apply lookup_seq in Hi as [-> Hi]. simpl.
    rewrite lookup_app_l by lia. reflexivity. }
  rewrite Hseq. reflexivity.
Qed.

Lemma BounceBackBoundary_permutes_cell_witness :
  (λ row : list Q, row !! 0%nat)
    <$> BounceBackBoundary_call Sample.bounce_back Sample.f_tensor
  ≡ₚ (λ row : list Q, row !! 0%nat) <$> Sample.f_tensor.
Proof.
  apply (BounceBackBoundary_permutes_cell Sample.bounce_back Sample.f_tensor 9 2 0).
  - split; [reflexivity|]. repeat constructor.
  - reflexivity.
  - apply (bool_decide_unpack _). vm_compute. exact I.
  - lia.
Defined.

End BoundaryAlgebra.

Module BoundaryLayoutFacts.
Import Stencils Boundary BoundaryFacts BoundaryAlgebra.
Local Open Scope Q_scope.

Section Equilibrium.

Variable convert_pressure_pu_to_density_lu : Q → Q.
Variable convert_velocity_to_lu : list Q → list Q.
Variable equilibrium : Q → list Q → list Q.

Local Abbreviation EquilibriumBoundaryPU_call :=
  (EquilibriumBoundaryPU_call convert_pressure_pu_to_density_lu
     convert_velocity_to_lu equilibrium).
Local Abbreviation precomputed_equilibrium :=
  (precomputed_equilibrium convert_pressure_pu_to_density_lu
     convert_velocity_to_lu equilibrium).

Lemma shape_EquilibriumBoundaryPU_call (eqb : EquilibriumBoundaryPU)
    (f : tensor) (Qn n : nat) :
  shape f Qn n → length (eq_mask eqb) = n →
  length (precomputed_equilibrium eqb) = Qn →
  shape (EquilibriumBoundaryPU_call eqb f) Qn n.
Proof.
  intros Hf Hmask Hfeq. apply shape_where; [|exact Hf|exact Hmask].
  apply shape_einsum_q; assumption.
Qed.

Lemma entry_EquilibriumBoundaryPU_call (eqb : EquilibriumBoundaryPU)
    (f : tensor) (Qn n q x : nat) (b : bool) :
  shape f Qn n → length (eq_mask eqb) = n →
  length (precomputed_equilibrium eqb) = Qn →
  (q < Qn)%nat →
  eq_mask eqb !! x = Some b →
  entry (EquilibriumBoundaryPU_call eqb f) q x
  = if b then (λ fq, fq * 1) <$> precomputed_equilibrium eqb !! q
    else entry f q x.
Proof.
  intros Hf Hmask Hfeq Hq Hx. unfold Boundary.EquilibriumBoundaryPU_call.
  pose proof (shape_einsum_q _ f Qn n Hf Hfeq) as Hshape.
  destruct b.
  - rewrite (entry_where_true _ _ _ Qn n) by assumption.
    destruct (lookup_lt_is_Some_2 (precomputed_equilibrium eqb) q) as [fq Hfq];
      [lia|].
    destruct (entry_Some f Qn n q x Hf Hq) as [v Hv].
    { apply lookup_lt_Some in Hx. lia. }
    rewrite Hfq. apply (entry_einsum_q _ f q x fq v); assumption.
  - apply (entry_where_false _ _ _ Qn n); assumption.
Qed.

(** X12.  The equilibrium boundary forgets the populations of its cells: two
    distributions that agree wherever the mask is false are mapped to the
    same result by [EquilibriumBoundaryPU.__call__], and applying the
    boundary a second time changes nothing. *)
Theorem EquilibriumBoundaryPU_idempotent (eqb : EquilibriumBoundaryPU)
    (f g : tensor) (Qn n : nat) :
  shape f Qn n → shape g Qn n →
  length (eq_mask eqb) = n →
  length (precomputed_equilibrium eqb) = Qn →
  (∀ q x, eq_mask eqb !! x = Some false → entry f q x = entry g q x) →
  EquilibriumBoundaryPU_call eqb f = EquilibriumBoundaryPU_call eqb g
  ∧ EquilibriumBoundaryPU_call eqb (EquilibriumBoundaryPU_call eqb f)
    = EquilibriumBoundaryPU_call eqb f.
Proof.
  intros Hf Hg Hmask Hfeq Hagree.
  pose proof (shape_EquilibriumBoundaryPU_call eqb f Qn n Hf Hmask Hfeq) as Hcf.
  pose proof (shape_EquilibriumBoundaryPU_call eqb g Qn n Hg Hmask Hfeq) as Hcg.
  split.
  - apply (tensor_ext _ _ Qn n); [exact Hcf | exact Hcg |].
    intros q x Hq Hx.
    destruct (lookup_lt_is_Some_2 (eq_mask eqb) x) as [b Hb]; [lia|].
    rewrite (entry_EquilibriumBoundaryPU_call eqb f Qn n q x b) by assumption.
    rewrite (entry_EquilibriumBoundaryPU_call eqb g Qn n q x b) by assumption.
    destruct b; [reflexivity | apply Hagree, Hb].
  - apply (tensor_ext _ _ Qn n);
      [apply shape_EquilibriumBoundaryPU_call; assumption | exact Hcf |].
    intros q x Hq Hx.
    destruct (lookup_lt_is_Some_2 (eq_mask eqb) x) as [b Hb]; [lia|].
    rewrite (entry_EquilibriumBoundaryPU_call eqb _ Qn n q x b) by assumption.
    rewrite (entry_EquilibriumBoundaryPU_call eqb f Qn n q x b) by assumption.
    destruct b; reflexivity.
Qed.

End Equilibrium.

Lemma EquilibriumBoundaryPU_idempotent_witness :
  let call := Boundary.EquilibriumBoundaryPU_call
                (λ p, p + 1) (λ u, u) Sample.flow_equilibrium
                Sample.equilibrium_pu in
  let g := (λ row : list Q, <[0%nat := 0]> row) <$> Sample.f_tensor in
  call Sample.f_tensor = call g
  ∧ call (call Sample.f_tensor) = call Sample.f_tensor.
Proof.
  intros call g.
  apply (EquilibriumBoundaryPU_idempotent (λ p, p + 1) (λ u, u)
           Sample.flow_equilibrium Sample.equilibrium_pu Sample.f_tensor g 9 2).
  - split; [reflexivity|]. repeat constructor.
  - split; [reflexivity|]. repeat constructor.
  - reflexivity.
  - reflexivity.
  - intros q [|[|x]] Hx; try discriminate Hx.
    do 9 (destruct q as [|q]; [reflexivity|]). reflexivity.
Defined.

(** *** The layout of an outlet *)

Lemma one_nonzero_entry_split (direction : list Z) (s : Z) :
  filter (λ z, z ≠ 0%Z) direction = [s] →
  ∃ k, direction = replicate k 0%Z ++ s :: replicate (length direction - S k) 0%Z.
Proof.
  induction direction as [|z direction IH]; [discriminate|].
  rewrite filter_cons. destruct (decide (z ≠ 0%Z)) as [Hz|Hz].
  - intros [= -> Hrest]. exists 0%nat. cbn [replicate app length].
    replace (S (length direction) - 1)%nat with (length direction) by lia.
    f_equal.
    clear -Hrest. induction direction as [|y l IH]; [reflexivity|].
    rewrite filter_cons in Hrest. destruct (decide (y ≠ 0%Z)) as [|Hy];
      [discriminate|].
    assert (y = 0%Z) as -> by (destruct (decide (y = 0%Z)); [assumption|contradiction]).
    cbn [length replicate]. f_equal. apply IH, Hrest.
  - intros Hrest. destruct (IH Hrest) as [k Hk].
    assert (z = 0%Z) as -> by (destruct (decide (z = 0%Z)); [assumption|contradiction]).
    exists (S k). cbn [replicate app length].
    replace (S (length direction) - S (S k))%nat with (length direction - S k)%nat
      by lia.
    f_equal. exact Hk.
Qed.

Lemma bind_replicate_zero {A} (f : Z → list A) (a : A) (k : nat) :
  f 0%Z = [a] → replicate k 0%Z ≫= f = replicate k a.
Proof.
  intros Hf. induction k as [|k IH]; [reflexivity|].
  cbn [replicate]. rewrite bind_cons, Hf, IH. reflexivity.
Qed.



End BoundaryLayoutFacts.

(** ** The streaming kernel on a grid *)

Module LaunchFacts.
Import Kernel KernelFacts Launch.
Local Open Scope Z_scope.

(** One wrap brings the neighbour back on the axis when the velocity is no
    longer than the extent. *)
Lemma wraparound_mod (c ev n : Z) :
  0 ≤ c < n → - n ≤ ev ≤ n → wraparound (c + ev) n = (c + ev) mod n.
Proof.
  intros Hc He. unfold wraparound.
  destruct (decide (c + ev < 0)) as [Hlt|Hge].
  - apply (Z.mod_unique _ _ (-1)); lia.
  - destruct (decide (c + ev >= n)) as [Hbig|Hin].
    + apply (Z.mod_unique _ _ 1); lia.
    + symmetry. apply Z.mod_small. lia.
Qed.

Lemma wraparound_range (c ev n : Z) :
  0 ≤ c < n → - n ≤ ev ≤ n → 0 ≤ wraparound (c + ev) n < n.
Proof.
  intros Hc He. unfold wraparound.
  repeat destruct (decide _); lia.
Qed.

Lemma wraparound_inj (c c' ev n : Z) :
  0 ≤ c < n → 0 ≤ c' < n →
  wraparound (c + ev) n = wraparound (c' + ev) n → c = c'.
Proof.
  intros Hc Hc'. unfold wraparound.
  repeat destruct (decide _); lia.
Qed.

Lemma neighbour_spec_on_grid (cell row dimension : list Z) :
  on_grid dimension cell → short dimension row →
  on_grid dimension (neighbour_spec cell row dimension).
Proof.
  unfold on_grid, short, neighbour_spec. intros Hc. revert row.
  induction Hc as [|c n cell dimension Hcn _ IH]; intros row Hrow.
  - destruct row; constructor.
  - inversion Hrow as [|ev n' row' dim' Hev Hrest]; subst.
    cbn [zip zip_with fst snd]. constructor.
    + apply wraparound_range; assumption.
    + apply IH, Hrest.
Qed.

Lemma neighbour_spec_inj (cell cell' row dimension : list Z) :
  on_grid dimension cell → on_grid dimension cell' →
  length row = length dimension →
  neighbour_spec cell row dimension = neighbour_spec cell' row dimension →
  cell = cell'.
Proof.
  unfold on_grid, neighbour_spec. intros Hc. revert cell' row.
  induction Hc as [|c n cell dimension Hcn _ IH]; intros cell' row Hc' Hlen Heq.
  - inversion Hc'. reflexivity.
  - inversion Hc' as [|c' n' cell'' dim' Hcn' Hrest]; subst.
    destruct row as [|ev row]; [discriminate Hlen|].
    cbn [zip zip_with fst snd] in Heq. injection Heq as Hhead Htail.
    f_equal.
    + eapply wraparound_inj; eassumption.
    + eapply (IH cell'' row); [exact Hrest | cbn in Hlen; lia | exact Htail].
Qed.

Lemma neighbour_spec_mod (cell row dimension : list Z) (k : nat) (c ev n : Z) :
  on_grid dimension cell → short dimension row →
  cell !! k = Some c → row !! k = Some ev → dimension !! k = Some n →
  neighbour_spec cell row dimension !! k = Some ((c + ev) mod n).
Proof.
  intros Hgrid Hshort Hc Hev Hn.
  rewrite (neighbour_spec_lookup cell row dimension k c ev n Hc Hev Hn).
  f_equal. apply wraparound_mod.
  - exact (Forall2_lookup_lr _ _ _ _ _ _ Hgrid Hc Hn).
  - exact (Forall2_lookup_lr _ _ _ _ _ _ Hshort Hev Hn).
Qed.

Lemma well_formed_row (d : nat) (K : launch) (i : nat) :
  well_formed d K → (i < q K)%nat →
  ∃ row, e K !! i = Some row ∧ length row = length (dimension K).
Proof.
  intros (_ & _ & Hdim & Hlen & Hrows) Hi.
  destruct (lookup_lt_is_Some_2 (e K) i) as [row Hrow]; [lia|].
  exists row. split; [exact Hrow|].
  rewrite Forall_lookup in Hrows. rewrite (Hrows i row Hrow). congruence.
Qed.

(** Where the write-back of an unmasked thread on the grid goes. *)
Lemma target_on_grid (d : nat) (K : launch) (mask : bool) (i : nat) :
  well_formed d K →
  on_grid (dimension K) (index K) →
  Forall (short (dimension K)) (e K) →
  (i < q K)%nat →
  on_grid (dimension K) (target K mask i).
Proof.
  intros Hwf Hgrid Hshort Hi. unfold target.
  destruct (mask && default false (no_stream_mask K !! index K)); [exact Hgrid|].
  destruct (well_formed_row d K i Hwf Hi) as (row & Hrow & _). rewrite Hrow.
  cbn [default from_option id]. apply neighbour_spec_on_grid; [exact Hgrid|].
  rewrite Forall_lookup in Hshort. exact (Hshort i row Hrow).
Qed.

(** X14.  The code standard streaming emits stays on the grid.  For the thread
    of a cell of the grid, on a stencil none of whose velocity components
    is longer than the extent of its axis, every store of the write-back
    block goes to a coordinate of the grid: with [f_next] allocated on the
    grid, be it nowhere else, the block runs without an access out of
    bounds.
    Where the thread is not held by the mask, the coordinate along every
    axis is the sum of the cell coordinate and the velocity component
    modulo the extent. *)
Theorem standard_streaming_stays_on_grid (V : Type) (K : launch) (d : nat)
    (mask : bool) (vs0 : gmap string Z) (vals : list V)
    (mem0 : gmap (string * list Z) V) :
  well_formed d K →
  on_grid (dimension K) (index K) →
  Forall (short (dimension K)) (e K) →
  (mask = true → is_Some (no_stream_mask K !! index K)) →
  fresh_locals vs0 →
  length vals = q K →
  allocated K "f_next" mem0 →
  ∃ m',
    exec K (standard_write_block mask d)
      {| vars := vs0; f_reg := Some (Some <$> vals); mem := mem0 |}
    = Some {| vars := vs0; f_reg := Some (Some <$> vals); mem := m' |}
    ∧ (∀ i v, vals !! i = Some v →
         on_grid (dimension K) (target K mask i)
         ∧ m' !! ("f_next", Z.of_nat i :: target K mask i) = Some v)
    ∧ (∀ i row k c ev n,
         mask && default false (no_stream_mask K !! index K) = false →
         e K !! i = Some row →
         index K !! k = Some c → row !! k = Some ev → dimension K !! k = Some n →
         target K mask i !! k = Some ((c + ev) mod n))
    ∧ (∀ key, (∀ i, (i < q K)%nat →
                    key ≠ ("f_next", Z.of_nat i :: target K mask i)) →
              m' !! key = mem0 !! key).
Proof.
  intros Hwf Hgrid Hshort Hmask Hfresh Hvals Halloc.
  pose proof Hwf as (Hd & Hidx & _).
  destruct (exec_standard_write_block V K mask d vs0 vals mem0 Hd Hidx
              (λ _, Hwf) Hmask Hfresh Hvals) as (m' & Hrun & Hset & Hframe).
  { intros i Hi. apply Halloc; [exact Hi|].
    apply (target_on_grid d); assumption. }
  exists m'. split; [exact Hrun|]. split; [|split; [|exact Hframe]].
  - intros i v Hv. split; [|apply Hset, Hv].
    apply (target_on_grid d); try assumption.
    apply lookup_lt_Some in Hv. lia.
  - intros i row k c ev n Hunmasked Hrow Hc Hev Hn. unfold target.
    rewrite Hunmasked, Hrow. cbn [default from_option id].
    apply neighbour_spec_mod; try assumption.
    rewrite Forall_lookup in Hshort. exact (Hshort i row Hrow).
Qed.

End LaunchFacts.

Module GridFacts.
Import Kernel KernelFacts Launch LaunchFacts.
Local Open Scope Z_scope.

Section Grid.

Variable V : Type.
Variable K : launch.
Variable d : nat.

(** The stencil and the extents have [d] components, [d] at most 3. *)
Hypothesis Hd : (d ≤ 3)%nat.
Hypothesis Hdim : length (dimension K) = d.
Hypothesis Hq : length (e K) = q K.
Hypothesis Hrows : Forall (λ row, length row = d) (e K).

Lemma at_cell_well_formed (cell : list Z) :
  on_grid (dimension K) cell → well_formed d (at_cell K cell).
Proof.
  intros Hgrid. unfold well_formed. cbn [at_cell index dimension e q].
  split; [exact Hd|]. split; [|tauto].
  rewrite <- Hdim. exact (Forall2_length _ _ _ Hgrid).
Qed.

(** The values a buffer holds at a cell. *)
Lemma allocated_values (arr : string) (m : gmap (string * list Z) V)
    (cell : list Z) :
  allocated K arr m → on_grid (dimension K) cell →
  ∃ vals, length vals = q K
          ∧ ∀ i v, vals !! i = Some v → m !! (arr, Z.of_nat i :: cell) = Some v.
Proof.
  intros Halloc Hgrid.
  assert (Hn : ∀ n, (n ≤ q K)%nat →
            ∃ vals, length vals = n
                    ∧ ∀ i v, vals !! i = Some v →
                             m !! (arr, Z.of_nat i :: cell) = Some v).
  { induction n as [|n IH]; intros Hle.
    - exists []. split; [reflexivity|]. intros i v Hv. discriminate Hv.
    - destruct IH as (vals & Hlen & Hvals); [lia|].
      destruct (Halloc n cell ltac:(lia) Hgrid) as [v Hv].
      exists (vals ++ [v]). split; [rewrite length_app; simpl; lia|].
      intros i w Hi. destruct (decide (i < n)%nat) as [Hlt|Hge].
      + rewrite lookup_app_l in Hi by lia. apply Hvals, Hi.
      + rewrite lookup_app_r in Hi by lia.
        destruct (i - length vals)%nat as [|j] eqn:Ej; [|discriminate Hi].
        injection Hi as <-. replace i with n by lia. exact Hv. }
  exact (Hn (q K) ltac:(lia)).
Qed.

(** The thread of one cell: every population of the cell is stored at the
    neighbour along its velocity, and nothing else changes. *)
Lemma run_thread_standard (cell : list Z) (m : gmap (string * list Z) V) :
  Forall (short (dimension K)) (e K) →
  on_grid (dimension K) cell →
  allocated K "f" m → allocated K "f_next" m →
  ∃ m',
    run_thread K (thread_body (Streaming.NativeStandardStreaming false) d) cell m
    = Some m'
    ∧ (∀ i row, e K !! i = Some row →
         m' !! ("f_next", Z.of_nat i :: neighbour_spec cell row (dimension K))
         = m !! ("f", Z.of_nat i :: cell))
    ∧ (∀ key, (∀ i row, e K !! i = Some row →
                 key ≠ ("f_next", Z.of_nat i :: neighbour_spec cell row (dimension K))) →
              m' !! key = m !! key).
Proof.
  intros Hshort Hgrid Hf Hnext.
  pose proof (at_cell_well_formed cell Hgrid) as Hwf.
  destruct (allocated_values "f" m cell Hf Hgrid) as (vals & Hlen & Hvals).
  pose proof (exec_read_block V (at_cell K cell) d ∅ vals m Hd
                (proj1 (proj2 Hwf)) fresh_locals_empty Hlen Hvals) as Hread.
  destruct (exec_standard_write_block V (at_cell K cell) false d ∅ vals m Hd
              (proj1 (proj2 Hwf)) (λ _, Hwf) ltac:(discriminate)
              fresh_locals_empty Hlen) as (m' & Hwrite & Hset & Hframe).
  { intros i Hi. apply (Hnext i); [exact Hi|].
    apply (target_on_grid d (at_cell K cell) false i Hwf Hgrid Hshort Hi). }
  exists m'. split; [|split].
  - unfold run_thread, thread_body. cbn [exec]. rewrite Hread.
    cbn [mbind option_bind]. rewrite Hwrite. reflexivity.
  - intros i row Hrow.
    assert (Hi : (i < q K)%nat) by (apply lookup_lt_Some in Hrow; lia).
    destruct (lookup_lt_is_Some_2 vals i ltac:(lia)) as [v Hv].
    rewrite (Hvals i v Hv). specialize (Hset i v Hv).
    unfold target in Hset. cbn [andb at_cell e index dimension] in Hset.
    rewrite Hrow in Hset. exact Hset.
  - intros key Hkey. apply Hframe. intros i Hi. cbn [at_cell q] in Hi.
    destruct (lookup_lt_is_Some_2 (e K) i ltac:(lia)) as [row Hrow].
    unfold target. cbn [andb at_cell e index dimension]. rewrite Hrow.
    apply (Hkey i row Hrow).
Qed.

(** Stores keep what is allocated. *)
Lemma run_thread_allocated (cell : list Z) (m m' : gmap (string * list Z) V)
    (arr : string) :
  Forall (short (dimension K)) (e K) →
  on_grid (dimension K) cell →
  allocated K "f" m → allocated K "f_next" m →
  run_thread K (thread_body (Streaming.NativeStandardStreaming false) d) cell m
  = Some m' →
  allocated K arr m → allocated K arr m'.
Proof.
  intros Hshort Hgrid Hf Hnext Hrun Harr i c Hi Hc.
  destruct (run_thread_standard cell m Hshort Hgrid Hf Hnext)
    as (m'' & Hrun' & Hset & Hframe).
  assert (m'' = m') as -> by congruence.
  destruct (lookup_lt_is_Some_2 (e K) i ltac:(lia)) as [row Hrow].
  destruct (decide ((arr, Z.of_nat i :: c)
                    = ("f_next", Z.of_nat i :: neighbour_spec cell row (dimension K))))
    as [Hkey|Hno].
  - rewrite Hkey, (Hset i row Hrow). apply Hf; [exact Hi | exact Hgrid].
  - rewrite Hframe; [apply Harr; assumption|].
    intros j row' Hrow' Hkey. apply Hno. injection Hkey as -> Hj ->.
    apply Nat2Z.inj in Hj. subst j. congruence.
Qed.

Lemma run_threads_snoc (body : stmt) (cells : list (list Z)) (cell : list Z)
    (m : gmap (string * list Z) V) :
  run_threads K body (cells ++ [cell]) m
  = run_threads K body cells m ≫= run_thread K body cell.
Proof. unfold run_threads. rewrite foldl_app. reflexivity. Qed.

(** The slots a launch over [cells] stores to. *)
Local Abbreviation targeted cells key :=
  (∃ cell i row, cell ∈ cells ∧ e K !! i = Some row
                 ∧ key = ("f_next",
                          Z.of_nat i :: neighbour_spec cell row (dimension K)))
  (only parsing).

Lemma targeted_dec (cells : list (list Z)) (key : string * list Z) :
  targeted cells key ∨ ¬ targeted cells key.
Proof.
  destruct (decide (Exists (λ cell,
              Exists (λ ir, key = ("f_next",
                                   Z.of_nat ir.1
                                   :: neighbour_spec cell ir.2 (dimension K)))
                     (imap pair (e K))) cells)) as [Hyes|Hno].
  - left. apply Exists_exists in Hyes as (cell & Hcell & Hyes).
    apply Exists_exists in Hyes as ([i row] & Hir & Hkey).
    apply elem_of_lookup_imap in Hir as (i' & row' & [= -> ->] & Hrow).
    exists cell, i', row'. split; [exact Hcell|]. split; [exact Hrow | exact Hkey].
  - right. intros (cell & i & row & Hcell & Hrow & Hkey). apply Hno.
    apply Exists_exists. exists cell. split; [exact Hcell|].
    apply Exists_exists. exists (i, row). split; [|exact Hkey].
    apply (elem_of_lookup_imap_2 pair (e K) row i Hrow).
Qed.

Lemma run_threads_standard (cells : list (list Z))
    (m0 : gmap (string * list Z) V) :
  Forall (short (dimension K)) (e K) →
  NoDup cells → Forall (on_grid (dimension K)) cells →
  allocated K "f" m0 → allocated K "f_next" m0 →
  ∃ m',
    run_threads K (thread_body (Streaming.NativeStandardStreaming false) d)
      cells m0 = Some m'
    ∧ (∀ cell i row, cell ∈ cells → e K !! i = Some row →
         m' !! ("f_next", Z.of_nat i :: neighbour_spec cell row (dimension K))
         = m0 !! ("f", Z.of_nat i :: cell))
    ∧ (∀ key, ¬ targeted cells key → m' !! key = m0 !! key)
    ∧ allocated K "f" m' ∧ allocated K "f_next" m'.
Proof.
  intros Hshort Hnd Hgrid Hf Hnext.
  induction cells as [|c cells IH] using rev_ind.
  - exists m0. split; [reflexivity|]. split; [|split; [reflexivity | tauto]].
    intros cell i row Hin. inversion Hin.
  - apply NoDup_app in Hnd as (Hnd & Hfresh & _).
    apply Forall_app in Hgrid as [Hgrid Hc]. rewrite Forall_singleton in Hc.
    destruct (IH Hnd Hgrid) as (m1 & Hrun1 & Hset1 & Hframe1 & Hf1 & Hnext1).
    destruct (run_thread_standard c m1 Hshort Hc Hf1 Hnext1)
      as (m2 & Hrun2 & Hset2 & Hframe2).
    exists m2. split; [|split; [|split; [|split]]].
    + rewrite run_threads_snoc, Hrun1. exact Hrun2.
    + intros cell i row Hin Hrow. apply elem_of_app in Hin as [Hin|Hin].
      * rewrite Hframe2; [apply Hset1; assumption|].
        intros j row' Hrow' [= Hj Hnb]. apply Nat2Z.inj in Hj. subst j.
        assert (row' = row) as -> by congruence.
        apply (Hfresh cell Hin). apply list_elem_of_singleton.
        eapply (neighbour_spec_inj cell c row); [| exact Hc | | exact Hnb].
        -- rewrite Forall_forall in Hgrid. apply Hgrid, Hin.
        -- rewrite Forall_lookup in Hrows. rewrite (Hrows i row Hrow). congruence.
      * apply list_elem_of_singleton in Hin as ->.
        rewrite (Hset2 i row Hrow). apply Hframe1.
        intros (cell & j & row' & _ & _ & Hkey). discriminate Hkey.
    + intros key Hkey. rewrite Hframe2.
      * apply Hframe1. intros (cell & i & row & Hin & Hrow & Heq).
        apply Hkey. exists cell, i, row. split; [|tauto].
        apply elem_of_app. left. exact Hin.
      * intros i row Hrow Heq. apply Hkey. exists c, i, row.
        split; [|tauto]. apply elem_of_app. right. apply list_elem_of_singleton.
        reflexivity.
    + eapply run_thread_allocated; eassumption.
    + eapply run_thread_allocated; eassumption.
Qed.

End Grid.

(** X15.  One launch of standard streaming shifts every population to its
    periodic neighbour.  On a stencil of dimension 1 to 3 none of whose
    velocity components is longer than the extent of its axis, with [f] and
    [f_next] allocated on the grid, running the read block and the
    write-back block (without mask) for the threads of distinct cells of the
    grid, one after another, completes; afterwards [f_next] holds, for
    every such cell [c] and direction [i], the population [f[i, c]] at the
    neighbour of [c] along [e[i]], every other slot is as before, and the
    order of the threads makes no difference. *)
Theorem standard_streaming_shifts_the_grid (V : Type) (K : launch) (d : nat)
    (cells : list (list Z)) (m0 : gmap (string * list Z) V) :
  (d ≤ 3)%nat →
  length (dimension K) = d →
  length (e K) = q K →
  Forall (λ row, length row = d) (e K) →
  Forall (short (dimension K)) (e K) →
  NoDup cells →
  Forall (on_grid (dimension K)) cells →
  allocated K "f" m0 →
  allocated K "f_next" m0 →
  let body := thread_body (Streaming.NativeStandardStreaming false) d in
  ∃ m',
    run_threads K body cells m0 = Some m'
    ∧ (∀ cell i row, cell ∈ cells → e K !! i = Some row →
         m' !! ("f_next", Z.of_nat i :: neighbour_spec cell row (dimension K))
         = m0 !! ("f", Z.of_nat i :: cell))
    ∧ (∀ key,
         (∀ cell i row, cell ∈ cells → e K !! i = Some row →
            key ≠ ("f_next", Z.of_nat i :: neighbour_spec cell row (dimension K))) →
         m' !! key = m0 !! key)
    ∧ (∀ cells', cells' ≡ₚ cells → run_threads K body cells' m0 = Some m').
Proof.
  intros Hd Hdim Hq Hrows Hshort Hnd Hgrid Hf Hnext body.
  destruct (run_threads_standard V K d Hd Hdim Hq Hrows cells m0 Hshort Hnd Hgrid
              Hf Hnext) as (m' & Hrun & Hset & Hframe & _).
  exists m'. split; [exact Hrun|]. split; [exact Hset|]. split.
  - intros key Hkey. apply Hframe.
    intros (cell & i & row & Hin & Hrow & Heq). exact (Hkey cell i row Hin Hrow Heq).
  - intros cells' Hperm.
    destruct (run_threads_standard V K d Hd Hdim Hq Hrows cells' m0 Hshort)
      as (m'' & Hrun' & Hset' & Hframe' & _); try assumption.
    { rewrite Hperm. exact Hnd. }
    { rewrite Hperm. exact Hgrid. }
    unfold body. rewrite Hrun'. f_equal. apply map_eq. intros key.
    destruct (targeted_dec K cells key) as [(cell & i & row & Hin & Hrow & ->)|Hno].
    + rewrite (Hset cell i row Hin Hrow). apply Hset'; [|exact Hrow].
      rewrite Hperm. exact Hin.
    + rewrite (Hframe key Hno). apply Hframe'.
      intros (cell & i & row & Hin & Hrow & Heq). apply Hno.
      exists cell, i, row. split; [|tauto]. rewrite <- Hperm. exact Hin.
Qed.



End GridFacts.

Module NoStreamingFacts.
Import Kernel KernelFacts Launch.

Section Thread.

Variable V : Type.
Variable K : launch.

Local Abbreviation st_ vs regs m :=
  ({| vars := vs; f_reg := regs; mem := m |} : state V).

(** The write-back block of [NativeNoStreaming] stores every register at
    the thread's own cell of [f]. *)
Lemma exec_no_streaming_write_block (d : nat) (vs0 : gmap string Z)
    (vals : list V) (mem0 : gmap (string * list Z) V) :
  (d ≤ 3)%nat → length (index K) = d →
  fresh_locals vs0 →
  length vals = q K →
  (∀ i, (i < q K)%nat → is_Some (mem0 !! ("f", Z.of_nat i :: index K))) →
  ∃ m', exec K (no_streaming_write_block d) (st_ vs0 (Some (Some <$> vals)) mem0)
        = Some (st_ vs0 (Some (Some <$> vals)) m')
        ∧ (∀ i v, vals !! i = Some v →
                  m' !! ("f", Z.of_nat i :: index K) = Some v)
        ∧ (∀ key, (∀ i, (i < q K)%nat → key ≠ ("f", Z.of_nat i :: index K)) →
                  m' !! key = mem0 !! key).
Proof.
  intros Hd Hidx Hfresh Hvals Halloc.
  set (regs := Some <$> vals).
  set (Inv := λ (k : nat) (r : option (list (option V)))
                (m : gmap (string * list Z) V),
         r = Some regs
         ∧ (∀ i v, (i < k)%nat → vals !! i = Some v →
                   m !! ("f", Z.of_nat i :: index K) = Some v)
         ∧ (∀ key, (∀ i, (i < k)%nat → key ≠ ("f", Z.of_nat i :: index K)) →
                   m !! key = mem0 !! key)).
  assert (Hf := Hfresh). unfold fresh_locals in Hf. rewrite !Forall_cons in Hf.
  destruct Hf as (Hi0 & Hq0 & Hx0 & Hy0 & Hz0 & _).
  destruct (exec_for V K "i"
              (seq_stmts [SDecl true "q_" (EVar "i"); own_cell d;
                          SStore "f" (coord_exprs d) "i"])
              vs0 Inv (Some regs) mem0 Hi0)
    as (r & m' & Hrun & Hr & Hset & Hframe).
  - split; [reflexivity|]. split; [intros i v Hi; lia | reflexivity].
  - intros k r m Hk (-> & Hset & Hframe).
    destruct (lookup_lt_is_Some_2 vals k ltac:(lia)) as [v Hv].
    set (vs1 := <["q_" := Z.of_nat k]> (<["i" := Z.of_nat k]> vs0)).
    destruct (exec_own_cell V K d (Z.of_nat k) vs1 (Some regs) m Hd Hidx)
      as (vs2 & Hown & Hcoord & Hagree).
    { apply lookup_insert_eq. }
    { unfold vs1. rewrite !lookup_insert_ne by discriminate. exact Hx0. }
    { unfold vs1. rewrite !lookup_insert_ne by discriminate. exact Hy0. }
    { unfold vs1. rewrite !lookup_insert_ne by discriminate. exact Hz0. }
    assert (H2i : vs2 !! "i" = Some (Z.of_nat k)).
    { rewrite Hagree by discriminate. unfold vs1.
      rewrite lookup_insert_ne by discriminate. apply lookup_insert_eq. }
    eexists. split.
    { cbn [seq_stmts foldr]. eapply exec_seq.
      { apply exec_decl; [apply lookup_insert_eq|].
        rewrite lookup_insert_ne by discriminate. exact Hq0. }
      eapply exec_seq; [exact Hown|]. eapply exec_seq; [|reflexivity].
      eapply exec_store; [exact H2i | exact Hcoord | |].
      - unfold regs. rewrite list_lookup_fmap, Hv. reflexivity.
      - rewrite Hframe; [apply Halloc, Hk|]. intros i Hi [= E]. lia. }
    cbn [vars f_reg mem]. split; [exact H2i|]. split.
    { apply filter_dom_agree. intros x [y Hxy].
      rewrite Hagree by congruence. unfold vs1.
      rewrite !lookup_insert_ne by congruence. reflexivity. }
    split; [reflexivity|]. split.
    + intros i w Hi Hw. destruct (decide (i = k)) as [->|Hne].
      * rewrite lookup_insert_eq. congruence.
      * rewrite lookup_insert_ne by (intros [= E]; lia). apply Hset; [lia | exact Hw].
    + intros key Hkey. rewrite lookup_insert_ne.
      * apply Hframe. intros i Hi. apply Hkey. lia.
      * intros E. apply (Hkey k); [lia | congruence].
  - exists m'. subst r. split; [|split].
    + unfold no_streaming_write_block. cbn [seq_stmts foldr].
      eapply exec_seq; [reflexivity|]. eapply exec_seq; [exact Hrun | reflexivity].
    + intros i v Hv. apply Hset; [|exact Hv].
      apply lookup_lt_Some in Hv. lia.
    + exact Hframe.
Qed.

End Thread.

(** X16.  [NativeNoStreaming] leaves the distribution where it is.  The blocks
    its [generate_read_write] appends on a generator without the
    ["read_write()"] fragment are, up to blanks, the printed read block and
    the printed write-back block that stores to [f]; it adds nothing to the
    post-launch block of the wrapper (no buffer swap).  Run by the thread
    of a cell whose populations are allocated in [f], the two blocks
    complete and leave every buffer as it was. *)
Theorem no_streaming_keeps_the_distribution :
  (∀ (d : nat)
     (stencil_generate_q stencil_generate_d cuda_generate_offset
        : Generator.Gen unit)
     (lattice_get_lattice_coordinate : list string → Generator.Gen string)
     (coordinate_text : list string → string)
     (g g' : Generator.Generator),
      Generator.contract stencil_generate_q →
      Generator.contract stencil_generate_d →
      Generator.contract cuda_generate_offset →
      Generator.coordinate_contract lattice_get_lattice_coordinate coordinate_text →
      "read_write()" ∉ Generator.registry g →
      Streaming.NativeNoStreaming_generate_read_write d
        stencil_generate_q stencil_generate_d cuda_generate_offset
        lattice_get_lattice_coordinate g = Ok (tt, g') →
      squeeze (Generator.index_buffer g') =
        squeeze (Generator.index_buffer g)
        ++ (strip_spaces <$> print_stmt coordinate_text (read_block d))
      ∧ squeeze (Generator.write_buffer g') =
          squeeze (Generator.write_buffer g)
          ++ (strip_spaces <$>
                print_stmt coordinate_text (no_streaming_write_block d))
      ∧ Generator.python_wrapper_after_buffer g'
        = Generator.python_wrapper_after_buffer g)
  ∧ (∀ (V : Type) (K : launch) (d : nat) (vs0 : gmap string Z)
       (mem0 : gmap (string * list Z) V),
      (d ≤ 3)%nat → length (index K) = d →
      fresh_locals vs0 →
      (∀ i, (i < q K)%nat → is_Some (mem0 !! ("f", Z.of_nat i :: index K))) →
      ∃ regs,
        exec K (thread_body Streaming.NativeNoStreaming d)
          {| vars := vs0; f_reg := None; mem := mem0 |}
        = Some {| vars := vs0; f_reg := Some regs; mem := mem0 |}).
Proof.
  split.
  - intros d gen_q gen_d gen_offset glc text g g' Hq Hd Hoff Hglc Hr Hrun.
    destruct (StreamingFacts.no_streaming_generate_read_write_fresh d
                gen_q gen_d (Generator.ret tt) gen_offset (Generator.ret tt)
                (Generator.ret tt) glc text Hq Hd ret_contract Hoff ret_contract
                ret_contract Hglc g g' Hr Hrun) as (_ & Hi & Hw & Ha).
    split; [exact Hi|]. split; [exact Hw | exact Ha].
  - intros V K d vs0 mem0 Hd Hidx Hfresh Halloc.
    assert (Hvals : ∃ vals, length vals = q K
              ∧ ∀ i v, vals !! i = Some v →
                       mem0 !! ("f", Z.of_nat i :: index K) = Some v).
    { assert (Hn : ∀ n, (n ≤ q K)%nat →
                ∃ vals, length vals = n
                        ∧ ∀ i v, vals !! i = Some v →
                                 mem0 !! ("f", Z.of_nat i :: index K) = Some v).
      { induction n as [|n IH]; intros Hle.
        - exists []. split; [reflexivity|]. intros i v Hv. discriminate Hv.
        - destruct IH as (vals & Hlen & Hvals); [lia|].
          destruct (Halloc n ltac:(lia)) as [v Hv].
          exists (vals ++ [v]). split; [rewrite length_app; simpl; lia|].
          intros i w Hi. destruct (decide (i < n)%nat) as [Hlt|Hge].
          + rewrite lookup_app_l in Hi by lia. apply Hvals, Hi.
          + rewrite lookup_app_r in Hi by lia.
            destruct (i - length vals)%nat as [|j] eqn:Ej; [|discriminate Hi].
            injection Hi as <-. replace i with n by lia. exact Hv. }
      exact (Hn (q K) ltac:(lia)). }
    destruct Hvals as (vals & Hlen & Hvals).
    pose proof (exec_read_block V K d vs0 vals mem0 Hd Hidx Hfresh Hlen Hvals)
      as Hread.
    destruct (exec_no_streaming_write_block V K d vs0 vals mem0 Hd Hidx Hfresh
                Hlen Halloc) as (m' & Hwrite & Hset & Hframe).
    exists (Some <$> vals). unfold thread_body. cbn [exec]. rewrite Hread.
    cbn [mbind option_bind]. rewrite Hwrite. do 2 f_equal.
    apply map_eq. intros key.
    destruct (decide (Exists (λ i, key = ("f", Z.of_nat i :: index K))
                             (seq 0 (q K)))) as [Hyes|Hno].
    + apply Exists_exists in Hyes as (i & Hi & ->). apply elem_of_seq in Hi.
      destruct (lookup_lt_is_Some_2 vals i ltac:(lia)) as [v Hv].
      rewrite (Hset i v Hv), (Hvals i v Hv). reflexivity.
    + apply Hframe. intros i Hi Hkey. apply Hno, Exists_exists.
      exists i. split; [apply elem_of_seq; lia | exact Hkey].
Qed.

End NoStreamingFacts.

Module LaunchSamples.
Import Kernel KernelFacts Launch LaunchFacts GridFacts NoStreamingFacts.
Local Open Scope Z_scope.

(** The sample grid holds both buffers at every direction and cell. *)
Lemma sample_allocated (c : list Z) (masked : list (list Z)) (arr : string) :
  arr = "f" ∨ arr = "f_next" →
  allocated (Sample.thread c masked) arr Sample.memory.
Proof.
  intros Harr i cell Hi Hgrid. cbn [Sample.thread q dimension] in Hi, Hgrid.
  inversion Hgrid as [|x nx cell' dim' Hx Hrest]; subst.
  inversion Hrest as [|y ny cell'' dim'' Hy Hnil]; subst.
  inversion Hnil; subst.
  assert (Hxs : x = 0 ∨ x = 1 ∨ x = 2) by lia.
  assert (Hys : y = 0 ∨ y = 1) by lia.
  do 9 (destruct i as [|i];
        [destruct Harr as [-> | ->];
         destruct Hxs as [-> | [-> | ->]]; destruct Hys as [-> | ->];
         vm_compute; eauto|]).
  lia.
Qed.

Lemma sample_short :
  Forall (short [3; 2]) (Stencils.e Stencils.D2Q9).
Proof.
  repeat (apply Forall_cons; split;
          [repeat (apply Forall2_cons; split; [lia|]); apply Forall2_nil_2|]).
  apply Forall_nil_2.
Qed.

Lemma standard_streaming_stays_on_grid_witness :
  ∃ m',
    exec (Sample.thread [2; 1] []) (standard_write_block false 2)
      {| vars := ∅; f_reg := Some (Some <$> Sample.registers);
         mem := Sample.memory |}
    = Some {| vars := ∅; f_reg := Some (Some <$> Sample.registers); mem := m' |}
    ∧ on_grid [3; 2] (target (Sample.thread [2; 1] []) false 1)
    ∧ m' !! ("f_next", 1 :: target (Sample.thread [2; 1] []) false 1) = Some 121
    ∧ target (Sample.thread [2; 1] []) false 1 !! 0%nat = Some ((2 + 1) mod 3).
Proof.
  destruct (standard_streaming_stays_on_grid Z (Sample.thread [2; 1] []) 2 false
              ∅ Sample.registers Sample.memory)
    as (m' & Hrun & Hset & Hmod & _).
  - apply (sample_well_formed [] []). reflexivity.
  - repeat (apply Forall2_cons; split; [lia|]). apply Forall2_nil_2.
  - exact sample_short.
  - discriminate.
  - apply fresh_locals_empty.
  - reflexivity.
  - apply sample_allocated. right. reflexivity.
  - exists m'. split; [exact Hrun|].
    destruct (Hset 1%nat 121 eq_refl) as [Hgrid Hval].
    split; [exact Hgrid|]. split; [exact Hval|].
    exact (Hmod 1%nat [1; 0] 0%nat 2 1 3 eq_refl eq_refl eq_refl eq_refl eq_refl).
Defined.

Lemma standard_streaming_shifts_the_grid_witness :
  let K := Sample.thread [0; 0] [] in
  let body := thread_body (Streaming.NativeStandardStreaming false) 2 in
  ∃ m',
    run_threads K body sample_cells Sample.memory = Some m'
    ∧ m' !! ("f_next", [1; 0; 1]) = Sample.memory !! ("f", [1; 2; 1])
    ∧ m' !! ("f_next", [7; 2; 1]) = Sample.memory !! ("f", [7; 0; 0])
    ∧ run_threads K body (reverse sample_cells) Sample.memory = Some m'.
Proof.
  intros K body.
  destruct (standard_streaming_shifts_the_grid Z K 2 sample_cells Sample.memory)
    as (m' & Hrun & Hset & _ & Horder).
  - lia.
  - reflexivity.
  - reflexivity.
  - repeat (apply Forall_cons; split; [reflexivity|]). apply Forall_nil_2.
  - exact sample_short.
  - apply (bool_decide_unpack _). vm_compute. exact I.
  - repeat (apply Forall_cons; split;
            [repeat (apply Forall2_cons; split; [lia|]); apply Forall2_nil_2|]).
    apply Forall_nil_2.
  - apply sample_allocated. left. reflexivity.
  - apply sample_allocated. right. reflexivity.
  - exists m'. split; [exact Hrun|]. split; [|split].
    + apply (Hset [2; 1] 1%nat [1; 0]); [|reflexivity].
      unfold sample_cells.
      repeat first [apply list_elem_of_here | apply list_elem_of_further].
    + apply (Hset [0; 0] 7%nat [-1; -1]); [|reflexivity].
      unfold sample_cells.
      repeat first [apply list_elem_of_here | apply list_elem_of_further].
    + apply Horder. apply reverse_Permutation.
Defined.

Lemma no_streaming_keeps_the_distribution_witness :
  ∃ regs,
    exec (Sample.thread [2; 1] []) (thread_body Streaming.NativeNoStreaming 2)
      Sample.start
    = Some {| vars := ∅; f_reg := Some regs; mem := Sample.memory |}.
Proof.
  destruct no_streaming_keeps_the_distribution as (_ & Hsem).
  apply (Hsem Z (Sample.thread [2; 1] []) 2%nat ∅ Sample.memory).
  - lia.
  - reflexivity.
  - apply fresh_locals_empty.
  - intros i Hi.
    apply (sample_allocated [2; 1] [] "f" (or_introl eq_refl) i [2; 1] Hi).
    repeat (apply Forall2_cons; split; [lia|]). apply Forall2_nil_2.
Defined.

End LaunchSamples.

Module ObservableReporterFacts.
Import ObservableReporter.
Local Open Scope Z_scope.

Section Observable.

Variable F : Type.
Variable observable : F → ndarray.

Local Abbreviation call := (call F observable).
Local Abbreviation calls := (calls F observable).

(** A step is due when the interval divides it. *)
Local Abbreviation due k := (λ s : Z * Q * F, s.1.1 mod k = 0) (only parsing).

Lemma call_list (k : Z) (entries : list (list item)) (w : streams)
    (i : Z) (t : Q) (f : F) :
  k ≠ 0 →
  (i mod k = 0 → (ndim (observable f) < 2)%nat) →
  call {| interval := k; out := ToList entries |} w i t f
  = Ok ({| interval := k;
           out := ToList (entries
                          ++ if decide (i mod k = 0)
                             then [entry_of i t (observed_list F observable f)]
                             else []) |}, w).
Proof.
  intros Hk Hdim. unfold ObservableReporter.call. cbn [interval out].
  destruct (decide (k = 0)) as [|_]; [contradiction|].
  destruct (decide (i mod k = 0)) as [Hdue|_].
  - destruct (decide (ndim (observable f) < 2)%nat) as [_|Hbig];
      [reflexivity | destruct (Hbig (Hdim Hdue))].
  - rewrite app_nil_r. reflexivity.
Qed.

Lemma calls_list (k : Z) (steps : list (Z * Q * F))
    (entries : list (list item)) (w : streams) :
  k ≠ 0 →
  Forall (λ s, s.1.1 mod k = 0 → (ndim (observable s.2) < 2)%nat) steps →
  calls {| interval := k; out := ToList entries |} w steps
  = Ok ({| interval := k;
           out := ToList (entries
                          ++ ((λ s, entry_of s.1.1 s.1.2
                                      (observed_list F observable s.2))
                              <$> filter (due k) steps)) |}, w).
Proof.
  intros Hk Hsteps. revert entries.
  induction Hsteps as [|[[i t] f] steps Hs _ IH]; intros entries.
  - cbn. rewrite app_nil_r. reflexivity.
  - cbn [ObservableReporter.calls]. rewrite call_list by assumption.
    rewrite IH, filter_cons. cbn [fst snd].
    destruct (decide (i mod k = 0)).
    + rewrite <- app_assoc. reflexivity.
    + rewrite app_nil_r. reflexivity.
Qed.

End Observable.

Lemma filter_fmap_comm {A B} (P : B → Prop) `{!∀ b, Decision (P b)}
    (g : A → B) (l : list A) :
  filter P (g <$> l) = g <$> filter (λ a, P (g a)) l.
Proof.
  induction l as [|a l IH]; [reflexivity|].
  cbn [fmap list_fmap]. rewrite !filter_cons, IH.
  destruct (decide (P (g a))); reflexivity.
Qed.

(** The multiples of [k] below [n]. *)
Lemma filter_multiples (k : Z) (n : nat) :
  0 < k →
  filter (λ i : nat, Z.of_nat i mod k = 0) (seq 0 n)
  = (λ j, Z.to_nat (Z.of_nat j * k)) <$> seq 0 (Z.to_nat ((Z.of_nat n + k - 1) / k)).
Proof.
  intros Hk. induction n as [|n IH].
  - cbn [seq filter list_filter]. rewrite Z.div_small by lia. reflexivity.
  - rewrite seq_S, filter_app, IH. cbn [Nat.add filter list_filter].
    set (a := (Z.of_nat n + k - 1) / k).
    assert (Ha : 0 ≤ a) by (apply Z.div_pos; lia).
    pose proof (Z.div_mod (Z.of_nat n) k ltac:(lia)) as Hdm.
    pose proof (Z.mod_pos_bound (Z.of_nat n) k Hk) as Hr.
    destruct (decide (Z.of_nat n mod k = 0)) as [Hdue|Hnot].
    + assert (Ea : a = Z.of_nat n / k).
      { unfold a. symmetry. apply (Z.div_unique _ _ _ (k - 1)); lia. }
      assert (Eb : (Z.of_nat (S n) + k - 1) / k = a + 1).
      { symmetry. apply (Z.div_unique _ _ _ 0); lia. }
      rewrite Eb, Z2Nat.inj_add by lia. change (Z.to_nat 1) with 1%nat.
      rewrite Nat.add_1_r, seq_S, fmap_app. cbn [Nat.add fmap list_fmap].
      do 2 f_equal. rewrite Z2Nat.id by lia. lia.
    + assert (Eb : (Z.of_nat (S n) + k - 1) / k = a).
      { unfold a. symmetry.
        apply (Z.div_unique _ _ _ (Z.of_nat n mod k)); [lia|].
        assert (Ec : (Z.of_nat n + k - 1) / k = Z.of_nat n / k + 1).
        { symmetry. apply (Z.div_unique _ _ _ (Z.of_nat n mod k - 1)); lia. }
        rewrite Ec. lia. }
      rewrite Eb, app_nil_r. reflexivity.
Qed.

(** X17.  The reporter records every [interval]-th step.  With a list as [out]
    and a non-zero interval, calling the reporter for a sequence of steps,
    where the observable is a scalar or a vector at every step the interval
    divides, appends the entry [[i, t] + observed] of exactly those steps,
    in their order, and prints nothing.  Called for the steps 0 to n - 1
    with a positive interval, it records the steps 0, interval,
    2 * interval, ...: the integer part of (n + interval - 1) / interval
    entries. *)
Theorem ObservableReporter_records_every_interval (F : Type)
    (observable : F → ndarray) (k : Z) (entries : list (list item))
    (w : streams) :
  k ≠ 0 →
  (∀ steps,
     Forall (λ s, s.1.1 mod k = 0 → (ndim (observable s.2) < 2)%nat) steps →
     calls F observable {| interval := k; out := ToList entries |} w steps
     = Ok ({| interval := k;
              out := ToList (entries
                             ++ ((λ s, entry_of s.1.1 s.1.2
                                         (observed_list F observable s.2))
                                 <$> filter (λ s, s.1.1 mod k = 0) steps)) |}, w))
  ∧ (∀ (n : nat) (t : nat → Q) (f : nat → F),
       0 < k →
       (∀ i, (ndim (observable (f i)) < 2)%nat) →
       calls F observable {| interval := k; out := ToList entries |} w
         ((λ i, (Z.of_nat i, t i, f i)) <$> seq 0 n)
       = Ok ({| interval := k;
                out := ToList (entries
                               ++ ((λ j, let i := Z.to_nat (Z.of_nat j * k) in
                                         entry_of (Z.of_nat i) (t i)
                                           (observed_list F observable (f i)))
                                   <$> seq 0 (Z.to_nat ((Z.of_nat n + k - 1) / k)))) |},
             w)).
Proof.
  intros Hk. split.
  - intros steps Hsteps. apply calls_list; assumption.
  - intros n t f Hpos Hdim. rewrite calls_list; [|exact Hk|].
    + do 4 f_equal.
      rewrite (filter_fmap_comm (λ s : Z * Q * F, s.1.1 mod k = 0)
                 (λ i, (Z.of_nat i, t i, f i))).
      cbn [fst snd]. rewrite filter_multiples by exact Hpos.
      rewrite <- !list_fmap_compose. reflexivity.
    + apply Forall_fmap, Forall_forall. intros i _ _. apply Hdim.
Qed.

Lemma ObservableReporter_records_every_interval_witness :
  calls nat (λ n, Scalar (inject_Z (Z.of_nat n)))
    {| interval := 2; out := ToList [] |} {| stdout := []; file := [] |}
    ((λ i, (Z.of_nat i, (inject_Z (Z.of_nat i) / 10)%Q, (i * i)%nat)) <$> seq 0 5)
  = Ok ({| interval := 2;
           out := ToList
             ((λ j, let i := Z.to_nat (Z.of_nat j * 2) in
                    entry_of (Z.of_nat i) (inject_Z (Z.of_nat i) / 10)%Q
                      (observed_list nat (λ n, Scalar (inject_Z (Z.of_nat n)))
                         (i * i)%nat))
              <$> seq 0 3) |},
        {| stdout := []; file := [] |}).
Proof.
  apply (proj2 (ObservableReporter_records_every_interval nat
                  (λ n, Scalar (inject_Z (Z.of_nat n))) 2 []
                  {| stdout := []; file := [] |} ltac:(discriminate)) 5%nat
           (λ i, inject_Z (Z.of_nat i) / 10)%Q (λ i, (i * i)%nat)).
  - lia.
  - intros i. cbn. lia.
Defined.



End ObservableReporterFacts.

Module MassObservableFacts.
Import MassObservable.
Local Open Scope Q_scope.

(** *** Lists and their ends *)

Lemma ends {A} (l : list A) :
  l = [] ∨ (∃ x, l = [x]) ∨ ∃ x mid y, l = x :: mid ++ [y].
Proof.
  destruct l as [|x l]; [left; reflexivity|]. right.
  destruct l as [|y l _] using rev_ind; [left; eauto|].
  right. exists x, l, y. reflexivity.
Qed.

Lemma middle_ends {A} (x y : A) (mid : list A) : middle (x :: mid ++ [y]) = mid.
Proof.
  unfold middle. cbn [length]. rewrite length_app. cbn [length].
  replace (S (length mid + 1) - 1)%nat with (S (length mid)) by lia.
  cbn [take drop]. rewrite take_app_length. reflexivity.
Qed.

Lemma last_ends {A} (x y : A) (mid : list A) : last (x :: mid ++ [y]) = Some y.
Proof. rewrite app_comm_cons. apply last_snoc. Qed.

(** Two lists of one length end alike. *)
Lemma ends2 {A B} (a : list A) (b : list B) :
  length a = length b →
  (a = [] ∧ b = [])
  ∨ (∃ x y, a = [x] ∧ b = [y])
  ∨ ∃ x amid x' y bmid y',
      a = x :: amid ++ [x'] ∧ b = y :: bmid ++ [y'] ∧ length amid = length bmid.
Proof.
  intros Hlen.
  destruct (ends a) as [->|[[x ->]|(x & amid & x' & ->)]];
    destruct (ends b) as [->|[[y ->]|(y & bmid & y' & ->)]];
    cbn [length] in Hlen; rewrite ?length_app in Hlen; cbn [length] in Hlen;
    try lia.
  - left. tauto.
  - right. left. eauto.
  - right. right. exists x, amid, x', y, bmid, y'.
    split; [reflexivity|]. split; [reflexivity|]. lia.
Qed.

(** *** Sums *)

Local Abbreviation sumQ := (total 1) (only parsing).

Lemma sumQ_app (a b : list Q) : total 1 (a ++ b) == total 1 a + total 1 b.
Proof.
  induction a as [|x a IH]; cbn [app total foldr] in *; [ring|].
  rewrite IH. ring.
Qed.

Lemma total2_app (a b : list (list Q)) :
  total 2 (a ++ b) == total 2 a + total 2 b.
Proof.
  induction a as [|x a IH]; [cbn; ring|].
  change (total 1 x + total 2 (a ++ b) == total 1 x + total 2 a + total 2 b).
  rewrite IH. ring.
Qed.

Lemma total2_cons (row : list Q) (g : list (list Q)) :
  total 2 (row :: g) = total 1 row + total 2 g.
Proof. reflexivity. Qed.

Lemma total1_cons (x : Q) (l : list Q) : total 1 (x :: l) = x + total 1 l.
Proof. reflexivity. Qed.

(** A row whose mask is false everywhere contributes nothing. *)
Lemma masked_row_zero (gr : list Q) (mr : list bool) :
  Forall (λ b, b = false) mr → total 1 (times_mask 1 gr mr) == 0.
Proof.
  intros Hm. revert gr. induction Hm as [|b mr -> _ IH]; intros [|x gr];
    try reflexivity.
  change (x * 0 + total 1 (times_mask 1 gr mr) == 0). rewrite IH. ring.
Qed.

(** On a row whose first and last cell are not masked, only the cells in
    between count. *)
Lemma masked_row_middle (gr : list Q) (mr : list bool) :
  length gr = length mr →
  head mr ≠ Some true → last mr ≠ Some true →
  total 1 (times_mask 1 gr mr)
  == total 1 (times_mask 1 (middle gr) (middle mr)).
Proof.
  intros Hlen Hhead Hlast.
  destruct (ends2 gr mr Hlen)
    as [[-> ->]|[(x & b & -> & ->)|(x & gmid & x' & b & mmid & b' & -> & -> & Hmid)]].
  - reflexivity.
  - destruct b; [destruct Hhead; reflexivity|]. cbn. ring.
  - rewrite !middle_ends. rewrite last_ends in Hlast. cbn [head] in Hhead.
    destruct b; [destruct Hhead; reflexivity|].
    destruct b'; [destruct Hlast; reflexivity|].
    change (times_mask 1 (x :: gmid ++ [x']) (false :: mmid ++ [false]))
      with (x * 0 :: zip_with (times_mask 0) (gmid ++ [x']) (mmid ++ [false])).
    rewrite zip_with_app by exact Hmid.
    rewrite total1_cons, sumQ_app. cbn [zip_with total foldr times_mask]. ring.
Qed.

(** The cells of a row split into the masked and the unmasked ones. *)
Lemma row_complement (a : list Q) (b : list bool) :
  length a = length b →
  total 1 a - total 1 (times_mask 1 a b)
  == total 1 (times_mask 1 a (negb <$> b)).
Proof.
  revert b. induction a as [|x a IH]; intros [|y b] Hlen; try discriminate Hlen;
    [cbn; ring|].
  change (x + total 1 a - (x * (if y then 1 else 0) + total 1 (times_mask 1 a b))
          == x * (if negb y then 1 else 0)
             + total 1 (times_mask 1 a (negb <$> b))).
  rewrite <- IH by (cbn in Hlen; lia). destruct y; cbn [negb]; ring.
Qed.

(** *** One direction on a two-dimensional grid *)

Lemma masked_rows_zero (g : list (list Q)) (m : list (list bool)) :
  Forall (Forall (λ b, b = false)) m → total 2 (times_mask 2 g m) == 0.
Proof.
  intros Hm. revert g. induction Hm as [|mr m Hmr _ IH]; intros [|gr g];
    try reflexivity.
  change (total 1 (times_mask 1 gr mr) + total 2 (times_mask 2 g m) == 0).
  rewrite IH, masked_row_zero by exact Hmr. ring.
Qed.

(** Rows between the first and the last, cut to the columns between the
    first and the last. *)
Lemma masked_rows_middle (g : list (list Q)) (m : list (list bool)) (Ny : nat) :
  length g = length m →
  Forall (λ row, length row = Ny) g → Forall (λ row, length row = Ny) m →
  Forall (λ row, head row ≠ Some true ∧ last row ≠ Some true) m →
  total 2 (times_mask 2 g m)
  == total 2 (times_mask 2 (middle <$> g) (middle <$> m)).
Proof.
  intros Hlen Hg Hm Hb. revert m Hlen Hm Hb.
  induction Hg as [|gr g Hgr _ IH]; intros [|mr m] Hlen Hm Hb;
    try discriminate Hlen; [reflexivity|].
  apply Forall_cons in Hm as [Hmr Hm]. apply Forall_cons in Hb as [[Hh Hl] Hb].
  change (total 1 (times_mask 1 gr mr) + total 2 (times_mask 2 g m)
          == total 1 (times_mask 1 (middle gr) (middle mr))
             + total 2 (times_mask 2 (middle <$> g) (middle <$> m))).
  rewrite (IH m) by (try assumption; cbn in Hlen; lia).
  rewrite masked_row_middle by (try assumption; congruence). reflexivity.
Qed.

Lemma rows_complement (a : list (list Q)) (b : list (list bool)) (Ny : nat) :
  length a = length b →
  Forall (λ row, length row = Ny) a → Forall (λ row, length row = Ny) b →
  total 2 a - total 2 (times_mask 2 a b)
  == total 2 (times_mask 2 a (unmasked b)).
Proof.
  intros Hlen Ha. revert b Hlen.
  induction Ha as [|ar a Har _ IH]; intros [|br b] Hlen Hb;
    try discriminate Hlen; [cbn; ring|].
  apply Forall_cons in Hb as [Hbr Hb].
  change (total 1 ar + total 2 a
          - (total 1 (times_mask 1 ar br) + total 2 (times_mask 2 a b))
          == total 1 (times_mask 1 ar (negb <$> br))
             + total 2 (times_mask 2 a (unmasked b))).
  rewrite <- (IH b) by (try assumption; cbn in Hlen; lia).
  rewrite <- row_complement by congruence. ring.
Qed.

Lemma Forall_middle {A} (P : A → Prop) (l : list A) :
  Forall P l → Forall P (middle l).
Proof. intros H. unfold middle. apply Forall_drop, Forall_take, H. Qed.

Lemma length_middle {A} (l : list A) : length (middle l) = (length l - 2)%nat.
Proof. unfold middle. rewrite length_drop, length_take. lia. Qed.

(** What one direction contributes: the populations of the interior cells
    that are not masked. *)
Lemma direction_mass (g : list (list Q)) (m : list (list bool)) (Nx Ny : nat) :
  shape2 Nx Ny g → shape2 Nx Ny m → border_free m →
  total 2 (interior 0 g) - total 2 (times_mask 2 g m)
  == total 2 (times_mask 2 (interior 0 g) (unmasked (interior 0 m))).
Proof.
  intros [Hg Hgrows] [Hm Hmrows] [Hends Hcols].
  assert (Hlen : length g = length m) by congruence.
  assert (Hcut : total 2 (times_mask 2 g m)
                 == total 2 (times_mask 2 (interior 0 g) (interior 0 m))).
  { cbn [interior].
    destruct (ends2 g m Hlen)
      as [[-> ->]|[(gr & mr & -> & ->)
                  |(g0 & gmid & g1 & m0 & mmid & m1 & -> & -> & Hmid)]].
    - reflexivity.
    - apply masked_rows_zero. constructor; [|constructor].
      apply Hends. left. reflexivity.
    - rewrite !middle_ends.
      apply Forall_cons in Hgrows as [_ Hgrows].
      apply Forall_app in Hgrows as [Hgrows _].
      apply Forall_cons in Hmrows as [_ Hmrows].
      apply Forall_app in Hmrows as [Hmrows _].
      apply Forall_cons in Hcols as [_ Hcols].
      apply Forall_app in Hcols as [Hcols _].
      change (times_mask 2 (g0 :: gmid ++ [g1]) (m0 :: mmid ++ [m1]))
        with (times_mask 1 g0 m0
              :: zip_with (times_mask 1) (gmid ++ [g1]) (mmid ++ [m1])).
      rewrite zip_with_app by exact Hmid.
      rewrite total2_cons, total2_app.
      rewrite (masked_row_zero g0 m0) by (apply Hends; left; reflexivity).
      rewrite (masked_rows_zero [g1] [m1]).
      2:{ constructor; [|constructor]. apply Hends. right. apply last_ends. }
      rewrite <- (masked_rows_middle gmid mmid Ny) by assumption.
      change (zip_with (times_mask 1) gmid mmid) with (times_mask 2 gmid mmid).
      ring. }
  rewrite Hcut. cbn [interior].
  apply (rows_complement _ _ (Ny - 2)).
  - rewrite !length_fmap, !length_middle. congruence.
  - apply Forall_fmap, Forall_middle. eapply Forall_impl; [exact Hgrows|].
    intros row Hrow. cbn. rewrite length_middle. congruence.
  - apply Forall_fmap, Forall_middle. eapply Forall_impl; [exact Hmrows|].
    intros row Hrow. cbn. rewrite length_middle. congruence.
Qed.

(** X19.  With a mask, [Mass] counts the cells of the interior that are not
    masked, provided no masked cell lies on the border.  On a
    two-dimensional lattice, for a distribution of shape [Q, Nx, Ny] and a
    mask of shape [Nx, Ny] that is false on the first and last row and
    column, [Mass.__call__] returns the sum of the populations of the
    unmasked cells of [f[..., 1:-1, 1:-1]]. *)
Theorem Mass_counts_unmasked_interior (f : list (list (list Q)))
    (m : list (list bool)) (Nx Ny : nat) :
  Forall (shape2 Nx Ny) f →
  shape2 Nx Ny m →
  border_free m →
  Mass_call 1 (Some m) f
  == total 3 ((λ fq : list (list Q),
                 times_mask 2 (interior 0 fq) (unmasked (interior 0 m))) <$> f).
Proof.
  intros Hf Hm Hborder. unfold Mass_call. cbn [interior].
  induction Hf as [|fq f Hfq _ IH].
  - cbn. ring.
  - cbn [fmap list_fmap].
    change (total 2 (interior 0 fq) + total 3 (interior 0 <$> f)
            - (total 2 (times_mask 2 fq m)
               + total 3 ((λ fq0 : list (list Q), times_mask 2 fq0 m) <$> f))
            == total 2 (times_mask 2 (interior 0 fq) (unmasked (interior 0 m)))
               + total 3 ((λ fq0 : list (list Q),
                             times_mask 2 (interior 0 fq0)
                               (unmasked (interior 0 m))) <$> f)).
    rewrite <- IH, <- (direction_mass fq m Nx Ny) by assumption.
    cbn [interior]. change (tensor Q 2) with (list (list Q)). ring.
Qed.

Lemma Mass_counts_unmasked_interior_witness :
  let f := [[[1; 2; 3; 4]; [5; 6; 7; 8]; [9; 10; 11; 12]; [13; 14; 15; 16]];
            [[1; 1; 1; 1]; [1; 1; 1; 1]; [1; 1; 1; 1]; [1; 1; 1; 1]]] in
  let m := [[false; false; false; false]; [false; true; false; false];
            [false; false; false; false]; [false; false; false; false]] in
  Mass_call 1 (Some m) f
  == total 3 ((λ fq : list (list Q),
                 times_mask 2 (interior 0 fq) (unmasked (interior 0 m))) <$> f).
Proof.
  intros f m.
  apply (Mass_counts_unmasked_interior f m 4 4).
  - repeat (apply Forall_cons; split;
            [split; [reflexivity|];
             repeat (apply Forall_cons; split; [reflexivity|]); apply Forall_nil_2|]).
    apply Forall_nil_2.
  - split; [reflexivity|].
    repeat (apply Forall_cons; split; [reflexivity|]). apply Forall_nil_2.
  - split.
    + intros row [[= <-]|[= <-]];
        repeat (apply Forall_cons; split; [reflexivity|]); apply Forall_nil_2.
    + repeat (apply Forall_cons; split; [split; discriminate|]). apply Forall_nil_2.
Defined.

(** The condition on the mask matters: a masked cell on the border is
    subtracted although the first sum never counted it.  On a grid of 3 by
    3 cells holding 1 everywhere, with the corner cell masked, the only
    interior cell is not masked and holds 1, and [Mass] returns 0. *)
Example Mass_subtracts_masked_border_cells :
  let f := [[[1; 1; 1]; [1; 1; 1]; [1; 1; 1]]] in
  let m := [[true; false; false]; [false; false; false]; [false; false; false]] in
  Mass_call 1 (Some m) f == 0
  ∧ total 3 ((λ fq : list (list Q),
                times_mask 2 (interior 0 fq) (unmasked (interior 0 m))) <$> f)
    == 1.
Proof. split; reflexivity. Qed.

End MassObservableFacts.

Module EmptyDirFacts.
Import EmptyDir.

Lemma child_name_Some (p k : list string) (n : string) :
  child_name p k = Some n ↔ k = p ++ [n].
Proof.
  unfold child_name. split.
  - destruct (decide (take (length p) k = p)) as [Hp|]; [|discriminate].
    destruct (drop (length p) k) as [|m [|? ?]] eqn:Hd; try discriminate.
    intros [= ->]. rewrite <- (take_drop (length p) k), Hp, Hd. reflexivity.
  - intros ->. rewrite take_app_length, drop_app_length.
    destruct (decide (p = p)); [reflexivity | contradiction].
Qed.

Lemma elem_of_children (fs : FS) (p : list string) (n : string) :
  n ∈ children fs p ↔ is_Some (fs !! (p ++ [n])).
Proof.
  unfold children. rewrite list_elem_of_omap. split.
  - intros (k & Hk & Hn). apply child_name_Some in Hn as ->.
    apply list_elem_of_fmap in Hk as ([k v] & -> & Hkv).
    apply elem_of_map_to_list in Hkv. eauto.
  - intros [v Hv]. exists (p ++ [n]). split; [|apply child_name_Some; reflexivity].
    apply list_elem_of_fmap. exists (p ++ [n], v). split; [reflexivity|].
    apply elem_of_map_to_list. exact Hv.
Qed.

Lemma NoDup_children (fs : FS) (p : list string) : NoDup (children fs p).
Proof.
  unfold children. pose proof (NoDup_fst_map_to_list fs) as Hnd.
  induction Hnd as [|k ks Hk Hnd IH]; [constructor|].
  cbn [omap list_omap]. destruct (child_name p k) as [n|] eqn:Hn; [|exact IH].
  constructor; [|exact IH].
  intros Hin. apply list_elem_of_omap in Hin as (k' & Hk' & Hn').
  apply child_name_Some in Hn, Hn'. subst. contradiction.
Qed.

Lemma below_snoc (p k : list string) :
  below p k ↔ ∃ n, p ++ [n] `prefix_of` k.
Proof.
  unfold below. split.
  - intros [[rest ->] Hne]. destruct rest as [|n rest].
    + rewrite app_nil_r in Hne. contradiction.
    + exists n. exists rest. rewrite <- app_assoc. reflexivity.
  - intros [n [rest ->]]. split.
    + exists (n :: rest). rewrite <- app_assoc. reflexivity.
    + intros E. apply (f_equal length) in E.
      rewrite !length_app in E. simpl in E. lia.
Qed.

(** Every ancestor of an entry is a directory. *)
Lemma well_formed_ancestor (fs : FS) (p rest : list string) :
  well_formed fs → rest ≠ [] → is_Some (fs !! (p ++ rest)) → fs !! p = Some Dir.
Proof.
  intros Hwf. induction rest as [|n rest IH] using rev_ind; [contradiction|].
  intros _ Hsome. rewrite app_assoc in Hsome.
  pose proof (Hwf _ _ Hsome) as Hdir.
  destruct rest as [|m rest]; [rewrite app_nil_r in Hdir; exact Hdir|].
  apply IH; [discriminate | rewrite Hdir; eauto].
Qed.

Lemma pruned_well_formed (fs fs' : FS) (p : list string) (done : list string) :
  well_formed fs → pruned fs p done fs' → well_formed fs'.
Proof.
  intros Hwf Hpr q n Hsome. rewrite (Hpr (q ++ [n])) in Hsome.
  destruct (decide (Exists _ done)) as [|Hno]; [destruct Hsome; discriminate|].
  rewrite (Hpr q). destruct (decide (Exists _ done)) as [Hyes|_].
  - destruct Hno. apply Exists_exists in Hyes as (m & Hm & Hpre).
    apply Exists_exists. exists m. split; [exact Hm|].
    apply prefix_app_r. exact Hpre.
  - apply (Hwf q n Hsome).
Qed.

Lemma snoc_prefix_snoc (p : list string) (n m : string) :
  p ++ [n] `prefix_of` p ++ [m] → n = m.
Proof.
  intros H. apply prefix_app_inv in H. destruct H as [rest H].
  injection H as ->. reflexivity.
Qed.

Section Listing.

Variable directory_order : list string → list string.
Hypothesis directory_order_perm : ∀ names, directory_order names ≡ₚ names.

Local Abbreviation ensure_empty_dir := (ensure_empty_dir directory_order).

(** The body of the loop, for one name. *)
Local Abbreviation step limit' path :=
  (λ (acc : outcome FS) (filename : string),
     match acc with
     | Fails err => Fails err
     | Done fs =>
         let filepath := path ++ [filename] in
         if isdir fs filepath then
           match ensure_empty_dir limit' fs filepath with
           | Fails err => Fails err
           | Done fs => rmdir fs filepath
           end
         else remove fs filepath
     end).

(** An existing directory is emptied, if the calls may nest as deep as
    the tree below it. *)
Lemma ensure_empty_dir_Dir (limit : nat) :
  ∀ (fs : FS) (p : list string),
    well_formed fs →
    (∀ k, p `prefix_of` k → is_Some (fs !! k) → length k - length p < limit) →
    fs !! p = Some Dir →
    ∃ fs', ensure_empty_dir limit fs p = Done fs'
           ∧ ∀ k, fs' !! k = if decide (below p k) then None else fs !! k.
Proof.
  induction limit as [|limit IH]; intros fs p Hwf Hdepth Hp.
  { specialize (Hdepth p ltac:(reflexivity) ltac:(rewrite Hp; eauto)). lia. }
  cbn [EmptyDir.ensure_empty_dir]. unfold exists_. rewrite bool_decide_eq_true_2 by (rewrite Hp; eauto).
  unfold listdir. rewrite Hp.
  set (names := directory_order (children fs p)).
  assert (Hnames : ∀ n, n ∈ names ↔ is_Some (fs !! (p ++ [n]))).
  { intros n. unfold names. rewrite directory_order_perm. apply elem_of_children. }
  assert (Hnd : NoDup names).
  { unfold names. rewrite directory_order_perm. apply NoDup_children. }
  assert (Hloop : ∀ todo done fs_cur,
            NoDup (done ++ todo) →
            (∀ n, n ∈ todo → is_Some (fs !! (p ++ [n]))) →
            pruned fs p done fs_cur →
            ∃ fs_end, foldl (step limit p) (Done fs_cur) todo = Done fs_end
                      ∧ pruned fs p (done ++ todo) fs_end).
  { induction todo as [|n todo IHtodo]; intros done fs_cur Hnd' Htodo Hpr.
    - exists fs_cur. split; [reflexivity|]. rewrite app_nil_r. exact Hpr.
    - assert (Hn : n ∉ done).
      { apply NoDup_app in Hnd' as (_ & Hdisj & _). intros Hin.
        apply (Hdisj n Hin). apply list_elem_of_here. }
      destruct (Htodo n (list_elem_of_here _ _)) as [kd Hkd].
      assert (Hcur : fs_cur !! (p ++ [n]) = Some kd).
      { rewrite (Hpr (p ++ [n])). destruct (decide (Exists _ done)) as [Hyes|_];
          [|exact Hkd].
        apply Exists_exists in Hyes as (m & Hm & Hpre).
        apply snoc_prefix_snoc in Hpre. subst m. contradiction. }
      pose proof (pruned_well_formed fs fs_cur p done Hwf Hpr) as Hwf_cur.
      (* the file system with the entry [n] and all below it removed *)
      assert (Hstep : ∃ fs2, foldl (step limit p) (Done fs_cur) [n] = Done fs2
                             ∧ pruned fs p (done ++ [n]) fs2).
      { assert (Hfinish : ∀ fs2,
                  (∀ k, fs2 !! k = if decide (p ++ [n] `prefix_of` k) then None
                                   else fs_cur !! k) →
                  pruned fs p (done ++ [n]) fs2).
        { intros fs2 Hfs2 k. rewrite Hfs2, (Hpr k).
          destruct (decide (p ++ [n] `prefix_of` k)) as [Hpre|Hnot].
          - rewrite decide_True; [reflexivity|].
            apply Exists_app. right. apply Exists_cons. left. exact Hpre.
          - destruct (decide (Exists _ done)) as [Hyes|Hno].
            + rewrite decide_True; [reflexivity|]. apply Exists_app. left. exact Hyes.
            + rewrite decide_False; [reflexivity|]. intros Hex.
              apply Exists_app in Hex as [Hex|Hex]; [contradiction|].
              apply Exists_cons in Hex as [Hex|Hex]; [contradiction|].
              inversion Hex. }
        cbn [foldl]. cbn beta iota zeta. unfold isdir. rewrite Hcur. destruct kd.
        - (* a file: [remove] *)
          rewrite bool_decide_eq_false_2 by discriminate.
          unfold remove. rewrite Hcur. eexists. split; [reflexivity|].
          apply Hfinish. intros k.
          destruct (decide (p ++ [n] `prefix_of` k)) as [[rest ->]|Hnot].
          + destruct rest as [|m rest].
            * rewrite app_nil_r. apply lookup_delete_eq.
            * rewrite lookup_delete_ne
                by (intros E; apply (f_equal length) in E;
                    rewrite !length_app in E; simpl in E; lia).
              destruct (fs_cur !! ((p ++ [n]) ++ m :: rest)) as [x|] eqn:Hx;
                [|reflexivity].
              pose proof (well_formed_ancestor fs_cur (p ++ [n]) (m :: rest)
                            Hwf_cur ltac:(discriminate) ltac:(rewrite Hx; eauto))
                as Hdir.
              congruence.
          + apply lookup_delete_ne. intros E. apply Hnot. rewrite E. reflexivity.
        - (* a directory: the recursive call, then [rmdir] *)
          rewrite bool_decide_eq_true_2 by reflexivity.
          destruct (IH fs_cur (p ++ [n]) Hwf_cur) as (fs1 & Hrun & Hfs1).
          { intros k Hpre Hsome. rewrite (Hpr k) in Hsome.
            destruct (decide (Exists _ done)); [destruct Hsome; discriminate|].
            pose proof (Hdepth k ltac:(eapply prefix_app_l; exact Hpre) Hsome).
            apply prefix_length in Hpre. rewrite length_app in *. simpl in *. lia. }
          { exact Hcur. }
          rewrite Hrun. unfold rmdir.
          assert (Hfp : fs1 !! (p ++ [n]) = Some Dir).
          { rewrite Hfs1. rewrite decide_False; [exact Hcur|].
            intros [_ Hne]. contradiction. }
          rewrite Hfp.
          assert (Hnone : children fs1 (p ++ [n]) = []).
          { destruct (children fs1 (p ++ [n])) as [|m ms] eqn:Hch; [reflexivity|].
            assert (Hm : m ∈ children fs1 (p ++ [n]))
              by (rewrite Hch; apply list_elem_of_here).
            apply elem_of_children in Hm. rewrite Hfs1 in Hm.
            rewrite decide_True in Hm; [destruct Hm; discriminate|].
            apply below_snoc. exists m. reflexivity. }
          rewrite Hnone. eexists. split; [reflexivity|].
          apply Hfinish. intros k.
          destruct (decide (p ++ [n] `prefix_of` k)) as [Hpre|Hnot].
          + destruct (decide (k = p ++ [n])) as [E|Hne];
              [subst k; apply lookup_delete_eq|].
            rewrite lookup_delete_ne by congruence.
            rewrite Hfs1, decide_True; [reflexivity|]. split; [exact Hpre|congruence].
          + rewrite lookup_delete_ne by (intros E; apply Hnot; rewrite E; reflexivity).
            rewrite Hfs1, decide_False; [reflexivity|]. intros [Hpre _]. contradiction. }
      destruct Hstep as (fs2 & Hrun2 & Hpr2).
      destruct (IHtodo (done ++ [n]) fs2) as (fs_end & Hrun_end & Hpr_end).
      { rewrite <- app_assoc. exact Hnd'. }
      { intros m Hm. apply Htodo, list_elem_of_further, Hm. }
      { exact Hpr2. }
      exists fs_end. split.
      + change (foldl (step limit p)
                  (foldl (step limit p) (Done fs_cur) [n]) todo = Done fs_end).
        rewrite Hrun2. exact Hrun_end.
      + rewrite <- app_assoc in Hpr_end. exact Hpr_end. }
  destruct (Hloop names [] fs) as (fs_end & Hrun & Hpr).
  { exact Hnd. }
  { intros n Hn. apply Hnames, Hn. }
  { intros k. rewrite decide_False; [reflexivity|]. intros Hex. inversion Hex. }
  exists fs_end. split; [exact Hrun|].
  intros k. rewrite (Hpr k). cbn [app].
  destruct (decide (below p k)) as [Hbelow|Hnot].
  - destruct (decide (Exists _ names)) as [_|Hno]; [reflexivity|].
    destruct (fs !! k) as [x|] eqn:Hk; [|reflexivity].
    destruct Hno. apply below_snoc in Hbelow as [n Hpre].
    apply Exists_exists. exists n. split; [|exact Hpre].
    apply Hnames. destruct Hpre as [rest ->].
    destruct rest as [|m rest]; [rewrite app_nil_r in Hk; eauto|].
    rewrite (well_formed_ancestor fs (p ++ [n]) (m :: rest) Hwf); eauto.
  - rewrite decide_False; [reflexivity|]. intros Hex.
    apply Exists_exists in Hex as (n & _ & Hpre).
    apply Hnot, below_snoc. eauto.
Qed.


End Listing.

Lemma sample_fs_well_formed : well_formed sample_fs.
Proof.
  assert (H : map_Forall (λ k _, k = [] ∨ sample_fs !! removelast k = Some Dir)
                sample_fs).
  { apply (bool_decide_unpack _). vm_compute. exact I. }
  intros p n [x Hx]. specialize (H _ _ Hx). cbn beta in H.
  rewrite removelast_last in H. destruct H as [H|H]; [|exact H].
  destruct p; discriminate H.
Qed.


End EmptyDirFacts.
